(** * pii-scan: a shallow embedding of the detection-and-scoring engine

    The development follows [src/scanner.ts], [src/patterns.ts] and
    [src/cli.ts]: JavaScript strings, the exceptions the built-ins can
    throw, a backtracking regular-expression matcher, plain objects
    used as column tables, the two normalizers, the redaction utility,
    the scan engine and the command line, followed by the properties
    the specification states about them and by further properties of
    the same code. *)

From Stdlib Require Import Ascii String DecimalString.
From Stdlib Require Import List NArith ZArith Bool Lia Permutation.
Import ListNotations.

Set Implicit Arguments.

(* ================================================================== *)
(** ** Exceptions *)

(** The error kinds the built-ins used by the scanner can throw. *)
Inductive exn : Type :=
| TypeError
| RangeError
| SyntaxError.

(** A computation that either throws or returns a value. *)
Definition Exn (A : Type) : Type := (exn + A)%type.

Definition ret {A : Type} (a : A) : Exn A := inr a.
Definition throw {A : Type} (e : exn) : Exn A := inl e.
Definition bind {A B : Type} (c : Exn A) (k : A -> Exn B) : Exn B :=
  match c with
  | inl e => inl e
  | inr a => k a
  end.

Declare Scope exn_scope.
Delimit Scope exn_scope with exn.
Notation "x <- c ;; k" := (bind c (fun x => k))
  (at level 61, c at next level, right associativity) : exn_scope.
Notation "c ;;; k" := (bind c (fun _ => k))
  (at level 61, right associativity) : exn_scope.
Open Scope exn_scope.

(** [try c catch h] of the source. *)
Definition try_catch {A : Type} (c : Exn A) (handler : A) : A :=
  match c with
  | inl _ => handler
  | inr a => a
  end.

Fixpoint mapM {A B : Type} (f : A -> Exn B) (l : list A) : Exn (list B) :=
  match l with
  | [] => ret []
  | a :: l' => b <- f a ;; bs <- mapM f l' ;; ret (b :: bs)
  end.

(* ================================================================== *)
(** ** JavaScript strings

    A string is its sequence of UTF-16 code units; [length], [slice],
    [trim], [split] and the regular expressions of the catalog (none
    has the [u] flag) all work on code units. *)

Definition char : Type := N.
Definition str : Type := list char.

(** The units of an ASCII literal. *)
Definition lit (s : String.string) : str :=
  map N_of_ascii (String.list_ascii_of_string s).

Definition ch (a : ascii) : char := N_of_ascii a.

Definition LF : char := 10%N.
Definition CR : char := 13%N.
Definition DQUOTE : char := 34%N.
Definition COMMA : char := 44%N.
Definition STAR : char := 42%N.

Definition char_eqb (a b : char) : bool := N.eqb a b.

Fixpoint str_eqb (a b : str) : bool :=
  match a, b with
  | [], [] => true
  | x :: a', y :: b' => char_eqb x y && str_eqb a' b'
  | _, _ => false
  end.

(** [s.length] *)
Definition String_length (s : str) : Z := Z.of_nat (length s).

(** [s.slice(start, end)]: negative indices count from the end, both
    are clamped to the string. [None] is an omitted [end]. *)
Definition slice_index (len i : Z) : Z :=
  if (i <? 0)%Z then Z.max (len + i) 0 else Z.min i len.

Definition String_slice (s : str) (start : Z) (stop : option Z) : str :=
  let len := String_length s in
  let from := slice_index len start in
  let to := match stop with
            | None => len
            | Some e => slice_index len e
            end in
  firstn (Z.to_nat (Z.max (to - from) 0)) (skipn (Z.to_nat from) s).

(** [s.repeat(count)] throws a RangeError on a negative count. *)
Definition String_repeat (s : str) (count : Z) : Exn str :=
  if (count <? 0)%Z then throw RangeError
  else ret (concat (repeat s (Z.to_nat count))).

Definition Math_min (a b : Z) : Z := Z.min a b.

(** White space of the language (WhiteSpace and LineTerminator): what
    [trim] strips and what [\s] matches. *)
Definition is_whitespace (c : char) : bool :=
  ((9 <=? c) && (c <=? 13) || (c =? 32) || (c =? 160) || (c =? 5760)
   || ((8192 <=? c) && (c <=? 8202)) || (c =? 8232) || (c =? 8233)
   || (c =? 8239) || (c =? 8287) || (c =? 12288) || (c =? 65279))%N.

Fixpoint trimStart (s : str) : str :=
  match s with
  | [] => []
  | c :: s' => if is_whitespace c then trimStart s' else s
  end.

Definition trimEnd (s : str) : str := rev (trimStart (rev s)).

(** [s.trim()] *)
Definition String_trim (s : str) : str := trimEnd (trimStart s).

(** [s.endsWith(suffix)] *)
Definition String_endsWith (s suffix : str) : bool :=
  str_eqb (skipn (length s - length suffix) s) suffix
  && (length suffix <=? length s)%nat.

(** [s.split(sep)] for a one-unit separator. *)
Fixpoint split_on (sep : char) (cur : str) (s : str) : list str :=
  match s with
  | [] => [rev cur]
  | c :: s' =>
      if char_eqb c sep then rev cur :: split_on sep [] s'
      else split_on sep (c :: cur) s'
  end.

Definition String_split (s : str) (sep : char) : list str :=
  split_on sep [] s.

(** [parts.join(sep)] *)
Fixpoint Array_join (parts : list str) (sep : str) : str :=
  match parts with
  | [] => []
  | [p] => p
  | p :: rest => p ++ sep ++ Array_join rest sep
  end.

(** [arr.slice(0, n)] *)
Definition Array_take {A : Type} (n : nat) (l : list A) : list A := firstn n l.

(** Template-literal rendering of a non-negative integer. *)
Definition Number_show (n : nat) : str :=
  lit (DecimalString.NilZero.string_of_uint (Nat.to_uint n)).

(* ================================================================== *)
(** ** Risk levels and redaction *)

Inductive RiskLevel : Type := HIGH | MEDIUM | LOW.

Definition RiskLevel_eqb (a b : RiskLevel) : bool :=
  match a, b with
  | HIGH, HIGH | MEDIUM, MEDIUM | LOW, LOW => true
  | _, _ => false
  end.

(** [order.indexOf(r)] for [order = ["LOW", "MEDIUM", "HIGH"]]. *)
Definition order_indexOf (r : RiskLevel) : Z :=
  match r with
  | LOW => 0
  | MEDIUM => 1
  | HIGH => 2
  end.

Definition maxRisk (a b : RiskLevel) : RiskLevel :=
  if (order_indexOf a >=? order_indexOf b)%Z then a else b.

Definition redact (value : str) : Exn str :=
  if (String_length value <=? 4)%Z then ret (lit "****")
  else
    mask <- String_repeat [STAR] (Math_min (String_length value - 4) 8) ;;
    ret (String_slice value 0 (Some 2%Z) ++ mask ++ String_slice value (-2) None).

(* ================================================================== *)
(** ** Regular expressions

    The abstract syntax of the pattern language the catalog uses, and
    the backtracking matcher of the language definition: a matcher
    takes a position and a continuation, alternatives are tried left
    to right and quantifiers are greedy. Groups capture nothing the
    scanner reads (only the whole match is used), so both [(...)] and
    [(?:...)] are [Group]. *)

Inductive ClassAtom : Type :=
| CChar (c : char)
| CRange (lo hi : char)
| CDigit
| CSpace.

Inductive re : Type :=
| Empty
| Char (c : char)
| Dot
| Digit
| Space
| Class (atoms : list ClassAtom)
| WordB
| Seq (a b : re)
| Alt (a b : re)
| Quant (min : nat) (max : option nat) (r : re)
| Group (r : re).

(** A position in the subject: the index, the unit before it and the
    units from it on. *)
Record pos : Type := mkPos {
  index : N;
  before : option char;
  rest : str
}.

Definition start_of (s : str) : pos :=
  {| index := 0; before := None; rest := s |}.

Definition in_range (lo hi c : char) : bool := ((lo <=? c) && (c <=? hi))%N.

Definition is_digit (c : char) : bool := in_range (ch "0") (ch "9") c.

Definition is_word_char (c : char) : bool :=
  in_range (ch "a") (ch "z") c || in_range (ch "A") (ch "Z") c
  || is_digit c || char_eqb c (ch "_").

Definition is_line_terminator (c : char) : bool :=
  ((c =? 10) || (c =? 13) || (c =? 8232) || (c =? 8233))%N.

Section Matcher.

(** The [i] flag. *)
Variable ignoreCase : bool.

(** Canonicalization under [i] without [u]: a unit is compared by its
    upper-case form, and a unit outside ASCII never folds into ASCII.
    The literals and ranges of the catalog are all ASCII, for which
    this is the whole rule. *)
Definition canonicalize (c : char) : char :=
  if ignoreCase && in_range (ch "a") (ch "z") c then (c - 32)%N else c.

Definition char_matches (c x : char) : bool :=
  char_eqb (canonicalize c) (canonicalize x).

(** Some unit of [lo..hi] canonicalizes to what [x] canonicalizes to. *)
Definition range_matches (lo hi x : char) : bool :=
  let X := canonicalize x in
  in_range lo hi X
  || (ignoreCase && in_range (ch "A") (ch "Z") X && in_range lo hi (X + 32)%N).

Definition atom_matches (x : char) (a : ClassAtom) : bool :=
  match a with
  | CChar c => char_matches c x
  | CRange lo hi => range_matches lo hi x
  | CDigit => is_digit x
  | CSpace => is_whitespace x
  end.

Definition Cont : Type := pos -> option pos.

(** Consume one unit accepted by [ok]. *)
Definition step (ok : char -> bool) (p : pos) (k : Cont) : option pos :=
  match rest p with
  | [] => None
  | c :: s' =>
      if ok c
      then k {| index := N.succ (index p); before := Some c; rest := s' |}
      else None
  end.

Definition word_before (p : pos) : bool :=
  match before p with
  | Some c => is_word_char c
  | None => false
  end.

Definition word_after (p : pos) : bool :=
  match rest p with
  | c :: _ => is_word_char c
  | [] => false
  end.

(** The iterations of a quantifier beyond its minimum: greedy, and an
    iteration that consumes nothing is rejected. [bound] is at least
    as long as the input left, so at most [length bound] iterations
    can each consume a unit. *)
Fixpoint repeat_optional (m : pos -> Cont -> option pos) (bound : str)
    (max : option nat) (p : pos) (k : Cont) : option pos :=
  match max with
  | Some 0 => k p
  | _ =>
      match bound with
      | [] => k p
      | _ :: bound' =>
          match m p (fun q =>
                       if N.eqb (index q) (index p) then None
                       else repeat_optional m bound' (option_map pred max) q k)
          with
          | Some e => Some e
          | None => k p
          end
      end
  end.

(** The iterations up to the minimum. *)
Fixpoint repeat_required (m : pos -> Cont -> option pos) (min : nat)
    (max : option nat) (p : pos) (k : Cont) : option pos :=
  match max with
  | Some 0 => k p
  | _ =>
      match min with
      | 0 => repeat_optional m (rest p) max p k
      | S min' =>
          m p (fun q => repeat_required m min' (option_map pred max) q k)
      end
  end.

Fixpoint matcher (r : re) (p : pos) (k : Cont) {struct r} : option pos :=
  match r with
  | Empty => k p
  | Char c => step (char_matches c) p k
  | Dot => step (fun x => negb (is_line_terminator x)) p k
  | Digit => step is_digit p k
  | Space => step is_whitespace p k
  | Class atoms => step (fun x => existsb (atom_matches x) atoms) p k
  | WordB => if xorb (word_before p) (word_after p) then k p else None
  | Seq a b => matcher a p (fun q => matcher b q k)
  | Alt a b =>
      match matcher a p k with
      | Some e => Some e
      | None => matcher b p k
      end
  | Quant min max r' => repeat_required (matcher r') min max p k
  | Group r' => matcher r' p k
  end.

(** The length of the match that starts at [p], if there is one. *)
Definition match_here (r : re) (p : pos) : option nat :=
  match matcher r p Some with
  | Some e => Some (N.to_nat (index e - index p))
  | None => None
  end.

(** The first match at or after [skip] units from the position: its
    index and its text. *)
Fixpoint first_match (r : re) (i : N) (prev : option char) (s : str)
    (skip : nat) : option (N * str) :=
  match (match skip with
         | 0 => match_here r {| index := i; before := prev; rest := s |}
         | S _ => None
         end)
  with
  | Some len => Some (i, firstn len s)
  | None =>
      match s with
      | [] => None
      | c :: s' => first_match r (N.succ i) (Some c) s' (pred skip)
      end
  end.

(** All matches from left to right, none overlapping another: after a
    match the search resumes at its end, one unit further when the
    match is empty. *)
Fixpoint scan_matches (r : re) (i : N) (prev : option char) (s : str)
    (skip : nat) : list (N * str) :=
  match (match skip with
         | 0 => match_here r {| index := i; before := prev; rest := s |}
         | S _ => None
         end)
  with
  | Some len =>
      (i, firstn len s) ::
      match s with
      | [] => []
      | c :: s' => scan_matches r (N.succ i) (Some c) s' (pred len)
      end
  | None =>
      match s with
      | [] => []
      | c :: s' => scan_matches r (N.succ i) (Some c) s' (pred skip)
      end
  end.

End Matcher.

(** *** Pattern texts

    The reader of the pattern syntax the catalog is written in:
    alternation, sequences, groups, classes with ranges, the escapes
    [\b \d \s \t \n \r] and escaped punctuation, [.], and the quantifiers
    [? + * {n} {n,} {n,m}]. Anything else is refused. *)

Definition is_alnum (c : char) : bool :=
  in_range (ch "a") (ch "z") c || in_range (ch "A") (ch "Z") c || is_digit c.

(** [\t \n \r] *)
Definition control_escape (e : char) : option char :=
  if char_eqb e (ch "t") then Some 9%N
  else if char_eqb e (ch "n") then Some 10%N
  else if char_eqb e (ch "r") then Some 13%N
  else None.

Fixpoint read_digits (s : str) (acc : option nat) : option nat * str :=
  match s with
  | c :: s' =>
      if is_digit c
      then read_digits s'
             (Some (10 * match acc with Some a => a | None => 0 end
                    + N.to_nat (c - ch "0")))
      else (acc, s)
  | [] => (acc, s)
  end.

(** The atoms of a class, after its opening bracket. *)
Fixpoint parse_class (fuel : nat) (s : str) : option (list ClassAtom * str) :=
  match fuel with
  | 0 => None
  | S fuel' =>
      let more (a : ClassAtom) (s' : str) :=
        match parse_class fuel' s' with
        | Some (l, s'') => Some (a :: l, s'')
        | None => None
        end in
      let after_char (c : char) (s' : str) :=
        match s' with
        | d :: hi :: s'' =>
            if char_eqb d (ch "-") && negb (char_eqb hi (ch "]"))
            then if char_eqb hi (ch "\") then None else more (CRange c hi) s''
            else more (CChar c) s'
        | _ => more (CChar c) s'
        end in
      match s with
      | [] => None
      | c :: s1 =>
          if char_eqb c (ch "]") then Some ([], s1)
          else if char_eqb c (ch "\") then
            match s1 with
            | [] => None
            | e :: s2 =>
                if char_eqb e (ch "d") then more CDigit s2
                else if char_eqb e (ch "s") then more CSpace s2
                else match control_escape e with
                     | Some c' => after_char c' s2
                     | None => if is_alnum e then None else after_char e s2
                     end
            end
          else after_char c s1
      end
  end.

(** A quantifier, if one follows: its bounds and the text after it. *)
Definition parse_quantifier (s : str) : option (option (nat * option nat) * str) :=
  let greedy (q : nat * option nat) (s' : str) :=
    match s' with
    | c :: _ => if char_eqb c (ch "?") then None else Some (Some q, s')
    | [] => Some (Some q, s')
    end in
  match s with
  | c :: s1 =>
      if char_eqb c (ch "?") then greedy (0, Some 1) s1
      else if char_eqb c (ch "+") then greedy (1, None) s1
      else if char_eqb c (ch "*") then greedy (0, None) s1
      else if char_eqb c (ch "{") then
        match read_digits s1 None with
        | (Some n, d :: s2) =>
            if char_eqb d (ch "}") then greedy (n, Some n) s2
            else if char_eqb d (ch ",") then
              match read_digits s2 None with
              | (None, e :: s3) =>
                  if char_eqb e (ch "}") then greedy (n, None) s3 else None
              | (Some m, e :: s3) =>
                  if char_eqb e (ch "}") && (n <=? m) then greedy (n, Some m) s3
                  else None
              | _ => None
              end
            else None
        | _ => None
        end
      else Some (None, s)
  | [] => Some (None, s)
  end.

Section Reader.

(** The reader of a whole disjunction, for the groups. *)
Variable disjunction : str -> option (re * str).

Definition parse_atom (s : str) : option (re * str) :=
  match s with
  | [] => None
  | c :: s1 =>
      if char_eqb c (ch ".") then Some (Dot, s1)
      else if char_eqb c (ch "\") then
        match s1 with
        | [] => None
        | e :: s2 =>
            if char_eqb e (ch "d") then Some (Digit, s2)
            else if char_eqb e (ch "s") then Some (Space, s2)
            else match control_escape e with
                 | Some c' => Some (Char c', s2)
                 | None => if is_alnum e then None else Some (Char e, s2)
                 end
        end
      else if char_eqb c (ch "[") then
        match s1 with
        | e :: _ =>
            if char_eqb e (ch "^") then None
            else match parse_class (S (length s1)) s1 with
                 | Some (atoms, s2) => Some (Class atoms, s2)
                 | None => None
                 end
        | [] => None
        end
      else if char_eqb c (ch "(") then
        let body :=
          match s1 with
          | q :: x :: s2 =>
              if char_eqb q (ch "?")
              then if char_eqb x (ch ":") then Some s2 else None
              else Some s1
          | _ => Some s1
          end in
        match body with
        | None => None
        | Some s2 =>
            match disjunction s2 with
            | Some (r, e :: s3) =>
                if char_eqb e (ch ")") then Some (Group r, s3) else None
            | _ => None
            end
        end
      else if existsb (char_eqb c) (lit "*+?{}]^$") then None
      else Some (Char c, s1)
  end.

Definition parse_term (s : str) : option (re * str) :=
  match s with
  | b :: e :: s2 =>
      if char_eqb b (ch "\") && char_eqb e (ch "b") then Some (WordB, s2)
      else
        match parse_atom s with
        | None => None
        | Some (a, s1) =>
            match parse_quantifier s1 with
            | None => None
            | Some (None, s') => Some (a, s')
            | Some (Some (n, m), s') => Some (Quant n m a, s')
            end
        end
  | _ =>
      match parse_atom s with
      | None => None
      | Some (a, s1) =>
          match parse_quantifier s1 with
          | None => None
          | Some (None, s') => Some (a, s')
          | Some (Some (n, m), s') => Some (Quant n m a, s')
          end
      end
  end.

(** The terms up to the next [|] or [)] or the end. *)
Fixpoint parse_alternative (fuel : nat) (s : str) : option (re * str) :=
  match fuel with
  | 0 => None
  | S fuel' =>
      match s with
      | [] => Some (Empty, [])
      | c :: _ =>
          if char_eqb c (ch "|") || char_eqb c (ch ")") then Some (Empty, s)
          else
            match parse_term s with
            | None => None
            | Some (t, s1) =>
                match parse_alternative fuel' s1 with
                | Some (r, s2) => Some (Seq t r, s2)
                | None => None
                end
            end
      end
  end.

End Reader.

Fixpoint parse_disjunction (fuel : nat) (s : str) : option (re * str) :=
  match fuel with
  | 0 => None
  | S fuel' =>
      match parse_alternative (parse_disjunction fuel') (S (length s)) s with
      | None => None
      | Some (a, c :: s2) =>
          if char_eqb c (ch "|")
          then match parse_disjunction fuel' s2 with
               | Some (b, s3) => Some (Alt a b, s3)
               | None => None
               end
          else Some (a, c :: s2)
      | Some (a, []) => Some (a, [])
      end
  end.

Definition RegExp_parse (text : str) : option re :=
  match parse_disjunction (S (length text)) text with
  | Some (r, []) => Some r
  | _ => None
  end.

(** *** Regular-expression objects *)

(** The pattern text ([source]), the flags [g] and [i], and the mutable
    [lastIndex]. *)
Record RegExp : Type := mkRegExp {
  source : str;
  global : bool;
  ignoreCase : bool;
  lastIndex : N
}.

(** A regular-expression literal [/text/flags]. *)
Definition regex (text flags : string) : RegExp :=
  {| source := lit text;
     global := existsb (char_eqb (ch "g")) (lit flags);
     ignoreCase := existsb (char_eqb (ch "i")) (lit flags);
     lastIndex := 0 |}.

(** The pattern of the object. A text the reader refuses stands for a
    pattern that matches nothing; [catalog_compiles] below shows that
    no pattern of the catalog is refused. *)
Definition compiled (R : RegExp) : re :=
  match RegExp_parse (source R) with
  | Some r => r
  | None => Class []
  end.

Definition set_lastIndex (R : RegExp) (i : N) : RegExp :=
  {| source := source R; global := global R; ignoreCase := ignoreCase R;
     lastIndex := i |}.

(** [R.exec(S)]: the search starts at [lastIndex] when [g] is set and at
    0 otherwise; only a [g] expression has its [lastIndex] written. *)
Definition RegExp_exec (R : RegExp) (S : str) : option (N * str) * RegExp :=
  let from := if global R then lastIndex R else 0%N in
  match first_match (ignoreCase R) (compiled R) 0 None S (N.to_nat from) with
  | Some (i, text) =>
      (Some (i, text),
       if global R then set_lastIndex R (i + N.of_nat (length text)) else R)
  | None => (None, if global R then set_lastIndex R 0 else R)
  end.

(** [R.test(S)] *)
Definition RegExp_test (R : RegExp) (S : str) : bool * RegExp :=
  match RegExp_exec R S with
  | (Some _, R') => (true, R')
  | (None, R') => (false, R')
  end.

(** [S.matchAll(R)]: a TypeError without [g]; otherwise the matches of a
    private copy of [R] that starts at [R]'s [lastIndex]. [R] itself is
    neither searched nor written. The result lists each match's text
    (element 0 of the match array). *)
Definition String_matchAll (S : str) (R : RegExp) : Exn (list str) :=
  if global R
  then ret (map snd (scan_matches (ignoreCase R) (compiled R) 0 None S
                       (N.to_nat (lastIndex R))))
  else throw TypeError.

(** [S.split(R)]: the splitter is a private sticky copy of [R], so [R]
    is neither read nor written. [cur] holds, reversed, the units of the
    piece being collected; [skip] counts the units of a separator still
    to drop. A separator that is empty at the start of a piece does not
    split. *)
Fixpoint split_loop (ic : bool) (r : re) (i : N) (prev : option char)
    (s : str) (cur : str) (skip : nat) : list str :=
  match s with
  | [] => [rev cur]
  | c :: s' =>
      match skip with
      | S k => split_loop ic r (N.succ i) (Some c) s' cur k
      | 0 =>
          match match_here ic r {| index := i; before := prev; rest := s |} with
          | Some 0 =>
              match cur with
              | [] => split_loop ic r (N.succ i) (Some c) s' [c] 0
              | _ :: _ => rev cur :: split_loop ic r (N.succ i) (Some c) s' [c] 0
              end
          | Some (S k) => rev cur :: split_loop ic r (N.succ i) (Some c) s' [] k
          | None => split_loop ic r (N.succ i) (Some c) s' (c :: cur) 0
          end
      end
  end.

Definition String_split_re (S : str) (R : RegExp) : list str :=
  match S with
  | [] =>
      match match_here (ignoreCase R) (compiled R) (start_of []) with
      | Some _ => []
      | None => [[]]
      end
  | _ :: _ => split_loop (ignoreCase R) (compiled R) 0 None S [] 0
  end.

(* ================================================================== *)
(** ** The pattern catalog ([src/patterns.ts]) *)

Record PiiPattern : Type := mkPiiPattern {
  name : str;
  description : str;
  risk : RiskLevel;
  pattern : RegExp
}.

Definition PII_PATTERNS : list PiiPattern :=
  [ {| name := lit "Email Address";
       description := lit "Standard email address format";
       risk := HIGH;
       pattern := regex "\b[a-zA-Z0-9._%+\-]+@[a-zA-Z0-9.\-]+\.[a-zA-Z]{2,}\b" "g" |};
    {| name := lit "SSN (US Social Security Number)";
       description := lit "9-digit US SSN with or without dashes";
       risk := HIGH;
       pattern := regex "\b\d{3}[-\s]?\d{2}[-\s]?\d{4}\b" "g" |};
    {| name := lit "Credit / Debit Card Number";
       description :=
         lit "13" ++ [8211%N]
         ++ lit "19 digit card numbers (Visa, MC, Amex, Discover patterns)";
       risk := HIGH;
       pattern := regex "\b(?:4\d{12}(?:\d{3})?|5[1-5]\d{14}|3[47]\d{13}|6(?:011|5\d{2})\d{12}|\d{13,19})\b" "g" |};
    {| name := lit "US Phone Number";
       description := lit "US phone numbers in common formats";
       risk := HIGH;
       pattern := regex "\b(?:\+1[-.\s]?)?\(?\d{3}\)?[-.\s]?\d{3}[-.\s]?\d{4}\b" "g" |};
    {| name := lit "IPv4 Address";
       description := lit "IPv4 addresses (may indicate server logs or tracking data)";
       risk := MEDIUM;
       pattern := regex "\b(?:(?:25[0-5]|2[0-4]\d|[01]?\d\d?)\.){3}(?:25[0-5]|2[0-4]\d|[01]?\d\d?)\b" "g" |};
    {| name := lit "US ZIP Code";
       description := lit "5-digit or ZIP+4 format";
       risk := LOW;
       pattern := regex "\b\d{5}(?:-\d{4})?\b" "g" |};
    {| name := lit "Date of Birth Pattern";
       description := lit "Common date formats often used in DOB fields";
       risk := MEDIUM;
       pattern := regex "\b(?:0?[1-9]|1[0-2])[-\/](?:0?[1-9]|[12]\d|3[01])[-\/](?:19|20)\d{2}\b" "g" |};
    {| name := lit "Street Address";
       description := lit "Common US street address patterns";
       risk := MEDIUM;
       pattern := regex "\b\d{1,5}\s+[A-Za-z0-9\s]{3,30}(?:St|Ave|Blvd|Dr|Rd|Ln|Way|Ct|Pl|Ter)\b\.?" "gi" |};
    {| name := lit "Passport / ID Number";
       description := lit "Common passport number formats (letter + digits)";
       risk := HIGH;
       pattern := regex "\b[A-Z]{1,2}\d{6,9}\b" "g" |};
    {| name := lit "Bank Routing Number (ABA)";
       description := lit "9-digit US bank routing numbers";
       risk := HIGH;
       pattern := regex "\b\d{9}\b" "g" |} ].

(** An entry of [SUSPICIOUS_COLUMN_NAMES]: [{ pattern, risk, label }]. *)
Record ColumnNameRule : Type := mkColumnNameRule {
  rule_pattern : RegExp;
  rule_risk : RiskLevel;
  label : str
}.

Definition rule (text flags : string) (r : RiskLevel) (l : string) : ColumnNameRule :=
  {| rule_pattern := regex text flags; rule_risk := r; label := lit l |}.

Definition SUSPICIOUS_COLUMN_NAMES : list ColumnNameRule :=
  [ rule "\b(email|e_mail|email_addr)\b" "i" HIGH "Email column";
    rule "\b(ssn|social_security|social.security)\b" "i" HIGH "SSN column";
    rule "\b(phone|mobile|cell|telephone|tel)\b" "i" HIGH "Phone column";
    rule "\b(dob|date_of_birth|birth_date|birthdate)\b" "i" HIGH "Date of birth column";
    rule "\b(first.?name|last.?name|full.?name|fname|lname)\b" "i" HIGH "Name column";
    rule "\b(address|street|city|zip|postal)\b" "i" MEDIUM "Address column";
    rule "\b(ip.?addr|ip_address|ipv4|ipv6)\b" "i" MEDIUM "IP address column";
    rule "\b(passport|license|driver.?lic|dl_number)\b" "i" HIGH "ID document column";
    rule "\b(credit.?card|card.?num|cc_num|cvv|expiry)\b" "i" HIGH "Payment card column";
    rule "\b(account.?num|bank.?account|routing)\b" "i" HIGH "Bank account column";
    rule "\b(gender|sex|race|ethnicity|religion|nationality)\b" "i" MEDIUM "Sensitive demographic column";
    rule "\b(salary|income|wage|compensation)\b" "i" MEDIUM "Financial column";
    rule "\b(diagnosis|condition|medication|health|medical|patient)\b" "i" HIGH "Health data column" ].

(* ================================================================== *)
(** ** Plain objects

    An object's own enumerable string-keyed properties, in the order
    [Object.keys], [Object.values] and [Object.entries] list them: the
    keys that are array indices first, in ascending numeric order, then
    the other keys in the order they were created. *)

Definition Props (V : Type) : Type := list (str * V).

(** A column table: [Record<string, string[]>]. *)
Definition Table : Type := Props (list str).

(** The value of a canonical numeric key in [0 .. 2^32 - 2]. *)
Definition array_index (k : str) : option N :=
  match k with
  | [] => None
  | c :: k' =>
      if forallb is_digit k
         && (negb (char_eqb c (ch "0")) || match k' with [] => true | _ => false end)
         && (length k <=? 10)%nat
      then
        let n := fold_left (fun a d => (10 * a + (d - ch "0"))%N) k 0%N in
        if (n <=? 4294967294)%N then Some n else None
      else None
  end.

Section Props.

Variable V : Type.

Definition has_own (k : str) (o : Props V) : bool :=
  existsb (fun e => str_eqb (fst e) k) o.

Fixpoint get_own (k : str) (o : Props V) : option V :=
  match o with
  | [] => None
  | (k', v) :: o' => if str_eqb k' k then Some v else get_own k o'
  end.

Fixpoint replace_own (k : str) (v : V) (o : Props V) : Props V :=
  match o with
  | [] => []
  | (k', v') :: o' =>
      if str_eqb k' k then (k', v) :: o' else (k', v') :: replace_own k v o'
  end.

(** Where a new index key goes: after the smaller indices. *)
Fixpoint insert_index (n : N) (k : str) (v : V) (o : Props V) : Props V :=
  match o with
  | [] => [(k, v)]
  | (k', v') :: o' =>
      match array_index k' with
      | Some n' =>
          if (n' <? n)%N then (k', v') :: insert_index n k v o'
          else (k, v) :: o
      | None => (k, v) :: o
      end
  end.

(** Define or overwrite the own property [k]. *)
Definition define_own (k : str) (v : V) (o : Props V) : Props V :=
  if has_own k o then replace_own k v o
  else match array_index k with
       | Some n => insert_index n k v o
       | None => o ++ [(k, v)]
       end.

End Props.

(** [Object.keys(o)], [Object.values(o)] *)
Definition Object_keys {V : Type} (o : Props V) : list str := map fst o.
Definition Object_values {V : Type} (o : Props V) : list V := map snd o.

Definition PROTO : str := lit "__proto__".

(** The names every object literal inherits from [Object.prototype]. *)
Definition Object_prototype_names : list str :=
  map lit [ "constructor"; "__defineGetter__"; "__defineSetter__";
            "hasOwnProperty"; "__lookupGetter__"; "__lookupSetter__";
            "isPrototypeOf"; "propertyIsEnumerable"; "toString"; "valueOf";
            "__proto__"; "toLocaleString" ]%string.

(** The [columns] object of [parseCSV]: its own properties and, once
    [columns["__proto__"] = []] has run the inherited setter, the array
    that became its prototype. *)
Record Columns : Type := mkColumns {
  own : Table;
  proto_array : option (list str)
}.

Definition empty_object : Columns := {| own := []; proto_array := None |}.

(** [columns[h] = []]. Writing ["__proto__"] replaces the prototype and
    creates no property; any other key becomes an own property, also
    one that shadows an inherited name. *)
Definition assign_empty (h : str) (o : Columns) : Columns :=
  if str_eqb h PROTO
  then {| own := own o; proto_array := Some [] |}
  else {| own := define_own h [] (own o); proto_array := proto_array o |}.

(** [columns[h].push(v)]. Reading ["__proto__"] gives the prototype;
    a key that is not an own property reads as [undefined] or as an
    inherited value without a [push] method, and the call throws. *)
Definition push_to (h v : str) (o : Columns) : Exn Columns :=
  if str_eqb h PROTO then
    match proto_array o with
    | Some l => ret {| own := own o; proto_array := Some (l ++ [v]) |}
    | None => throw TypeError
    end
  else
    match get_own h (own o) with
    | Some l => ret {| own := replace_own h (l ++ [v]) (own o);
                       proto_array := proto_array o |}
    | None => throw TypeError
    end.

Fixpoint foldM {A B : Type} (f : A -> B -> Exn A) (l : list B) (a : A) : Exn A :=
  match l with
  | [] => ret a
  | b :: l' => a' <- f a b ;; foldM f l' a'
  end.

(* ================================================================== *)
(** ** CSV normalization *)

(** The closure [splitLine] of [parseCSV]; the loop state is
    [(result, current, inQuote)]. *)
Definition splitLine_step (st : list str * str * bool) (c : char)
    : list str * str * bool :=
  let '(result, current, inQuote) := st in
  if char_eqb c DQUOTE then (result, current, negb inQuote)
  else if char_eqb c COMMA && negb inQuote
       then (result ++ [String_trim current], [], inQuote)
       else (result, current ++ [c], inQuote).

Definition splitLine (line : str) : list str :=
  let '(result, current, _) := fold_left splitLine_step line ([], [], false) in
  result ++ [String_trim current].

(** A string used as a condition: true unless empty. *)
Definition String_truthy (s : str) : bool :=
  match s with
  | [] => false
  | _ :: _ => true
  end.

(** [content.split(/\r?\n/).filter((l) => l.trim())] *)
Definition csv_lines (content : str) : list str :=
  filter (fun l => String_truthy (String_trim l))
         (String_split_re content (regex "\r?\n" "")).

(** The body of [headers.forEach((h, idx) => ...)] from index [idx] on. *)
Fixpoint push_row (values : list str) (idx : nat) (headers : list str)
    (columns : Columns) : Exn Columns :=
  match headers with
  | [] => ret columns
  | h :: headers' =>
      columns' <- match nth_error values idx with
                  | Some v => push_to h v columns
                  | None => ret columns
                  end ;;
      push_row values (S idx) headers' columns'
  end.

Definition parseCSV (content : str) : Exn Table :=
  match csv_lines content with
  | [] => ret []
  | header :: data =>
      let headers := splitLine header in
      let columns := fold_left (fun o h => assign_empty h o) headers empty_object in
      columns' <- foldM (fun o line => push_row (splitLine line) 0 headers o)
                        data columns ;;
      ret (own columns')
  end.

(* ================================================================== *)
(** ** JSON values and [JSON.parse] *)

(** A parsed JSON value. A number keeps its lexeme: what double it
    denotes, and how that double prints, is left to the two functions
    [parseJSON] takes. An object keeps its members as written; the
    properties they create are [object_props]. *)
#[warnings="-register-all"]
Inductive JSON : Type :=
| JNull
| JBool (b : bool)
| JNumber (lexeme : str)
| JString (s : str)
| JArray (elements : list JSON)
| JObject (members : list (str * JSON)).

Definition is_json_ws (c : char) : bool :=
  ((c =? 32) || (c =? 9) || (c =? 10) || (c =? 13))%N.

Fixpoint skip_ws (s : str) : str :=
  match s with
  | c :: s' => if is_json_ws c then skip_ws s' else s
  | [] => []
  end.

Definition hex_value (c : char) : option N :=
  if is_digit c then Some (c - ch "0")%N
  else if in_range (ch "a") (ch "f") c then Some (c - ch "a" + 10)%N
  else if in_range (ch "A") (ch "F") c then Some (c - ch "A" + 10)%N
  else None.

(** The units of a string literal after its opening quote. *)
Fixpoint read_string (s : str) (acc : str) : option (str * str) :=
  match s with
  | [] => None
  | c :: s1 =>
      if char_eqb c DQUOTE then Some (rev acc, s1)
      else if char_eqb c (ch "\") then
        match s1 with
        | [] => None
        | e :: s2 =>
            if char_eqb e (ch "u") then
              match s2 with
              | h1 :: h2 :: h3 :: h4 :: s3 =>
                  match hex_value h1, hex_value h2, hex_value h3, hex_value h4 with
                  | Some a, Some b, Some c', Some d =>
                      read_string s3 ((((a * 16 + b) * 16 + c') * 16 + d)%N :: acc)
                  | _, _, _, _ => None
                  end
              | _ => None
              end
            else if char_eqb e DQUOTE || char_eqb e (ch "\") || char_eqb e (ch "/")
            then read_string s2 (e :: acc)
            else if char_eqb e (ch "b") then read_string s2 (8%N :: acc)
            else if char_eqb e (ch "f") then read_string s2 (12%N :: acc)
            else if char_eqb e (ch "n") then read_string s2 (10%N :: acc)
            else if char_eqb e (ch "r") then read_string s2 (13%N :: acc)
            else if char_eqb e (ch "t") then read_string s2 (9%N :: acc)
            else None
        end
      else if (c <? 32)%N then None
      else read_string s1 (c :: acc)
  end.

Fixpoint take_digits (s : str) : str * str :=
  match s with
  | c :: s' =>
      if is_digit c then let (d, r) := take_digits s' in (c :: d, r) else ([], s)
  | [] => ([], [])
  end.

(** The parts of a number, each with the text after it: an optional
    minus sign; [0], or a digit [1..9] and more digits; optionally a
    point and one or more digits; optionally [e] or [E], a sign and one
    or more digits. *)
Definition read_sign (s : str) : str * str :=
  match s with
  | c :: s' => if char_eqb c (ch "-") then ([c], s') else ([], s)
  | [] => ([], s)
  end.

Definition read_int (s : str) : option (str * str) :=
  match s with
  | c :: s' =>
      if char_eqb c (ch "0") then Some ([c], s')
      else if is_digit c then Some (take_digits s)
      else None
  | [] => None
  end.

Definition read_frac (s : str) : option (str * str) :=
  match s with
  | c :: s' =>
      if char_eqb c (ch ".") then
        match take_digits s' with
        | ([], _) => None
        | (d, r) => Some (c :: d, r)
        end
      else Some ([], s)
  | [] => Some ([], s)
  end.

Definition read_exp_sign (s : str) : str * str :=
  match s with
  | g :: t =>
      if char_eqb g (ch "+") || char_eqb g (ch "-") then ([g], t) else ([], s)
  | [] => ([], s)
  end.

Definition read_exp (s : str) : option (str * str) :=
  match s with
  | c :: s' =>
      if char_eqb c (ch "e") || char_eqb c (ch "E") then
        let (sg, s'') := read_exp_sign s' in
        match take_digits s'' with
        | ([], _) => None
        | (d, r) => Some (c :: sg ++ d, r)
        end
      else Some ([], s)
  | [] => Some ([], s)
  end.

(** A number; the result is its lexeme. *)
Definition read_number (s : str) : option (str * str) :=
  let (sign, s1) := read_sign s in
  match read_int s1 with
  | None => None
  | Some (int, s2) =>
      match read_frac s2 with
      | None => None
      | Some (fr, s3) =>
          match read_exp s3 with
          | None => None
          | Some (ex, s4) => Some (sign ++ int ++ fr ++ ex, s4)
          end
      end
  end.

(** The literal [w] at the head of [s]. *)
Fixpoint expect (w s : str) : option str :=
  match w, s with
  | [], _ => Some s
  | a :: w', c :: s' => if char_eqb a c then expect w' s' else None
  | _ :: _, [] => None
  end.

(** The three readers take the same [fuel]. A reading that succeeds
    needs no more than twice the units it consumes ([read_fuel] below),
    so the fuel [JSON_parse] gives never makes a text fail. *)
Fixpoint read_value (fuel : nat) (s : str) : option (JSON * str) :=
  match fuel with
  | 0 => None
  | S fuel' =>
      match skip_ws s with
      | [] => None
      | c :: s1 =>
          if char_eqb c (ch "{") then
            match skip_ws s1 with
            | d :: s2 =>
                if char_eqb d (ch "}") then Some (JObject [], s2)
                else match read_members fuel' (d :: s2) with
                     | Some (ms, s3) => Some (JObject ms, s3)
                     | None => None
                     end
            | [] => None
            end
          else if char_eqb c (ch "[") then
            match skip_ws s1 with
            | d :: s2 =>
                if char_eqb d (ch "]") then Some (JArray [], s2)
                else match read_elements fuel' (d :: s2) with
                     | Some (vs, s3) => Some (JArray vs, s3)
                     | None => None
                     end
            | [] => None
            end
          else if char_eqb c DQUOTE then
            match read_string s1 [] with
            | Some (t, s2) => Some (JString t, s2)
            | None => None
            end
          else if char_eqb c (ch "t") then
            option_map (fun r => (JBool true, r)) (expect (lit "rue") s1)
          else if char_eqb c (ch "f") then
            option_map (fun r => (JBool false, r)) (expect (lit "alse") s1)
          else if char_eqb c (ch "n") then
            option_map (fun r => (JNull, r)) (expect (lit "ull") s1)
          else
            match read_number (c :: s1) with
            | Some (x, s2) => Some (JNumber x, s2)
            | None => None
            end
      end
  end

(** The elements of an array after its opening bracket, up to and
    including the closing one. *)
with read_elements (fuel : nat) (s : str) : option (list JSON * str) :=
  match fuel with
  | 0 => None
  | S fuel' =>
      match read_value fuel' s with
      | None => None
      | Some (v, s1) =>
          match skip_ws s1 with
          | c :: s2 =>
              if char_eqb c (ch ",") then
                match read_elements fuel' s2 with
                | Some (vs, s3) => Some (v :: vs, s3)
                | None => None
                end
              else if char_eqb c (ch "]") then Some ([v], s2)
              else None
          | [] => None
          end
      end
  end

(** The members of an object after its opening brace, up to and
    including the closing one. *)
with read_members (fuel : nat) (s : str) : option (list (str * JSON) * str) :=
  match fuel with
  | 0 => None
  | S fuel' =>
      match skip_ws s with
      | q :: s1 =>
          if char_eqb q DQUOTE then
            match read_string s1 [] with
            | None => None
            | Some (k, s2) =>
                match skip_ws s2 with
                | c :: s3 =>
                    if char_eqb c (ch ":") then
                      match read_value fuel' s3 with
                      | None => None
                      | Some (v, s4) =>
                          match skip_ws s4 with
                          | d :: s5 =>
                              if char_eqb d (ch ",") then
                                match read_members fuel' s5 with
                                | Some (ms, s6) => Some ((k, v) :: ms, s6)
                                | None => None
                                end
                              else if char_eqb d (ch "}") then Some ([(k, v)], s5)
                              else None
                          | [] => None
                          end
                      end
                    else None
                | [] => None
                end
            end
          else None
      | [] => None
      end
  end.

(** [JSON.parse(text)]: the value, or a SyntaxError. *)
Definition JSON_parse (text : str) : Exn JSON :=
  match read_value (2 * length text + 2) text with
  | Some (v, s') =>
      match skip_ws s' with
      | [] => ret v
      | _ :: _ => throw SyntaxError
      end
  | None => throw SyntaxError
  end.

(* ================================================================== *)
(** ** JSON normalization *)

(** The own properties of the object [JSON.parse] builds from the
    members: a repeated key keeps its first place and its last value. *)
Definition object_props (members : list (str * JSON)) : Props JSON :=
  fold_left (fun o m => define_own (fst m) (snd m) o) members [].

(** The elements of an array, or the units of a string, under their
    index keys. *)
Definition indexed {V : Type} (l : list V) : Props V :=
  combine (map Number_show (seq 0 (length l))) l.

(** [Object.entries(row)]; [null] has no object form. *)
Definition Object_entries (row : JSON) : Exn (Props JSON) :=
  match row with
  | JNull => throw TypeError
  | JObject ms => ret (object_props ms)
  | JArray l => ret (indexed l)
  | JString s => ret (indexed (map (fun c => JString [c]) s))
  | JBool _ | JNumber _ => ret []
  end.

(** [v.k] for a key no prototype defines ([data], [rows], and on an
    object [length] and [0]); [None] is [undefined]. *)
Definition property (v : JSON) (k : str) : option JSON :=
  match v with
  | JObject ms => get_own k (object_props ms)
  | _ => None
  end.

(** The left operand of [??] when it is neither [null] nor [undefined]. *)
Definition non_nullish (v : option JSON) : option JSON :=
  match v with
  | Some JNull | None => None
  | Some x => Some x
  end.

(** [Array.isArray(data) ? data : data.data ?? data.rows ?? [data]] *)
Definition resolve_rows (data : JSON) : Exn JSON :=
  match data with
  | JArray _ => ret data
  | JNull => throw TypeError
  | _ =>
      match non_nullish (property data (lit "data")) with
      | Some v => ret v
      | None =>
          match non_nullish (property data (lit "rows")) with
          | Some v => ret v
          | None => ret (JArray [data])
          end
      end
  end.

(** [rows[0]] *)
Definition first_row (rows : JSON) : option JSON :=
  match rows with
  | JArray l => hd_error l
  | JString (c :: _) => Some (JString [c])
  | JObject _ => property rows (lit "0")
  | _ => None
  end.

(** [typeof v === "object"]: objects, arrays and [null]. *)
Definition typeof_object (v : option JSON) : bool :=
  match v with
  | Some JNull | Some (JArray _) | Some (JObject _) => true
  | _ => false
  end.

Section JSONNormalizer.

(** How the number a lexeme denotes prints, and whether it is neither
    zero nor NaN. *)
Variable Number_toString : str -> str.
Variable Number_truthy : str -> bool.

Definition truthy (v : option JSON) : bool :=
  match v with
  | None | Some JNull => false
  | Some (JBool b) => b
  | Some (JNumber x) => Number_truthy x
  | Some (JString s) => match s with [] => false | _ => true end
  | Some (JArray _) | Some (JObject _) => true
  end.

(** The truth value of [rows.length]. *)
Definition length_truthy (rows : JSON) : Exn bool :=
  match rows with
  | JNull => throw TypeError
  | JArray l => ret (match l with [] => false | _ => true end)
  | JString s => ret (match s with [] => false | _ => true end)
  | JObject _ => ret (truthy (property rows (lit "length")))
  | JBool _ | JNumber _ => ret false
  end.

(** [String(v)]. An array joins its elements, [null] ones as empty;
    an object prints through the inherited [toString] unless a member
    of that name hides it, and then the conversion throws. *)
Fixpoint String_of (v : JSON) : Exn str :=
  match v with
  | JNull => ret (lit "null")
  | JBool true => ret (lit "true")
  | JBool false => ret (lit "false")
  | JNumber x => ret (Number_toString x)
  | JString s => ret s
  | JArray l =>
      parts <- mapM (fun e => match e with
                              | JNull => ret []
                              | _ => String_of e
                              end) l ;;
      ret (Array_join parts (lit ","))
  | JObject ms =>
      if has_own (lit "toString") (object_props ms) then throw TypeError
      else ret (lit "[object Object]")
  end.

(** [String(v ?? "")] *)
Definition cell_text (v : JSON) : Exn str :=
  match v with
  | JNull => ret []
  | _ => String_of v
  end.

(** [if (!columns[k]) columns[k] = []; columns[k].push(String(v ?? ""))].
    A name inherited from [Object.prototype] reads as a truthy value
    that has no [push]. *)
Definition add_cell (columns : Table) (kv : str * JSON) : Exn Table :=
  let (k, v) := kv in
  let columns1 :=
    if has_own k columns || existsb (str_eqb k) Object_prototype_names
    then columns
    else define_own k [] columns in
  text <- cell_text v ;;
  match get_own k columns1 with
  | Some l => ret (replace_own k (l ++ [text]) columns1)
  | None => throw TypeError
  end.

Definition parseJSON (content : str) : Exn Table :=
  data <- JSON_parse content ;;
  rows <- resolve_rows data ;;
  nonempty <- length_truthy rows ;;
  if negb nonempty || negb (typeof_object (first_row rows)) then ret []
  else
    match rows with
    | JArray l =>
        foldM (fun columns row =>
                 entries <- Object_entries row ;;
                 foldM add_cell entries columns)
              l []
    | _ => throw TypeError
    end.

End JSONNormalizer.

(* ================================================================== *)
(** ** The scan engine *)

Inductive FindingSource : Type := content_source | column_name.

Record ColumnFinding : Type := mkColumnFinding {
  column : str;
  patternName : str;
  finding_risk : RiskLevel;
  matchCount : nat;
  sampleValues : list str;
  finding_source : FindingSource
}.

Record ScanResult : Type := mkScanResult {
  file : str;
  rowsScanned : nat;
  columnsScanned : nat;
  findings : list ColumnFinding;
  overallRisk : RiskLevel;
  summary : str
}.

(** The two exported arrays of [patterns.ts], whose regular-expression
    objects are the only mutable state the engine can reach. *)
Record Catalog : Type := mkCatalog {
  piiPatterns : list PiiPattern;
  columnNameRules : list ColumnNameRule
}.

Definition catalog0 : Catalog :=
  {| piiPatterns := PII_PATTERNS; columnNameRules := SUSPICIOUS_COLUMN_NAMES |}.

(** 1. Column name heuristic: the loop over the rules with its [break].
    Returns the finding, if any, and the rules with the expressions
    as [test] left them. *)
Fixpoint name_pass (rules : list ColumnNameRule) (col : str) (values : list str)
    : list ColumnFinding * list ColumnNameRule :=
  match rules with
  | [] => ([], [])
  | r :: rest =>
      let (hit, R') := RegExp_test (rule_pattern r) col in
      let r' := {| rule_pattern := R'; rule_risk := rule_risk r; label := label r |} in
      if hit then
        ([ {| column := col;
              patternName := label r;
              finding_risk := rule_risk r;
              matchCount := length values;
              sampleValues := [];
              finding_source := column_name |} ],
         r' :: rest)
      else
        let (found, rest') := name_pass rest col values in
        (found, r' :: rest')
  end.

(** 2. Content scanning, for one pattern. *)
Definition content_finding (col : str) (sample : str) (piiPattern : PiiPattern)
    : Exn (list ColumnFinding) :=
  matches <- String_matchAll sample (pattern piiPattern) ;;
  if (0 <? length matches)%nat then
    samples <- mapM redact (Array_take 3 matches) ;;
    ret [ {| column := col;
             patternName := name piiPattern;
             finding_risk := risk piiPattern;
             matchCount := length matches;
             sampleValues := samples;
             finding_source := content_source |} ]
  else ret [].

(** [values.slice(0, 200).join("\n")] *)
Definition sample_of (values : list str) : str :=
  Array_join (Array_take 200 values) [LF].

Definition content_pass (patterns : list PiiPattern) (col : str)
    (values : list str) : Exn (list ColumnFinding) :=
  found <- mapM (content_finding col (sample_of values)) patterns ;;
  ret (concat found).

(** The body of the loop over [Object.entries(columns)]. *)
Definition scan_column (patterns : list PiiPattern)
    (st : list ColumnFinding * list ColumnNameRule) (entry : str * list str)
    : Exn (list ColumnFinding * list ColumnNameRule) :=
  let (found, rules) := st in
  let (col, values) := entry in
  let (by_name, rules') := name_pass rules col values in
  by_content <- content_pass patterns col values ;;
  ret (found ++ by_name ++ by_content, rules').

Definition str_eq_dec : forall a b : str, {a = b} + {a <> b} :=
  list_eq_dec N.eq_dec.

Definition summary_of (found : list ColumnFinding) : str :=
  let highCount :=
    length (filter (fun f => RiskLevel_eqb (finding_risk f) HIGH) found) in
  match found with
  | [] => lit "No PII patterns detected. Review manually before use."
  | _ :: _ =>
      Number_show (length found) ++ lit " potential PII finding(s) across "
      ++ Number_show (length (nodup str_eq_dec (map column found)))
      ++ lit " column(s). "
      ++ (if (0 <? highCount)%nat
          then Number_show highCount ++ lit " HIGH risk. " else [])
      ++ lit "Do not use this dataset in lower environments without synthetic replacement."
  end.

Definition overall_of (found : list ColumnFinding) : RiskLevel :=
  match found with
  | [] => LOW
  | _ :: _ => fold_left (fun acc f => maxRisk acc (finding_risk f)) found LOW
  end.

Definition scanColumns (cat : Catalog) (columns : Table) (filePath : str)
    : Exn (ScanResult * Catalog) :=
  let totalRows :=
    fold_left (fun total values => Nat.max total (length values))
              (Object_values columns) 0 in
  st <- foldM (scan_column (piiPatterns cat)) columns ([], columnNameRules cat) ;;
  let (found, rules') := st in
  ret ({| file := filePath;
          rowsScanned := totalRows;
          columnsScanned := length (Object_keys columns);
          findings := found;
          overallRisk := overall_of found;
          summary := summary_of found |},
       {| piiPatterns := piiPatterns cat; columnNameRules := rules' |}).

Section ContentDispatch.

Variable Number_toString : str -> str.
Variable Number_truthy : str -> bool.

(** The table [scanContent] hands to [scanColumns]. *)
Definition normalize (content filePath : str) : Exn Table :=
  if String_endsWith filePath (lit ".json")
  then ret (try_catch (parseJSON Number_toString Number_truthy content)
                      [(lit "_text", String_split content LF)])
  else parseCSV content.

Definition scanContent (cat : Catalog) (content filePath : str)
    : Exn (ScanResult * Catalog) :=
  columns <- normalize content filePath ;;
  scanColumns cat columns filePath.

End ContentDispatch.

(* ================================================================== *)
(** ** Notions the properties are stated with *)

(** Every literal and every range bound of the pattern is ASCII: the
    patterns for which [canonicalize] is the whole rule of the [i]
    flag. *)
Fixpoint re_ascii (r : re) : bool :=
  match r with
  | Empty | Dot | Digit | Space | WordB => true
  | Char c => (c <? 128)%N
  | Class atoms =>
      forallb (fun a => match a with
                        | CChar c => (c <? 128)%N
                        | CRange lo hi => (lo <? 128)%N && (hi <? 128)%N
                        | CDigit | CSpace => true
                        end) atoms
  | Seq a b | Alt a b => re_ascii a && re_ascii b
  | Quant _ _ r' | Group r' => re_ascii r'
  end.

(** Every header can be pushed to: it is an own property, or it is
    ["__proto__"] and the prototype is an array. *)
Definition ready (headers : list str) (o : Columns) : Prop :=
  forall h, In h headers ->
    if str_eqb h PROTO then proto_array o <> None
    else get_own h (own o) <> None.

(** No rule's expression has the [g] flag. *)
Definition frozen (rules : list ColumnNameRule) : Prop :=
  Forall (fun r => global (rule_pattern r) = false) rules.

(** Every content pattern has the [g] flag, as [matchAll] requires. *)
Definition searchable (patterns : list PiiPattern) : Prop :=
  Forall (fun p => global (pattern p) = true) patterns.

(** The findings of one column when nothing throws. *)
Definition content_findings (patterns : list PiiPattern) (col : str)
    (values : list str) : list ColumnFinding :=
  match content_pass patterns col values with
  | inr l => l
  | inl _ => []
  end.

(** The findings of one column: by name, then by content. *)
Definition column_findings (cat : Catalog) (entry : str * list str)
    : list ColumnFinding :=
  fst (name_pass (columnNameRules cat) (fst entry) (snd entry))
  ++ content_findings (piiPatterns cat) (fst entry) (snd entry).

(** [a] is at most [b] under LOW < MEDIUM < HIGH. *)
Definition risk_le (a b : RiskLevel) : Prop :=
  match a, b with
  | LOW, _ => True
  | MEDIUM, (MEDIUM | HIGH) => True
  | HIGH, HIGH => True
  | _, _ => False
  end.

(** [m] is the greatest risk among the findings. *)
Definition greatest_risk (m : RiskLevel) (found : list ColumnFinding) : Prop :=
  Exists (fun f => finding_risk f = m) found
  /\ Forall (fun f => risk_le (finding_risk f) m) found.

(** What the specification asks of [overallRisk]. *)
Definition overallRisk_ok (r : ScanResult) : Prop :=
  (overallRisk r = LOW <->
   findings r = [] \/ Forall (fun f => finding_risk f = LOW) (findings r))
  /\ (findings r <> [] -> greatest_risk (overallRisk r) (findings r)).

(** [pattern.test(column)] for the rule. *)
Definition rule_hits (r : ColumnNameRule) (col : str) : bool :=
  fst (RegExp_test (rule_pattern r) col).

(** The finding the rule produces. *)
Definition name_finding (r : ColumnNameRule) (col : str) (values : list str)
    : ColumnFinding :=
  {| column := col;
     patternName := label r;
     finding_risk := rule_risk r;
     matchCount := length values;
     sampleValues := [];
     finding_source := column_name |}.

(** The matches of a pattern in a text ([[...text.matchAll(pattern)]]). *)
Definition matches_of (p : PiiPattern) (text : str) : list str :=
  match String_matchAll text (pattern p) with
  | inr l => l
  | inl _ => []
  end.

(** The finding is a column-name finding of the column [c]. *)
Definition by_name_of (c : str) (f : ColumnFinding) : bool :=
  str_eqb (column f) c
  && match finding_source f with
     | column_name => true
     | content_source => false
     end.

(** Matches listed from left to right, each starting at or after
    [from], none overlapping the one before it, and an empty match
    followed only by matches further right. *)
Fixpoint left_to_right (from : N) (ms : list (N * str)) : Prop :=
  match ms with
  | [] => True
  | (i, text) :: ms' =>
      (from <= i)%N
      /\ left_to_right (N.max (N.succ i) (i + N.of_nat (length text))) ms'
  end.

(** Two scans, the second started in the catalog the first left. *)
Definition scanColumns_twice (columns : Table) (filePath : str)
    : Exn (ScanResult * ScanResult * Catalog) :=
  first <- scanColumns catalog0 columns filePath ;;
  second <- scanColumns (snd first) columns filePath ;;
  ret (fst first, fst second, snd second).

(** The same for [scanContent]. *)
Definition scanContent_twice (Number_toString : str -> str)
    (Number_truthy : str -> bool) (content filePath : str)
    : Exn (ScanResult * ScanResult * Catalog) :=
  first <- scanContent Number_toString Number_truthy catalog0 content filePath ;;
  second <- scanContent Number_toString Number_truthy (snd first) content filePath ;;
  ret (fst first, fst second, snd second).

(** The line splitting of [parseCSV], said without a regular
    expression: a line ends at a line feed, and a carriage return right
    before that line feed belongs to the line ending. A carriage return
    anywhere else is an ordinary unit of the line. *)
Fixpoint lines_lf_crlf (cur : str) (s : str) : list str :=
  match s with
  | [] => [rev cur]
  | c :: s' =>
      if char_eqb c LF then rev cur :: lines_lf_crlf [] s'
      else if char_eqb c CR then
        match s' with
        | d :: s'' =>
            if char_eqb d LF then rev cur :: lines_lf_crlf [] s''
            else lines_lf_crlf (c :: cur) s'
        | [] => lines_lf_crlf (c :: cur) s'
        end
      else lines_lf_crlf (c :: cur) s'
  end.

(** The pattern [\r?\n] as the reader builds it. *)
Definition eol_re : re :=
  Seq (Quant 0 (Some 1) (Char CR)) (Seq (Char LF) Empty).

(** The fields of a line, read from left to right: a double quote
    switches between outside and inside quotes and is dropped, a comma
    outside quotes ends the field, and every other unit, among them a
    comma inside quotes, belongs to the field. *)
Fixpoint raw_fields (inQuote : bool) (line : str) : list str :=
  match line with
  | [] => [[]]
  | c :: l =>
      if char_eqb c DQUOTE then raw_fields (negb inQuote) l
      else if char_eqb c COMMA && negb inQuote then [] :: raw_fields inQuote l
      else match raw_fields inQuote l with
           | f :: fs => (c :: f) :: fs
           | [] => [[c]]
           end
  end.

(** [current] put in front of the first field. *)
Definition resume (current : str) (fs : list str) : list str :=
  match fs with
  | f :: fs' => (current ++ f) :: fs'
  | [] => [current]
  end.

(** What one data row contributes to the column named [h]: its value
    at every header position, from [idx] on, that carries that name and
    that the row reaches. *)
Fixpoint row_cells (values : list str) (idx : nat) (headers : list str) (h : str)
    : list str :=
  match headers with
  | [] => []
  | h' :: hs =>
      (if str_eqb h' h
       then match nth_error values idx with Some v => [v] | None => [] end
       else [])
      ++ row_cells values (S idx) hs h
  end.

(** Line splitting "on any line-ending convention": a line ends at a
    line feed, at a carriage return, or at the two together. *)
Fixpoint lines_any_convention (cur : str) (s : str) : list str :=
  match s with
  | [] => [rev cur]
  | c :: s' =>
      if char_eqb c LF then rev cur :: lines_any_convention [] s'
      else if char_eqb c CR then
        match s' with
        | d :: s'' =>
            if char_eqb d LF then rev cur :: lines_any_convention [] s''
            else rev cur :: lines_any_convention [] s'
        | [] => rev cur :: lines_any_convention [] s'
        end
      else lines_any_convention (c :: cur) s'
  end.

(** The fields of a line, each unit tagged with whether it stood
    inside quotes. *)
Fixpoint tagged_fields (inQuote : bool) (line : str) : list (list (char * bool)) :=
  match line with
  | [] => [[]]
  | c :: l =>
      if char_eqb c DQUOTE then tagged_fields (negb inQuote) l
      else if char_eqb c COMMA && negb inQuote then [] :: tagged_fields inQuote l
      else match tagged_fields inQuote l with
           | f :: fs => ((c, inQuote) :: f) :: fs
           | [] => [[(c, inQuote)]]
           end
  end.

(** Leading white space that stood outside quotes, dropped. *)
Fixpoint drop_unquoted_space (f : list (char * bool)) : list (char * bool) :=
  match f with
  | (c, false) :: f' => if is_whitespace c then drop_unquoted_space f' else f
  | _ => f
  end.

(** Trimming "outside quotes (and only outside quotes)". *)
Definition fields_trimmed_outside_quotes (line : str) : list str :=
  map (fun f => map fst (rev (drop_unquoted_space (rev (drop_unquoted_space f)))))
      (tagged_fields false line).

(** A string, a number or a boolean: the values whose [typeof] is not
    ["object"]. *)
Definition is_primitive (v : JSON) : Prop :=
  match v with
  | JString _ | JNumber _ | JBool _ => True
  | JNull | JArray _ | JObject _ => False
  end.

(** Neither an array nor [null]. *)
Definition is_wrappable (v : JSON) : Prop :=
  match v with
  | JArray _ | JNull => False
  | _ => True
  end.

(** What every finding of a scan of [columns] looks like: it names a
    column of the table; a column-name finding carries a rule's label
    and risk, the full length of the column and no sample; a content
    finding carries a pattern's name and risk, at least one match, and
    the redacted first three matches at most. *)
Definition finding_ok (columns : Table) (f : ColumnFinding) : Prop :=
  exists values,
    In (column f, values) columns
    /\ match finding_source f with
       | column_name =>
           sampleValues f = []
           /\ matchCount f = length values
           /\ exists r, In r SUSPICIOUS_COLUMN_NAMES
                        /\ patternName f = label r
                        /\ finding_risk f = rule_risk r
       | content_source =>
           1 <= matchCount f
           /\ length (sampleValues f) = Nat.min 3 (matchCount f)
           /\ Forall (fun s => 4 <= length s <= 12) (sampleValues f)
           /\ exists p, In p PII_PATTERNS
                        /\ patternName f = name p
                        /\ finding_risk f = risk p
       end.

(** The three counts the summary sentence prints. *)
Definition finding_count (r : ScanResult) : nat := length (findings r).

Definition flagged_columns (r : ScanResult) : nat :=
  length (nodup str_eq_dec (map column (findings r))).

Definition high_count (r : ScanResult) : nat :=
  length (filter (fun f => RiskLevel_eqb (finding_risk f) HIGH) (findings r)).

(** A field written between double quotes. *)
Definition quoted (f : str) : str := DQUOTE :: f ++ [DQUOTE].

(** What holds of every column name and every cell of a table read
    from CSV: no double quote, no line feed, no white space at
    either end. *)
Definition clean_cell (s : str) : Prop :=
  ~ In DQUOTE s /\ ~ In LF s /\ String_trim s = s.

(** The text of a cell, [String(v ?? "")], when the conversion returns. *)
Definition cell_of (Number_toString : str -> str) (v : JSON) : str :=
  match cell_text Number_toString v with
  | inr s => s
  | inl _ => []
  end.

(** A row [parseJSON] reads without failing: an object none of whose
    keys is a name inherited from [Object.prototype] and whose values
    all convert to strings. *)
Definition plain_row (Number_toString : str -> str) (row : JSON) : Prop :=
  match row with
  | JObject ms =>
      forall k v, In (k, v) (object_props ms) ->
        ~ In k Object_prototype_names
        /\ exists s, cell_text Number_toString v = inr s
  | _ => False
  end.

(** What a row gives to the column [k]: the text of its member of that
    name, and nothing when it has none. *)
Definition json_cells (Number_toString : str -> str) (k : str) (row : JSON)
    : list str :=
  match row with
  | JObject ms =>
      match get_own k (object_props ms) with
      | Some v => [cell_of Number_toString v]
      | None => []
      end
  | _ => []
  end.

(** The row is an object with a member named as a property every
    object inherits. *)
Definition has_inherited_key (row : JSON) : Prop :=
  match row with
  | JObject ms => exists k, In k (map fst ms) /\ In k Object_prototype_names
  | _ => False
  end.

(** The cells of the column [k], none when there is no such column. *)
Definition cells_of (t : Table) (k : str) : list str :=
  match get_own k t with
  | Some l => l
  | None => []
  end.

(* ================================================================== *)
(** ** What a pattern can match *)

(** The least number of units of a match. A quantifier iterates at
    least its minimum, or its maximum when that is smaller. *)
Fixpoint min_len (r : re) : nat :=
  match r with
  | Empty | WordB => 0
  | Char _ | Dot | Digit | Space | Class _ => 1
  | Seq a b => min_len a + min_len b
  | Alt a b => Nat.min (min_len a) (min_len b)
  | Quant min max r' =>
      match max with
      | Some n => Nat.min min n
      | None => min
      end * min_len r'
  | Group r' => min_len r'
  end.

(** The greatest number of units of a match; [None] when there is no
    bound. *)
Fixpoint max_len (r : re) : option nat :=
  match r with
  | Empty | WordB => Some 0
  | Char _ | Dot | Digit | Space | Class _ => Some 1
  | Seq a b =>
      match max_len a, max_len b with
      | Some x, Some y => Some (x + y)
      | _, _ => None
      end
  | Alt a b =>
      match max_len a, max_len b with
      | Some x, Some y => Some (Nat.max x y)
      | _, _ => None
      end
  | Quant _ max r' =>
      match max, max_len r' with
      | Some n, Some l => Some (n * l)
      | _, _ => None
      end
  | Group r' => max_len r'
  end.

(** Some atom of the pattern accepts the unit. *)
Fixpoint accepts (ic : bool) (r : re) (c : char) : bool :=
  match r with
  | Empty | WordB => false
  | Char x => char_matches ic x c
  | Dot => negb (is_line_terminator c)
  | Digit => is_digit c
  | Space => is_whitespace c
  | Class atoms => existsb (atom_matches ic c) atoms
  | Seq a b | Alt a b => accepts ic a c || accepts ic b c
  | Quant _ _ r' | Group r' => accepts ic r' c
  end.

(** [m] succeeds only by consuming between [lo] and [hi] units, all
    accepted by [ok], and handing the position it reached to its
    continuation: the units left, their index, and the last unit
    consumed as the unit before. *)
Definition consumes (m : pos -> Cont -> option pos) (lo : nat)
    (hi : option nat) (ok : char -> bool) : Prop :=
  forall p k e,
    m p k = Some e ->
    exists w q,
      rest p = w ++ rest q
      /\ index q = (index p + N.of_nat (length w))%N
      /\ k q = Some e
      /\ lo <= length w
      /\ (forall h, hi = Some h -> length w <= h)
      /\ forallb ok w = true
      /\ before q = last (map Some w) (before p).

(** The shape of a matched text for the pattern [r]. *)
Definition match_of (ic : bool) (r : re) (m : str) : Prop :=
  min_len r <= length m
  /\ (forall h, max_len r = Some h -> length m <= h)
  /\ forallb (accepts ic r) m = true.

(** For a content pattern: the least and greatest length of a match,
    and whether a match can hold a line feed and so run from one cell
    of the sample into the next. *)
Definition match_bounds (p : PiiPattern) : nat * option nat * bool :=
  (min_len (compiled (pattern p)), max_len (compiled (pattern p)),
   accepts (ignoreCase (pattern p)) (compiled (pattern p)) LF).

(** An ASCII letter. *)
Definition is_letter (c : char) : bool :=
  in_range (ch "A") (ch "Z") c || in_range (ch "a") (ch "z") c.

(** Two strings that differ at most in the case of ASCII letters. *)
Definition same_letters (a b : str) : Prop :=
  map (canonicalize true) a = map (canonicalize true) b.

(** Two positions of two such subjects. *)
Definition same_place (p p' : pos) : Prop :=
  index p = index p'
  /\ same_letters (rest p) (rest p')
  /\ option_map (canonicalize true) (before p)
     = option_map (canonicalize true) (before p').

(** Two runs that both fail or both end at the same place. *)
Definition same_end (o o' : option pos) : Prop :=
  match o, o' with
  | Some e, Some e' => same_place e e'
  | None, None => True
  | _, _ => False
  end.

(** The finding with its column renamed. *)
Definition with_column (col : str) (f : ColumnFinding) : ColumnFinding :=
  {| column := col;
     patternName := patternName f;
     finding_risk := finding_risk f;
     matchCount := matchCount f;
     sampleValues := sampleValues f;
     finding_source := finding_source f |}.

(** A pattern of the form [\b(...)\b] whose group matches at least one
    unit: the form of every column-name rule. *)
Definition bounded_word (r : re) : bool :=
  match r with
  | Seq WordB (Seq g (Seq WordB Empty)) => (1 <=? min_len g)%nat
  | _ => false
  end.

(** A name made of letters, digits and underscores only. *)
Definition identifier_like (col : str) : Prop :=
  forallb is_word_char col = true.

(** The pattern accepts no line feed and matches at least one unit. *)
Definition line_bound (ic : bool) (r : re) : bool :=
  negb (accepts ic r LF) && (1 <=? min_len r)%nat.

(** [q] lies at or after [p] in the same subject. *)
Definition reached (p q : pos) : Prop :=
  exists w, rest p = w ++ rest q
            /\ index q = (index p + N.of_nat (length w))%N.

(** What follows a line in a longer subject: nothing, or a line feed
    and more. *)
Definition line_end (tail : str) : Prop :=
  match tail with
  | [] => True
  | c :: _ => c = LF
  end.

(** [p'] is the position [p] of a line, seen in a subject where [tail]
    follows the line: the indices differ by a fixed shift, and the
    units before are both word characters or both not. *)
Definition in_line (tail : str) (d d' : N) (p p' : pos) : Prop :=
  rest p' = rest p ++ tail
  /\ (index p + d = index p' + d')%N
  /\ word_before p = word_before p'.

(** Two runs, in the line and in the longer subject, that both fail or
    both end at the same place of the line. *)
Definition same_run (tail : str) (d d' : N) (o o' : option pos) : Prop :=
  match o, o' with
  | Some e, Some e' => in_line tail d d' e e'
  | None, None => True
  | _, _ => False
  end.

(** The texts a pattern finds in a subject searched from its start. *)
Definition texts_of (ic : bool) (r : re) (s : str) : list str :=
  map snd (scan_matches ic r 0 None s 0).

(* ================================================================== *)
(** ** The command line ([src/cli.ts])

    What the program decides: whether it prints the help, which file
    it reads, what it reports and the exit status. The report is kept
    as the data the program prints (the result, the column sections in
    the order they are printed, the counts); the escape sequences and
    the fixed wording around them are not part of the model. *)

(** [s.startsWith(prefix)] *)
Definition String_startsWith (s prefix : str) : bool :=
  str_eqb (firstn (length prefix) s) prefix.

(** [arr.includes(x)] *)
Definition Array_includes (l : list str) (x : str) : bool :=
  existsb (str_eqb x) l.

(** [args.find((a) => !a.startsWith("--"))] *)
Definition filePath_of (args : list str) : option str :=
  find (fun a => negb (String_startsWith a (lit "--"))) args.

Definition jsonOutput (args : list str) : bool :=
  Array_includes args (lit "--json").

(** [!filePath || args.includes("--help") || args.includes("-h")] *)
Definition help_requested (args : list str) : bool :=
  match filePath_of args with
  | None => true
  | Some p => negb (String_truthy p)
  end
  || Array_includes args (lit "--help") || Array_includes args (lit "-h").

(** A [Map] with string keys: entries in insertion order; [set] on a
    new key appends. *)
Definition Map_set {V : Type} (k : str) (v : V) (m : Props V) : Props V :=
  if has_own k m then replace_own k v m else m ++ [(k, v)].

(** One turn of the grouping loop:
    [if (!byColumn.has(f.column)) byColumn.set(f.column, []);
     byColumn.get(f.column)!.push(f)]. *)
Definition group_step (m : Props (list ColumnFinding)) (f : ColumnFinding)
    : Exn (Props (list ColumnFinding)) :=
  let m1 := if has_own (column f) m then m else Map_set (column f) [] m in
  match get_own (column f) m1 with
  | Some l => ret (replace_own (column f) (l ++ [f]) m1)
  | None => throw TypeError
  end.

Definition byColumn (found : list ColumnFinding)
    : Exn (Props (list ColumnFinding)) :=
  foldM group_step found [].

(** [riskOrder = { HIGH: 3, MEDIUM: 2, LOW: 1 }] *)
Definition riskOrder (r : RiskLevel) : Z :=
  match r with
  | HIGH => 3
  | MEDIUM => 2
  | LOW => 1
  end.

(** [Math.max(...xs)]; [None] is the [-Infinity] of no argument. *)
Definition Math_max (xs : list Z) : option Z :=
  match xs with
  | [] => None
  | x :: xs' => Some (fold_left Z.max xs' x)
  end.

(** The comparator of the sort, [maxB - maxA], as far as [sort] reads
    it: its sign, a NaN counting as zero. *)
Definition by_max_risk (a b : str * list ColumnFinding) : Z :=
  let maxA := Math_max (map (fun f => riskOrder (finding_risk f)) (snd a)) in
  let maxB := Math_max (map (fun f => riskOrder (finding_risk f)) (snd b)) in
  match maxA, maxB with
  | Some x, Some y => y - x
  | Some _, None => -1
  | None, Some _ => 1
  | None, None => 0
  end.

(** [arr.sort(cmp)]. The sort of the language is stable, and for a
    comparator that orders by a key the stable result is unique;
    insertion from the right computes it. *)
Fixpoint sort_insert {A : Type} (cmp : A -> A -> Z) (x : A) (l : list A) : list A :=
  match l with
  | [] => [x]
  | y :: l' => if (0 <? cmp x y)%Z then y :: sort_insert cmp x l' else x :: l
  end.

Definition Array_sort {A : Type} (cmp : A -> A -> Z) (l : list A) : list A :=
  fold_right (sort_insert cmp) [] l.

(** The badge of a column section. *)
Definition colRisk (found : list ColumnFinding) : RiskLevel :=
  fold_left (fun acc f =>
               if RiskLevel_eqb (finding_risk f) HIGH
                  || (negb (RiskLevel_eqb acc HIGH)
                      && RiskLevel_eqb (finding_risk f) MEDIUM)
               then finding_risk f else acc)
            found LOW.

(** The column sections in printing order: name, badge, findings. *)
Definition sections (found : list ColumnFinding)
    : Exn (list (str * RiskLevel * list ColumnFinding)) :=
  groups <- byColumn found ;;
  ret (map (fun e => (fst e, colRisk (snd e), snd e))
           (Array_sort by_max_risk groups)).

(** [result.overallRisk === "HIGH" ? 2 : result.findings.length > 0 ? 1 : 0] *)
Definition exit_status (r : ScanResult) : Z :=
  if RiskLevel_eqb (overallRisk r) HIGH then 2
  else if (0 <? length (findings r))%nat then 1 else 0.

(** What the program writes before it exits. *)
Inductive Output : Type :=
  | Help
  | ReadError
  | Json (r : ScanResult)
  | NothingFound (r : ScanResult)
  | Report (r : ScanResult)
           (columns : list (str * RiskLevel * list ColumnFinding))
           (highCount medCount total : nat).

Section CommandLine.

(** The file system as the program sees it, and the number functions
    [scanContent] needs. *)
Variable resolve : str -> str.
Variable readFileSync : str -> Exn str.
Variable Number_toString : str -> str.
Variable Number_truthy : str -> bool.

(** The program, from [process.argv.slice(2)] to the output and the
    exit status. *)
Definition main (args : list str) : Exn (Output * Z) :=
  if help_requested args then ret (Help, 0%Z)
  else
    let absPath := resolve (match filePath_of args with
                            | Some p => p
                            | None => []
                            end) in
    match readFileSync absPath with
    | inl _ => ret (ReadError, 1%Z)
    | inr content =>
        scanned <- scanContent Number_toString Number_truthy catalog0
                               content absPath ;;
        let result := fst scanned in
        if jsonOutput args then ret (Json result, exit_status result)
        else if (length (findings result) =? 0)%nat
        then ret (NothingFound result, 0%Z)
        else
          columns <- sections (findings result) ;;
          let highCount :=
            length (filter (fun f => RiskLevel_eqb (finding_risk f) HIGH)
                           (findings result)) in
          let medCount :=
            length (filter (fun f => RiskLevel_eqb (finding_risk f) MEDIUM)
                           (findings result)) in
          ret (Report result columns highCount medCount
                      (length (findings result)),
               exit_status result)
    end.

End CommandLine.

(** The names of a list in the order of their first occurrence. *)
Fixpoint distinct (l : list str) : list str :=
  match l with
  | [] => []
  | k :: l' => k :: filter (fun x => negb (str_eqb x k)) (distinct l')
  end.

(** The findings of the column [k], in the order of the list. *)
Definition findings_of (k : str) (found : list ColumnFinding)
    : list ColumnFinding :=
  filter (fun f => str_eqb (column f) k) found.

(** The groups whose greatest risk is [level]. *)
Definition at_level (level : RiskLevel) (groups : Props (list ColumnFinding))
    : Props (list ColumnFinding) :=
  filter (fun e => RiskLevel_eqb (overall_of (snd e)) level) groups.

(** The groups the loop over the findings builds. *)
Definition grouped (found : list ColumnFinding) : Props (list ColumnFinding) :=
  map (fun k => (k, findings_of k found)) (distinct (map column found)).

(** A group as a printed section with the badge [level]. *)
Definition tagged (level : RiskLevel) (e : str * list ColumnFinding)
    : str * RiskLevel * list ColumnFinding :=
  (fst e, level, snd e).

(** The comparator that sorts by decreasing [key]. *)
Definition by_key {A : Type} (key : A -> Z) (x y : A) : Z := (key y - key x)%Z.

(* ================================================================== *)
(** * Properties *)

(** ** Equality of strings *)

Lemma str_eqb_eq (a b : str) : str_eqb a b = true <-> a = b.
Proof.
  revert b; induction a as [|x a IH]; intros [|y b]; simpl;
    try (split; [discriminate | congruence]); try tauto.
  unfold char_eqb. rewrite andb_true_iff, N.eqb_eq, IH.
  split; [intros [-> ->]; reflexivity | intros H; inversion H; auto].
Qed.

Lemma str_eqb_refl (a : str) : str_eqb a a = true.
Proof. apply str_eqb_eq; reflexivity. Qed.

Lemma str_eqb_neq (a b : str) : str_eqb a b = false <-> a <> b.
Proof.
  rewrite <- str_eqb_eq. destruct (str_eqb a b); split; congruence.
Qed.

(** ** The catalog is well formed *)

(** The reader accepts every pattern text the program contains. *)
Lemma catalog_compiles :
  Forall (fun R => RegExp_parse (source R) <> None)
         (map pattern PII_PATTERNS ++ map rule_pattern SUSPICIOUS_COLUMN_NAMES
          ++ [regex "\r?\n" ""]).
Proof. repeat constructor; vm_compute; discriminate. Qed.

(** Every literal and range of every pattern is ASCII. *)
Lemma catalog_ascii :
  Forall (fun R => re_ascii (compiled R) = true)
         (map pattern PII_PATTERNS ++ map rule_pattern SUSPICIOUS_COLUMN_NAMES
          ++ [regex "\r?\n" ""]).
Proof. repeat constructor. Qed.

(** Two of the patterns as read. *)
Example routing_pattern_read :
  RegExp_parse (lit "\b\d{9}\b")
  = Some (Seq WordB (Seq (Quant 9 (Some 9) Digit) (Seq WordB Empty))).
Proof. vm_compute. reflexivity. Qed.

Example zip_pattern_read :
  RegExp_parse (lit "\b\d{5}(?:-\d{4})?\b")
  = Some (Seq WordB
            (Seq (Quant 5 (Some 5) Digit)
               (Seq (Quant 0 (Some 1)
                       (Group (Seq (Char (ch "-"))
                                 (Seq (Quant 4 (Some 4) Digit) Empty))))
                  (Seq WordB Empty)))).
Proof. vm_compute. reflexivity. Qed.

(** ** Redaction *)

Lemma String_length_nonneg (s : str) : (0 <= String_length s)%Z.
Proof. unfold String_length; lia. Qed.

Lemma concat_repeat_unit (c : char) (n : nat) :
  concat (repeat [c] n) = repeat c n.
Proof. induction n as [|n IH]; simpl; [reflexivity | now rewrite IH]. Qed.

Lemma String_slice_head (s : str) (n : nat) :
  String_slice s 0 (Some (Z.of_nat n)) = firstn n s.
Proof.
  unfold String_slice, slice_index, String_length.
  destruct (Z.ltb_spec (Z.of_nat n) 0); [lia|].
  change (0 <? 0)%Z with false. cbv iota.
  rewrite (Z.min_l 0) by lia. change (Z.to_nat 0) with 0. rewrite skipn_O.
  rewrite Z.sub_0_r, Z.max_l by lia.
  destruct (Nat.le_gt_cases n (length s)).
  - rewrite Z.min_l by lia. now rewrite Nat2Z.id.
  - rewrite Z.min_r by lia. rewrite Nat2Z.id.
    rewrite !firstn_all2; auto; lia.
Qed.

Lemma String_slice_tail (s : str) (n : nat) :
  (0 < n <= length s)%nat ->
  String_slice s (- Z.of_nat n) None = skipn (length s - n) s.
Proof.
  intros Hn. unfold String_slice, slice_index, String_length.
  destruct (Z.ltb_spec (- Z.of_nat n) 0); [|lia].
  rewrite (Z.max_l (Z.of_nat (length s) + - Z.of_nat n) 0) by lia.
  replace (Z.to_nat (Z.of_nat (length s) + - Z.of_nat n)) with (length s - n)%nat by lia.
  apply firstn_all2. rewrite length_skipn. lia.
Qed.

Lemma redact_short (value : str) :
  (length value <= 4)%nat -> redact value = inr (lit "****").
Proof.
  intros H. unfold redact, String_length.
  destruct (Z.leb_spec (Z.of_nat (length value)) 4); [reflexivity | lia].
Qed.

Lemma redact_long (value : str) :
  (4 < length value)%nat ->
  redact value =
  inr (firstn 2 value ++ repeat STAR (Nat.min (length value - 4) 8)
       ++ skipn (length value - 2) value).
Proof.
  intros H. unfold redact.
  destruct (Z.leb_spec (String_length value) 4) as [E|E];
    [unfold String_length in E; lia|].
  unfold String_repeat, Math_min.
  destruct (Z.ltb_spec (Z.min (String_length value - 4) 8) 0) as [E2|E2];
    [unfold String_length in E2; lia|].
  simpl bind. unfold ret. f_equal.
  change 2%Z with (Z.of_nat 2). rewrite String_slice_head.
  change (-2)%Z with (- Z.of_nat 2)%Z. rewrite String_slice_tail by lia.
  rewrite concat_repeat_unit. do 3 f_equal.
  unfold String_length. lia.
Qed.

Lemma redact_returns (value : str) : exists s, redact value = inr s.
Proof.
  destruct (Nat.le_gt_cases (length value) 4).
  - eexists; now apply redact_short.
  - eexists; now apply redact_long.
Qed.

(** C3. A value of at most 4 units is redacted to exactly [****]. A
    longer value of [L] units is redacted to its first 2 units, a run of
    [min (L - 4) 8] stars and its last 2 units: [4 + min (L - 4) 8]
    units in all, with nothing but stars in the middle. *)
Theorem redact_spec (value : str) :
  ((length value <= 4)%nat -> redact value = inr (lit "****"))
  /\ ((4 < length value)%nat ->
      exists out middle,
        redact value = inr out
        /\ out = firstn 2 value ++ middle ++ skipn (length value - 2) value
        /\ length out = 4 + Nat.min (length value - 4) 8
        /\ firstn 2 out = firstn 2 value
        /\ skipn (length out - 2) out = skipn (length value - 2) value
        /\ length middle = Nat.min (length value - 4) 8
        /\ Forall (fun c => c = ch "*") middle).
Proof.
  split; [apply redact_short|].
  intros H.
  exists (firstn 2 value ++ repeat STAR (Nat.min (length value - 4) 8)
          ++ skipn (length value - 2) value),
         (repeat STAR (Nat.min (length value - 4) 8)).
  assert (L2 : length (firstn 2 value) = 2) by (rewrite length_firstn; lia).
  assert (Lt : length (skipn (length value - 2) value) = 2)
    by (rewrite length_skipn; lia).
  assert (Lo : length (firstn 2 value ++ repeat STAR (Nat.min (length value - 4) 8)
                       ++ skipn (length value - 2) value)
               = 4 + Nat.min (length value - 4) 8)
    by (rewrite !length_app, L2, Lt, repeat_length; lia).
  split; [now apply redact_long|].
  split; [reflexivity|].
  split; [exact Lo|].
  split.
  { rewrite firstn_app, L2, Nat.sub_diag, firstn_O, app_nil_r, firstn_firstn.
    reflexivity. }
  split.
  { rewrite Lo, app_assoc, skipn_app.
    rewrite length_app, L2, repeat_length.
    replace (4 + Nat.min (length value - 4) 8 - 2
             - (2 + Nat.min (length value - 4) 8)) with 0 by lia.
    rewrite skipn_all2 by (rewrite length_app, L2, repeat_length; lia).
    reflexivity. }
  split; [apply repeat_length|].
  apply Forall_forall. intros c Hc. apply repeat_spec in Hc. exact Hc.
Qed.

Lemma redact_spec_witness :
  redact (lit "abc") = inr (lit "****")
  /\ exists out middle,
       redact (lit "alice@example.com") = inr out
       /\ out = lit "al" ++ middle ++ lit "om"
       /\ length out = 12
       /\ firstn 2 out = lit "al"
       /\ skipn (length out - 2) out = lit "om"
       /\ length middle = 8
       /\ Forall (fun c => c = ch "*") middle.
Proof.
  split.
  - apply (proj1 (redact_spec (lit "abc"))). simpl. lia.
  - apply (proj2 (redact_spec (lit "alice@example.com"))). simpl. lia.
Defined.

(* ================================================================== *)
(** ** Own properties *)

Section PropsFacts.

Variable V : Type.
Implicit Types (o : Props V) (k : str) (v : V).

Lemma has_own_get k o : has_own k o = true <-> get_own k o <> None.
Proof.
  induction o as [|[k' v'] o IH]; simpl.
  - split; [discriminate | congruence].
  - destruct (str_eqb k' k); simpl; [split; [discriminate | reflexivity] | exact IH].
Qed.

Lemma has_own_false k o : has_own k o = false <-> get_own k o = None.
Proof.
  pose proof (has_own_get k o) as H.
  destruct (has_own k o), (get_own k o); split; intros; try congruence.
  - exfalso. apply (proj1 H); auto.
  - exfalso. assert (false = true) by (apply H; discriminate). discriminate.
Qed.

Lemma has_own_keys k o : has_own k o = true <-> In k (map fst o).
Proof.
  induction o as [|[k' v'] o IH]; simpl.
  - split; [discriminate | tauto].
  - destruct (str_eqb k' k) eqn:E; simpl.
    + apply str_eqb_eq in E. tauto.
    + apply str_eqb_neq in E. rewrite IH. tauto.
Qed.

Lemma keys_replace k v o : map fst (replace_own k v o) = map fst o.
Proof.
  induction o as [|[k' v'] o IH]; simpl; [reflexivity|].
  destruct (str_eqb k' k); simpl; [reflexivity | now rewrite IH].
Qed.

Lemma get_replace_same k v o :
  get_own k o <> None -> get_own k (replace_own k v o) = Some v.
Proof.
  induction o as [|[k' v'] o IH]; simpl; [congruence|].
  destruct (str_eqb k' k) eqn:E; simpl; rewrite E; auto.
Qed.

Lemma get_replace_other k k' v o :
  k' <> k -> get_own k' (replace_own k v o) = get_own k' o.
Proof.
  intros N. induction o as [|[k0 v0] o IH]; simpl; [reflexivity|].
  destruct (str_eqb k0 k) eqn:E; simpl.
  - apply str_eqb_eq in E; subst k0.
    destruct (str_eqb k k') eqn:E'; [|reflexivity].
    apply str_eqb_eq in E'. congruence.
  - now rewrite IH.
Qed.

Lemma get_insert_same n k v o :
  get_own k o = None -> get_own k (insert_index n k v o) = Some v.
Proof.
  induction o as [|[k' v'] o IH]; simpl; intros H.
  - now rewrite str_eqb_refl.
  - destruct (str_eqb k' k) eqn:E; [discriminate|].
    destruct (array_index k') as [n'|]; [destruct (n' <? n)%N|]; simpl;
      rewrite ?E, ?str_eqb_refl; auto.
Qed.

Lemma get_insert_other n k k' v o :
  k' <> k -> get_own k' (insert_index n k v o) = get_own k' o.
Proof.
  intros N. apply str_eqb_neq in N.
  assert (N' : str_eqb k k' = false).
  { apply str_eqb_neq. apply str_eqb_neq in N. congruence. }
  induction o as [|[k0 v0] o IH]; simpl.
  - now rewrite N'.
  - destruct (array_index k0) as [n'|]; [destruct (n' <? n)%N|]; simpl;
      rewrite ?N'; try reflexivity.
    now rewrite IH.
Qed.

Lemma get_app k o o' :
  get_own k (o ++ o') =
  match get_own k o with Some v => Some v | None => get_own k o' end.
Proof.
  induction o as [|[k0 v0] o IH]; simpl; [reflexivity|].
  destruct (str_eqb k0 k); auto.
Qed.

Lemma get_define_same k v o : get_own k (define_own k v o) = Some v.
Proof.
  unfold define_own. destruct (has_own k o) eqn:E.
  - apply get_replace_same. now apply has_own_get.
  - apply has_own_false in E.
    destruct (array_index k).
    + now apply get_insert_same.
    + rewrite get_app, E. simpl. now rewrite str_eqb_refl.
Qed.

Lemma get_define_other k k' v o :
  k' <> k -> get_own k' (define_own k v o) = get_own k' o.
Proof.
  intros N. unfold define_own. destruct (has_own k o).
  - now apply get_replace_other.
  - destruct (array_index k).
    + now apply get_insert_other.
    + rewrite get_app. simpl.
      destruct (str_eqb k k') eqn:E.
      * apply str_eqb_eq in E. congruence.
      * now destruct (get_own k' o).
Qed.

Lemma keys_insert n k v o x :
  In x (map fst (insert_index n k v o)) <-> x = k \/ In x (map fst o).
Proof.
  induction o as [|[k0 v0] o IH]; simpl.
  - intuition congruence.
  - destruct (array_index k0) as [n'|]; [destruct (n' <? n)%N|]; simpl;
      rewrite ?IH; intuition congruence.
Qed.

Lemma NoDup_insert n k v o :
  ~ In k (map fst o) -> NoDup (map fst o) ->
  NoDup (map fst (insert_index n k v o)).
Proof.
  induction o as [|[k0 v0] o IH]; simpl; intros Hk Hn.
  - constructor; [tauto | constructor].
  - inversion Hn as [|? ? Hk0 Hn']; subst.
    destruct (array_index k0) as [n'|]; [destruct (n' <? n)%N|]; simpl.
    + constructor.
      * rewrite keys_insert. intros [->|?]; tauto.
      * apply IH; tauto.
    + constructor; [simpl; tauto | now constructor].
    + constructor; [simpl; tauto | now constructor].
Qed.

Lemma NoDup_define k v o :
  NoDup (map fst o) -> NoDup (map fst (define_own k v o)).
Proof.
  intros Hn. unfold define_own. destruct (has_own k o) eqn:E.
  - now rewrite keys_replace.
  - assert (Hk : ~ In k (map fst o)).
    { intros Hin. apply has_own_keys in Hin. congruence. }
    destruct (array_index k).
    + now apply NoDup_insert.
    + rewrite map_app. simpl. apply NoDup_app.
      * exact Hn.
      * constructor; [tauto | constructor].
      * intros x Hx [<-|[]]. tauto.
Qed.

End PropsFacts.

(* ================================================================== *)
(** ** The normalizers and the engine return *)

Lemma assign_empty_ready (done : list str) (h : str) (o : Columns) :
  ready done o -> ready (done ++ [h]) (assign_empty h o).
Proof.
  intros R h' Hin. unfold assign_empty.
  apply in_app_or in Hin.
  destruct (str_eqb h PROTO) eqn:Eh; simpl.
  - destruct Hin as [Hin|[<-|[]]].
    + specialize (R h' Hin). destruct (str_eqb h' PROTO); [discriminate | exact R].
    + rewrite Eh. discriminate.
  - destruct (str_eqb h' PROTO) eqn:Eh'.
    + destruct Hin as [Hin|[<-|[]]]; [|congruence].
      specialize (R h' Hin). now rewrite Eh' in R.
    + destruct (str_eq_dec h' h) as [->|N].
      * rewrite get_define_same. discriminate.
      * rewrite get_define_other by exact N.
        destruct Hin as [Hin|[<-|[]]]; [|congruence].
        specialize (R h' Hin). now rewrite Eh' in R.
Qed.

Lemma assign_all_ready (headers done : list str) (o : Columns) :
  ready done o ->
  ready (done ++ headers) (fold_left (fun o h => assign_empty h o) headers o).
Proof.
  revert done o. induction headers as [|h hs IH]; intros done o R; simpl.
  - now rewrite app_nil_r.
  - replace (done ++ h :: hs) with ((done ++ [h]) ++ hs)
      by (rewrite <- app_assoc; reflexivity).
    apply IH. now apply assign_empty_ready.
Qed.

Lemma push_to_ready (hs : list str) (h v : str) (o : Columns) :
  ready hs o -> In h hs ->
  exists o', push_to h v o = inr o' /\ ready hs o'.
Proof.
  intros R Hin. unfold push_to. pose proof (R h Hin) as Rh.
  destruct (str_eqb h PROTO) eqn:Eh.
  - destruct (proto_array o) as [l|] eqn:Ep; [|congruence].
    eexists; split; [reflexivity|].
    intros h' Hin'. specialize (R h' Hin'). simpl.
    destruct (str_eqb h' PROTO); [discriminate | exact R].
  - destruct (get_own h (own o)) as [l|] eqn:Eg; [|congruence].
    eexists; split; [reflexivity|].
    intros h' Hin'. specialize (R h' Hin'). simpl.
    destruct (str_eqb h' PROTO); [exact R|].
    destruct (str_eq_dec h' h) as [->|N].
    + rewrite get_replace_same; [discriminate | congruence].
    + now rewrite get_replace_other.
Qed.

Lemma push_row_ready (hs values : list str) (headers : list str) :
  forall (idx : nat) (o : Columns),
    ready hs o -> incl headers hs ->
    exists o', push_row values idx headers o = inr o' /\ ready hs o'.
Proof.
  induction headers as [|h headers IH]; intros idx o R Hi; simpl.
  - eexists; split; [reflexivity | exact R].
  - assert (Hh : In h hs) by (apply Hi; left; reflexivity).
    assert (Hi' : incl headers hs) by (intros x Hx; apply Hi; right; exact Hx).
    destruct (nth_error values idx) as [v|].
    + destruct (@push_to_ready hs h v o R Hh) as (o1 & E1 & R1).
      rewrite E1. simpl. now apply IH.
    + simpl. now apply IH.
Qed.

Lemma push_rows_ready (headers : list str) (data : list str) :
  forall o, ready headers o ->
    exists o', foldM (fun o line => push_row (splitLine line) 0 headers o) data o
               = inr o' /\ ready headers o'.
Proof.
  induction data as [|line data IH]; intros o R; simpl.
  - eexists; split; [reflexivity | exact R].
  - destruct (@push_row_ready headers (splitLine line) headers 0 o R (incl_refl headers))
      as (o1 & E1 & R1).
    rewrite E1. simpl. now apply IH.
Qed.

(** [parseCSV] never throws. *)
Lemma parseCSV_returns (content : str) : exists t, parseCSV content = inr t.
Proof.
  unfold parseCSV. destruct (csv_lines content) as [|header data].
  - eexists; reflexivity.
  - assert (R : ready (splitLine header)
                  (fold_left (fun o h => assign_empty h o) (splitLine header)
                             empty_object)).
    { apply (@assign_all_ready (splitLine header) [] empty_object). intros h []. }
    destruct (@push_rows_ready (splitLine header) data _ R) as (o' & E & _).
    rewrite E. simpl. eexists; reflexivity.
Qed.

Lemma normalize_returns (nts : str -> str) (ntr : str -> bool)
    (content filePath : str) :
  exists t, normalize nts ntr content filePath = inr t.
Proof.
  unfold normalize. destruct (String_endsWith filePath (lit ".json")).
  - eexists; reflexivity.
  - apply parseCSV_returns.
Qed.

(** A [test] on an expression without [g] leaves it as it was. *)
Lemma RegExp_test_frozen (R : RegExp) (s : str) :
  global R = false -> snd (RegExp_test R s) = R.
Proof.
  intros H. unfold RegExp_test, RegExp_exec. rewrite H.
  destruct (first_match _ _ _ _ _ _) as [[i t]|]; reflexivity.
Qed.

Lemma name_pass_frozen (rules : list ColumnNameRule) (col : str)
    (values : list str) :
  frozen rules -> snd (name_pass rules col values) = rules.
Proof.
  induction 1 as [|r rules Hr Hrules IH]; simpl; [reflexivity|].
  pose proof (@RegExp_test_frozen (rule_pattern r) col Hr) as E.
  destruct (RegExp_test (rule_pattern r) col) as [hit R']. simpl in E. subst R'.
  assert (Er : {| rule_pattern := rule_pattern r; rule_risk := rule_risk r;
                  label := label r |} = r) by (destruct r; reflexivity).
  rewrite Er. destruct hit; simpl; [reflexivity|].
  destruct (name_pass rules col values) as [found rest']. simpl in IH.
  simpl. now rewrite IH.
Qed.

Lemma mapM_returns {A B : Type} (f : A -> Exn B) (l : list A) :
  Forall (fun a => exists b, f a = inr b) l -> exists bs, mapM f l = inr bs.
Proof.
  induction 1 as [|a l (b & Eb) _ (bs & Ebs)]; simpl.
  - eexists; reflexivity.
  - rewrite Eb. simpl. rewrite Ebs. simpl. eexists; reflexivity.
Qed.

Lemma redact_all_returns (l : list str) : exists out, mapM redact l = inr out.
Proof.
  apply mapM_returns. apply Forall_forall. intros v _. apply redact_returns.
Qed.

Lemma content_finding_returns (col sample : str) (p : PiiPattern) :
  global (pattern p) = true -> exists l, content_finding col sample p = inr l.
Proof.
  intros H. unfold content_finding, String_matchAll. rewrite H.
  unfold ret. cbn [bind].
  destruct (0 <? _)%nat; [|eexists; reflexivity].
  destruct (redact_all_returns
              (Array_take 3 (map snd (scan_matches (ignoreCase (pattern p))
                 (compiled (pattern p)) 0 None sample
                 (N.to_nat (lastIndex (pattern p))))))) as (out & E).
  rewrite E. cbn [bind]. eexists; reflexivity.
Qed.

Lemma content_pass_returns (patterns : list PiiPattern) (col : str)
    (values : list str) :
  searchable patterns -> exists l, content_pass patterns col values = inr l.
Proof.
  intros H. unfold content_pass.
  destruct (@mapM_returns _ _ (content_finding col (sample_of values)) patterns)
    as (found & E).
  { eapply Forall_impl; [|exact H]. intros p Hp. now apply content_finding_returns. }
  rewrite E. simpl. eexists; reflexivity.
Qed.

Lemma scan_columns_fold (cat : Catalog) (columns : Table) :
  frozen (columnNameRules cat) -> searchable (piiPatterns cat) ->
  forall found,
    foldM (scan_column (piiPatterns cat)) columns (found, columnNameRules cat)
    = inr (found ++ flat_map (column_findings cat) columns, columnNameRules cat).
Proof.
  intros Hf Hs. induction columns as [|[col values] columns IH]; intros found; simpl.
  - now rewrite app_nil_r.
  - pose proof (@name_pass_frozen (columnNameRules cat) col values Hf) as En.
    destruct (name_pass (columnNameRules cat) col values) as [by_name rules'] eqn:E.
    simpl in En. subst rules'.
    destruct (@content_pass_returns (piiPatterns cat) col values Hs) as (by_content & Ec).
    rewrite Ec. simpl. rewrite IH. unfold column_findings at 2. simpl.
    rewrite E. unfold content_findings. rewrite Ec. simpl.
    now rewrite <- !app_assoc.
Qed.

Lemma catalog0_frozen : frozen (columnNameRules catalog0).
Proof. unfold frozen. simpl. repeat constructor. Qed.

Lemma catalog0_searchable : searchable (piiPatterns catalog0).
Proof. unfold searchable. simpl. repeat constructor. Qed.

(** What a scan with the catalog as shipped returns: the result is
    determined by the table, and the catalog is left as it was. *)
Lemma scanColumns_eq (columns : Table) (filePath : str) :
  scanColumns catalog0 columns filePath =
  inr ({| file := filePath;
          rowsScanned := fold_left (fun total values => Nat.max total (length values))
                                   (Object_values columns) 0;
          columnsScanned := length (Object_keys columns);
          findings := flat_map (column_findings catalog0) columns;
          overallRisk := overall_of (flat_map (column_findings catalog0) columns);
          summary := summary_of (flat_map (column_findings catalog0) columns) |},
       catalog0).
Proof.
  unfold scanColumns.
  rewrite (@scan_columns_fold catalog0 columns catalog0_frozen catalog0_searchable []).
  reflexivity.
Qed.

(* ================================================================== *)
(** ** Overall risk *)

Lemma maxRisk_spec (a b : RiskLevel) :
  (maxRisk a b = a \/ maxRisk a b = b)
  /\ risk_le a (maxRisk a b) /\ risk_le b (maxRisk a b).
Proof. destruct a, b; cbv; tauto. Qed.

Lemma risk_le_trans (a b c : RiskLevel) : risk_le a b -> risk_le b c -> risk_le a c.
Proof. destruct a, b, c; simpl; tauto. Qed.

Lemma fold_maxRisk (found : list ColumnFinding) :
  forall a,
    let m := fold_left (fun acc f => maxRisk acc (finding_risk f)) found a in
    (m = a \/ Exists (fun f => finding_risk f = m) found)
    /\ risk_le a m
    /\ Forall (fun f => risk_le (finding_risk f) m) found.
Proof.
  induction found as [|f found IH]; intros a; simpl.
  - split; [now left|]. split; [destruct a; exact I | constructor].
  - destruct (IH (maxRisk a (finding_risk f))) as (Hm & Hle & Hall).
    destruct (maxRisk_spec a (finding_risk f)) as (Hc & Ha & Hf).
    set (m := fold_left _ found _) in *.
    split; [|split].
    + destruct Hm as [Hm|Hm].
      * destruct Hc as [Hc|Hc]; rewrite Hc in Hm.
        -- now left.
        -- right. now apply Exists_cons_hd.
      * right. now apply Exists_cons_tl.
    + eapply risk_le_trans; eassumption.
    + constructor; [eapply risk_le_trans; eassumption | exact Hall].
Qed.

Lemma overall_of_ok (found : list ColumnFinding) :
  (overall_of found = LOW <->
   found = [] \/ Forall (fun f => finding_risk f = LOW) found)
  /\ (found <> [] -> greatest_risk (overall_of found) found).
Proof.
  destruct found as [|f found].
  - split; [|congruence]. simpl. split; [now left | reflexivity].
  - unfold overall_of.
    destruct (fold_maxRisk (f :: found) LOW) as (Hm & _ & Hall).
    set (m := fold_left _ (f :: found) LOW) in *.
    assert (G : greatest_risk m (f :: found)).
    { split; [|exact Hall]. destruct Hm as [Hm|Hm]; [|exact Hm].
      apply Exists_cons_hd. inversion Hall as [|? ? Hf _]; subst.
      rewrite Hm in Hf |- *.
      destruct (finding_risk f); simpl in Hf; (reflexivity || contradiction). }
    split; [|intros _; exact G]. split.
    + intros E. right. rewrite E in Hall.
      eapply Forall_impl; [|exact Hall].
      intros x Hx. cbv beta in Hx.
      destruct (finding_risk x); simpl in Hx; (reflexivity || contradiction).
    + intros [E|E]; [discriminate|].
      destruct G as (Hex & _). apply Exists_exists in Hex.
      destruct Hex as (x & Hin & Hx).
      rewrite Forall_forall in E. rewrite <- Hx. now apply E.
Qed.

Lemma scanContent_eq (nts : str -> str) (ntr : str -> bool)
    (content filePath : str) :
  exists t, normalize nts ntr content filePath = inr t
            /\ scanContent nts ntr catalog0 content filePath
               = scanColumns catalog0 t filePath.
Proof.
  destruct (normalize_returns nts ntr content filePath) as (t & E).
  exists t. split; [exact E|]. unfold scanContent. now rewrite E.
Qed.

(** C1. Both entry points return a result whose [overallRisk] is LOW
    exactly when there is no finding or every finding is LOW, and is
    otherwise the greatest risk among the findings. *)
Theorem overallRisk_invariant (Number_toString : str -> str)
    (Number_truthy : str -> bool) (columns : Table) (content filePath : str) :
  (exists r, scanColumns catalog0 columns filePath = inr (r, catalog0)
             /\ overallRisk_ok r)
  /\ (exists r, scanContent Number_toString Number_truthy catalog0 content filePath
                = inr (r, catalog0)
                /\ overallRisk_ok r).
Proof.
  split.
  - eexists. split; [apply scanColumns_eq|]. apply overall_of_ok.
  - destruct (scanContent_eq Number_toString Number_truthy content filePath)
      as (t & _ & E).
    eexists. split; [rewrite E; apply scanColumns_eq|]. apply overall_of_ok.
Qed.

(* ================================================================== *)
(** ** Error handling *)



(* ================================================================== *)
(** ** The column-name pass *)

Lemma name_pass_none (rules : list ColumnNameRule) (col : str) (values : list str) :
  (forall r, In r rules -> rule_hits r col = false) ->
  fst (name_pass rules col values) = [].
Proof.
  induction rules as [|r rules IH]; intros H; simpl; [reflexivity|].
  assert (Hr : rule_hits r col = false) by (apply H; now left).
  unfold rule_hits in Hr.
  destruct (RegExp_test (rule_pattern r) col) as [hit R']. simpl in Hr. subst hit.
  specialize (IH (fun x Hx => H x (or_intror Hx))).
  destruct (name_pass rules col values) as [found rest']. exact IH.
Qed.

Lemma name_pass_first (pre : list ColumnNameRule) (r : ColumnNameRule)
    (post : list ColumnNameRule) (col : str) (values : list str) :
  (forall x, In x pre -> rule_hits x col = false) ->
  rule_hits r col = true ->
  fst (name_pass (pre ++ r :: post) col values) = [name_finding r col values]
  /\ exists pre' r',
       snd (name_pass (pre ++ r :: post) col values) = pre' ++ r' :: post
       /\ length pre' = length pre.
Proof.
  induction pre as [|x pre IH]; intros Hpre Hr; simpl.
  - unfold rule_hits in Hr.
    destruct (RegExp_test (rule_pattern r) col) as [hit R']. simpl in Hr. subst hit.
    split; [reflexivity|]. exists [], {| rule_pattern := R'; rule_risk := rule_risk r;
                                         label := label r |}.
    split; reflexivity.
  - assert (Hx : rule_hits x col = false) by (apply Hpre; now left).
    unfold rule_hits in Hx.
    destruct (RegExp_test (rule_pattern x) col) as [hit R']. simpl in Hx. subst hit.
    destruct (IH (fun y Hy => Hpre y (or_intror Hy)) Hr) as (Hf & pre' & r' & Hs & Hl).
    destruct (name_pass (pre ++ r :: post) col values) as [found rest'].
    simpl in Hf, Hs |- *. split; [exact Hf|].
    exists ({| rule_pattern := R'; rule_risk := rule_risk x; label := label x |} :: pre'), r'.
    split; [now rewrite Hs | simpl; now rewrite Hl].
Qed.

Lemma name_pass_at_most_one (rules : list ColumnNameRule) (col : str)
    (values : list str) :
  length (fst (name_pass rules col values)) <= 1.
Proof.
  induction rules as [|r rules IH]; simpl; [lia|].
  destruct (RegExp_test (rule_pattern r) col) as [[|] R']; simpl; [lia|].
  destruct (name_pass rules col values) as [found rest']. exact IH.
Qed.

Lemma mapM_inr {A B : Type} (f : A -> Exn B) (l : list A) (bs : list B) :
  mapM f l = inr bs -> Forall2 (fun a b => f a = inr b) l bs.
Proof.
  revert bs. induction l as [|a l IH]; simpl; intros bs H.
  - inversion H. constructor.
  - destruct (f a) as [e|b] eqn:Ea; [discriminate|]. cbn [bind] in H.
    destruct (mapM f l) as [e|bs'] eqn:El; [discriminate|]. cbn [bind] in H.
    inversion H; subst. constructor; [exact Ea | now apply IH].
Qed.

(** What the content pass reports: one finding for each pattern, in
    catalog order, that matches the sample at least once. *)
Lemma content_findings_spec (patterns : list PiiPattern) (col : str)
    (values : list str) (f : ColumnFinding) :
  In f (content_findings patterns col values) ->
  exists p samples,
    In p patterns
    /\ mapM redact (Array_take 3 (matches_of p (sample_of values))) = inr samples
    /\ 0 < length (matches_of p (sample_of values))
    /\ f = {| column := col;
              patternName := name p;
              finding_risk := risk p;
              matchCount := length (matches_of p (sample_of values));
              sampleValues := samples;
              finding_source := content_source |}.
Proof.
  unfold content_findings, content_pass.
  destruct (mapM (content_finding col (sample_of values)) patterns) as [e|found] eqn:E;
    cbn [bind]; [intros []|].
  unfold ret. intros Hin. apply in_concat in Hin. destruct Hin as (l & Hl & Hf).
  apply mapM_inr in E.
  assert (Hp : exists p, In p patterns /\ content_finding col (sample_of values) p = inr l).
  { clear Hf. induction E as [|p l' ps ls Hpl _ IH]; [destruct Hl|].
    destruct Hl as [->|Hl].
    - exists p. split; [now left | exact Hpl].
    - destruct (IH Hl) as (p' & Hin & Hp'). exists p'. split; [now right | exact Hp']. }
  destruct Hp as (p & Hin & Hp). exists p.
  unfold content_finding in Hp. unfold matches_of.
  destruct (String_matchAll (sample_of values) (pattern p)) as [e|ms];
    [discriminate|]. cbn [bind] in Hp.
  destruct (0 <? length ms) eqn:E0.
  - destruct (mapM redact (Array_take 3 ms)) as [e|samples]; [discriminate|].
    cbn [bind] in Hp. inversion Hp; subst l. destruct Hf as [<-|[]].
    exists samples. apply Nat.ltb_lt in E0. repeat split; auto.
  - inversion Hp; subst l. destruct Hf.
Qed.

Lemma name_pass_shape (rules : list ColumnNameRule) (col : str)
    (values : list str) (f : ColumnFinding) :
  In f (fst (name_pass rules col values)) ->
  column f = col /\ finding_source f = column_name.
Proof.
  induction rules as [|r rules IH]; simpl; [intros []|].
  destruct (RegExp_test (rule_pattern r) col) as [[|] R']; simpl.
  - intros [<-|[]]. split; reflexivity.
  - destruct (name_pass rules col values) as [found rest']. exact IH.
Qed.

Lemma filter_none {A : Type} (p : A -> bool) (l : list A) :
  (forall x, In x l -> p x = false) -> filter p l = [].
Proof.
  induction l as [|a l IH]; intros H; simpl; [reflexivity|].
  rewrite (H a) by now left. apply IH. intros x Hx. apply H. now right.
Qed.

Lemma by_name_of_column (cat : Catalog) (c k : str) (values : list str) :
  length (filter (by_name_of c) (column_findings cat (k, values))) <= 1
  /\ (k <> c -> filter (by_name_of c) (column_findings cat (k, values)) = []).
Proof.
  unfold column_findings. cbn [fst snd]. rewrite filter_app.
  assert (Hc : filter (by_name_of c) (content_findings (piiPatterns cat) k values) = []).
  { apply filter_none. intros f Hf. apply content_findings_spec in Hf.
    destruct Hf as (p & samples & _ & _ & _ & ->). unfold by_name_of. cbn.
    apply andb_false_r. }
  rewrite Hc, app_nil_r. split.
  - etransitivity; [apply filter_length_le | apply name_pass_at_most_one].
  - intros N. apply filter_none. intros f Hf.
    apply name_pass_shape in Hf. destruct Hf as (Hcol & _).
    unfold by_name_of. rewrite Hcol.
    rewrite (proj2 (str_eqb_neq k c) N). reflexivity.
Qed.

Lemma by_name_of_count (cat : Catalog) (c : str) (columns : Table) :
  NoDup (Object_keys columns) ->
  length (filter (by_name_of c) (flat_map (column_findings cat) columns)) <= 1.
Proof.
  unfold Object_keys.
  induction columns as [|[k values] columns IH]; intros Hn; simpl; [lia|].
  inversion Hn as [|? ? Hk Hn']; subst.
  rewrite filter_app, length_app.
  destruct (by_name_of_column cat c k values) as (H1 & H0).
  destruct (str_eq_dec k c) as [->|N].
  - assert (E : filter (by_name_of c) (flat_map (column_findings cat) columns) = []).
    { apply filter_none. intros f Hf. apply in_flat_map in Hf.
      destruct Hf as ([k' values'] & Hin & Hf).
      assert (N' : k' <> c).
      { intros ->. apply Hk. apply in_map_iff. now exists (c, values'). }
      destruct (by_name_of_column cat c k' values') as (_ & H0').
      specialize (H0' N').
      destruct (by_name_of c f) eqn:Ef; [|reflexivity].
      assert (Hin' : In f (filter (by_name_of c) (column_findings cat (k', values'))))
        by (apply filter_In; auto).
      rewrite H0' in Hin'. destruct Hin'. }
    rewrite E. simpl. lia.
  - rewrite (H0 N). simpl. now apply IH.
Qed.

(** C4. The column-name pass emits at most one finding. Rules are tried
    in catalog order: when none matches the column name there is no
    finding; otherwise the first rule that matches produces it (its
    label, its risk, the full length of the value sequence, no sample)
    and the rules after it are returned untouched, whatever they are.
    Over a whole scan the findings are, column by column, that
    column-name finding if any followed by the content findings, none
    of which has source [column_name]; so a table, whose column names
    are distinct, has at most one column-name finding for each. *)
Theorem name_pass_first_match (rules : list ColumnNameRule) (col : str)
    (values : list str) :
  length (fst (name_pass rules col values)) <= 1
  /\ ((forall r, In r rules -> rule_hits r col = false) ->
      fst (name_pass rules col values) = [])
  /\ (forall pre r post,
        rules = pre ++ r :: post ->
        (forall x, In x pre -> rule_hits x col = false) ->
        rule_hits r col = true ->
        fst (name_pass rules col values) =
          [ {| column := col; patternName := label r; finding_risk := rule_risk r;
               matchCount := length values; sampleValues := [];
               finding_source := column_name |} ]
        /\ exists pre' r',
             snd (name_pass rules col values) = pre' ++ r' :: post
             /\ length pre' = length pre)
  /\ (forall columns filePath,
        exists r,
          scanColumns catalog0 columns filePath = inr (r, catalog0)
          /\ findings r =
             flat_map (fun e =>
                         fst (name_pass SUSPICIOUS_COLUMN_NAMES (fst e) (snd e))
                         ++ content_findings PII_PATTERNS (fst e) (snd e))
                      columns
          /\ (NoDup (Object_keys columns) ->
              length (filter (by_name_of col) (findings r)) <= 1))
  /\ (forall f, In f (content_findings PII_PATTERNS col values) ->
                finding_source f = content_source).
Proof.
  split; [apply name_pass_at_most_one|].
  split; [apply name_pass_none|].
  split.
  { intros pre r post -> Hpre Hr. now apply name_pass_first. }
  split.
  { intros columns filePath. eexists. split; [apply scanColumns_eq|].
    split; [reflexivity|]. cbn [findings]. apply by_name_of_count. }
  intros f Hf. apply content_findings_spec in Hf.
  destruct Hf as (p & samples & _ & _ & _ & ->). reflexivity.
Qed.

Lemma name_pass_first_match_witness :
  fst (name_pass SUSPICIOUS_COLUMN_NAMES (lit "ssn") [lit "123"; lit "456"])
  = [ {| column := lit "ssn"; patternName := lit "SSN column";
         finding_risk := HIGH; matchCount := 2; sampleValues := [];
         finding_source := column_name |} ]
  /\ fst (name_pass SUSPICIOUS_COLUMN_NAMES (lit "notes") [lit "123"; lit "456"]) = [].
Proof.
  split.
  - destruct (name_pass_first_match SUSPICIOUS_COLUMN_NAMES (lit "ssn")
                [lit "123"; lit "456"]) as (_ & _ & H & _).
    refine (proj1 (H [rule "\b(email|e_mail|email_addr)\b" "i" HIGH "Email column"]
                     (rule "\b(ssn|social_security|social.security)\b" "i" HIGH "SSN column")
                     (skipn 2 SUSPICIOUS_COLUMN_NAMES) _ _ _)).
    + reflexivity.
    + intros x [<-|[]]. vm_compute. reflexivity.
    + vm_compute. reflexivity.
  - destruct (name_pass_first_match SUSPICIOUS_COLUMN_NAMES (lit "notes")
                [lit "123"; lit "456"]) as (_ & H & _).
    apply H. intros r Hr. simpl in Hr.
    repeat (destruct Hr as [<-|Hr]; [vm_compute; reflexivity|]).
    destruct Hr.
Defined.

(* ================================================================== *)
(** ** The content pass and its sampling cap *)

Lemma sample_of_cap (values : list str) :
  sample_of values = sample_of (firstn 200 values).
Proof.
  unfold sample_of, Array_take. now rewrite firstn_firstn.
Qed.

Lemma content_pass_cap (patterns : list PiiPattern) (col : str) (values : list str) :
  content_pass patterns col values = content_pass patterns col (firstn 200 values).
Proof. unfold content_pass. now rewrite <- sample_of_cap. Qed.

Lemma firstn_repeat_le {A : Type} (a : A) (k n : nat) :
  k <= n -> firstn k (repeat a n) = repeat a k.
Proof.
  revert n. induction k as [|k IH]; intros n H; [reflexivity|].
  destruct n as [|n]; [lia|]. simpl. f_equal. apply IH. lia.
Qed.

(** C5. The content pass sees a column only through its first 200
    values joined by newlines: the pass on the whole column is the pass
    on those 200, and each content finding's [matchCount] is the number
    of matches of its pattern in that blob. So 200 or more copies of
    one value scan as 200 copies, and a column of 500 copies of
    [alice@example.com] yields the Email Address finding with
    [matchCount] 200. *)
Theorem content_pass_sampling (patterns : list PiiPattern) (col : str)
    (values : list str) :
  content_pass patterns col values = content_pass patterns col (firstn 200 values)
  /\ (forall f, In f (content_findings patterns col values) ->
        exists p, In p patterns
                  /\ patternName f = name p
                  /\ matchCount f
                     = length (matches_of p (Array_join (firstn 200 values) [LF])))
  /\ (forall v n, 200 <= n ->
        content_pass patterns col (repeat v n)
        = content_pass patterns col (repeat v 200))
  /\ (forall filePath,
        exists r,
          scanColumns catalog0 [(lit "contact", repeat (lit "alice@example.com") 500)]
                      filePath = inr (r, catalog0)
          /\ rowsScanned r = 500
          /\ findings r =
             [ {| column := lit "contact"; patternName := lit "Email Address";
                  finding_risk := HIGH; matchCount := 200;
                  sampleValues := [lit "al********om"; lit "al********om";
                                   lit "al********om"];
                  finding_source := content_source |} ]).
Proof.
  split; [apply content_pass_cap|]. split; [|split].
  - intros f Hf. apply content_findings_spec in Hf.
    destruct Hf as (p & samples & Hp & _ & _ & ->). exists p.
    repeat split; auto.
  - intros v n Hn. rewrite content_pass_cap. now rewrite firstn_repeat_le.
  - intros filePath. eexists. split; [apply scanColumns_eq|].
    split; vm_compute; reflexivity.
Qed.

(* ================================================================== *)
(** ** Column-name-only detection *)

(** C8. A table with the one column [ssn] holding [123] and [456] scans
    to exactly one finding: source [column_name], risk HIGH,
    [matchCount] 2. No content pattern matches the two values. *)
Theorem ssn_column_name_only (filePath : str) :
  exists r,
    scanColumns catalog0 [(lit "ssn", [lit "123"; lit "456"])] filePath
    = inr (r, catalog0)
    /\ findings r =
       [ {| column := lit "ssn"; patternName := lit "SSN column";
            finding_risk := HIGH; matchCount := 2; sampleValues := [];
            finding_source := column_name |} ]
    /\ content_findings PII_PATTERNS (lit "ssn") [lit "123"; lit "456"] = [].
Proof.
  eexists. split; [apply scanColumns_eq|].
  split; vm_compute; reflexivity.
Qed.

Lemma content_pass_sampling_witness :
  exists p, In p PII_PATTERNS
            /\ lit "Email Address" = name p
            /\ 200 = length (matches_of p
                       (Array_join (firstn 200 (repeat (lit "alice@example.com") 500)) [LF])).
Proof.
  destruct (content_pass_sampling PII_PATTERNS (lit "contact")
              (repeat (lit "alice@example.com") 500)) as (_ & H & _ & _).
  apply (H {| column := lit "contact"; patternName := lit "Email Address";
              finding_risk := HIGH; matchCount := 200;
              sampleValues := [lit "al********om"; lit "al********om";
                               lit "al********om"];
              finding_source := content_source |}).
  vm_compute. left. reflexivity.
Defined.

(* ================================================================== *)
(** ** Determinism *)

Lemma left_to_right_weaken (from from' : N) (ms : list (N * str)) :
  (from' <= from)%N -> left_to_right from ms -> left_to_right from' ms.
Proof.
  destruct ms as [|[i text] ms]; simpl; [tauto|].
  intros H [H1 H2]. split; [lia | exact H2].
Qed.

Lemma scan_matches_left_to_right (ic : bool) (r : re) (s : str) :
  forall (i : N) (prev : option char) (skip : nat),
    left_to_right (i + N.of_nat skip) (scan_matches ic r i prev s skip).
Proof.
  induction s as [|c s IH]; intros i prev skip.
  - destruct skip as [|k]; cbn [scan_matches]; [|exact I].
    destruct (match_here ic r _) as [len|]; [|exact I].
    cbn [left_to_right]. split; [lia | exact I].
  - destruct skip as [|k]; cbn [scan_matches].
    + destruct (match_here ic r _) as [len|].
      * cbn [left_to_right]. split; [lia|].
        eapply left_to_right_weaken; [|apply IH].
        pose proof (firstn_le_length len (c :: s)) as Hl.
        destruct len as [|len]; [rewrite firstn_O in *; simpl; lia|].
        pose proof (length_firstn (S len) (c :: s)) as Hf.
        rewrite Hf. simpl Nat.pred. lia.
      * eapply left_to_right_weaken; [|apply IH]. simpl. lia.
    + eapply left_to_right_weaken; [|apply IH]. simpl Nat.pred. lia.
Qed.

Lemma firstn_length_firstn {A : Type} (n : nat) (l : list A) :
  firstn (length (firstn n l)) l = firstn n l.
Proof.
  rewrite length_firstn.
  destruct (Nat.min_spec n (length l)) as [[H ->]|[H ->]]; [reflexivity|].
  rewrite firstn_all. symmetry. apply firstn_all2. lia.
Qed.

(** Each listed match is the text found at its index. *)
Lemma scan_matches_text (ic : bool) (r : re) (s : str) :
  forall (i : N) (prev : option char) (skip : nat) (j : N) (text : str),
    In (j, text) (scan_matches ic r i prev s skip) ->
    (i <= j)%N
    /\ text = firstn (length text) (skipn (N.to_nat (j - i)) s).
Proof.
  induction s as [|c s IH]; intros i prev skip j text Hin.
  - destruct skip as [|k]; cbn [scan_matches] in Hin; [|destruct Hin].
    destruct (match_here ic r _) as [len|]; [|destruct Hin].
    destruct Hin as [E|[]]. inversion E; subst. split; [lia|].
    now rewrite firstn_nil, skipn_nil.
  - assert (Step : forall k,
               In (j, text) (scan_matches ic r (N.succ i) (Some c) s k) ->
               (i <= j)%N
               /\ text = firstn (length text) (skipn (N.to_nat (j - i)) (c :: s))).
    { intros k Hk. destruct (IH _ _ _ _ _ Hk) as (Hle & Ht). split; [lia|].
      replace (N.to_nat (j - i)) with (S (N.to_nat (j - N.succ i))) by lia.
      exact Ht. }
    destruct skip as [|k]; cbn [scan_matches] in Hin.
    + destruct (match_here ic r _) as [len|].
      * destruct Hin as [E|Hin]; [|now apply (Step _ Hin)].
        inversion E; subst. split; [lia|].
        rewrite N.sub_diag. change (N.to_nat 0) with 0. rewrite skipn_O.
        now rewrite firstn_length_firstn.
      * now apply (Step _ Hin).
    + now apply (Step _ Hin).
Qed.

(** C9. A scan leaves every expression of the catalog as it found it,
    so a second scan of the same input returns the same result as the
    first, for [scanColumns] and for [scanContent]. [matchAll] searches
    a private copy of each content pattern, and what it lists are the
    texts found at increasing, non-overlapping places of the blob. The
    column [Contact: alice@example.com] gives [matchCount] 1 and the
    sample [al********om] in both scans. *)
Theorem scan_deterministic (Number_toString : str -> str)
    (Number_truthy : str -> bool) (columns : Table) (content filePath : str) :
  (exists r, scanColumns_twice columns filePath = inr (r, r, catalog0))
  /\ (exists r, scanContent_twice Number_toString Number_truthy content filePath
                = inr (r, r, catalog0))
  /\ Forall (fun p =>
               forall blob,
                 exists ms,
                   String_matchAll blob (pattern p) = inr (map snd ms)
                   /\ left_to_right 0 ms
                   /\ Forall (fun m => snd m = firstn (length (snd m))
                                                (skipn (N.to_nat (fst m)) blob)) ms)
            PII_PATTERNS
  /\ (exists r,
        scanColumns_twice [(lit "notes", [lit "Contact: alice@example.com"])] filePath
        = inr (r, r, catalog0)
        /\ findings r =
           [ {| column := lit "notes"; patternName := lit "Email Address";
                finding_risk := HIGH; matchCount := 1;
                sampleValues := [lit "al********om"];
                finding_source := content_source |} ]).
Proof.
  assert (Twice : forall t,
            exists r, scanColumns_twice t filePath = inr (r, r, catalog0)
                      /\ findings r = flat_map (column_findings catalog0) t).
  { intros t. unfold scanColumns_twice. rewrite scanColumns_eq. cbn [bind snd].
    rewrite scanColumns_eq. cbn [bind fst snd]. eexists. split; reflexivity. }
  split; [|split; [|split]].
  - destruct (Twice columns) as (r & E & _). now exists r.
  - destruct (scanContent_eq Number_toString Number_truthy content filePath)
      as (t & _ & E).
    unfold scanContent_twice. rewrite E, scanColumns_eq. cbn [bind snd].
    rewrite E, scanColumns_eq. cbn [bind fst snd]. eexists. reflexivity.
  - pose proof catalog0_searchable as Hs. unfold searchable in Hs. simpl in Hs.
    eapply Forall_impl; [|exact Hs]. intros p Hp blob.
    exists (scan_matches (ignoreCase (pattern p)) (compiled (pattern p)) 0 None blob
                         (N.to_nat (lastIndex (pattern p)))).
    split; [unfold String_matchAll; now rewrite Hp|]. split.
    + eapply left_to_right_weaken; [|apply scan_matches_left_to_right]. lia.
    + apply Forall_forall. intros [j text] Hin.
      apply scan_matches_text in Hin. destruct Hin as (_ & Ht). simpl.
      now rewrite N.sub_0_r in Ht.
  - destruct (Twice [(lit "notes", [lit "Contact: alice@example.com"])])
      as (r & E & Hf).
    exists r. split; [exact E|]. rewrite Hf. vm_compute. reflexivity.
Qed.

(* ================================================================== *)
(** ** CSV: lines *)

Lemma eol_compiled : compiled (regex "\r?\n" "") = eol_re.
Proof. vm_compute. reflexivity. Qed.

Lemma repeat_optional_done (ic : bool) (m : pos -> Cont -> option pos)
    (bound : str) (p : pos) (k : Cont) :
  repeat_optional m bound (Some 0) p k = k p.
Proof. destruct bound; reflexivity. Qed.

Lemma step_char (c : char) (p : pos) (k : Cont) :
  step (char_matches false c) p k =
  match rest p with
  | x :: s' =>
      if char_eqb x c
      then k {| index := N.succ (index p); before := Some x; rest := s' |}
      else None
  | [] => None
  end.
Proof.
  unfold step, char_matches, canonicalize. cbn [andb].
  destruct (rest p) as [|x s']; [reflexivity|].
  unfold char_eqb. now rewrite N.eqb_sym.
Qed.

Lemma eol_here (i : N) (prev : option char) (s : str) :
  match_here false eol_re {| index := i; before := prev; rest := s |} =
  match s with
  | c :: s' =>
      if char_eqb c LF then Some 1
      else if char_eqb c CR then
        match s' with
        | d :: _ => if char_eqb d LF then Some 2 else None
        | [] => None
        end
      else None
  | [] => None
  end.
Proof.
  destruct s as [|c s']; [reflexivity|].
  unfold match_here, eol_re.
  cbn [matcher repeat_required repeat_optional rest option_map Nat.pred].
  rewrite !step_char. cbn [rest index].
  destruct (char_eqb c CR) eqn:Ec.
  - apply N.eqb_eq in Ec. subst c.
    rewrite (proj2 (N.eqb_neq (N.succ i) i)) by lia.
    rewrite repeat_optional_done by exact false. rewrite step_char. cbn [rest index].
    change (char_eqb CR LF) with false. cbv iota.
    destruct s' as [|d s'']; [reflexivity|].
    destruct (char_eqb d LF); [|reflexivity].
    cbn [index]. f_equal. lia.
  - destruct (char_eqb c LF); [|reflexivity].
    cbn [index]. f_equal. lia.
Qed.

Lemma split_loop_eol (n : nat) :
  forall (s : str) (i : N) (prev : option char) (cur : str),
    length s <= n ->
    split_loop false eol_re i prev s cur 0 = lines_lf_crlf cur s.
Proof.
  induction n as [|n IH]; intros s i prev cur Hn.
  - destruct s; [reflexivity | simpl in Hn; lia].
  - destruct s as [|c s']; [reflexivity|].
    cbn [split_loop lines_lf_crlf]. rewrite eol_here.
    destruct (char_eqb c LF).
    + f_equal. apply IH. simpl in Hn. lia.
    + destruct (char_eqb c CR).
      * destruct s' as [|d s'']; [apply IH; simpl in *; lia|].
        destruct (char_eqb d LF).
        -- f_equal. cbn [split_loop]. apply IH. simpl in Hn. lia.
        -- apply IH. simpl in *. lia.
      * apply IH. simpl in Hn. lia.
Qed.

Lemma split_eol (content : str) :
  String_split_re content (regex "\r?\n" "") = lines_lf_crlf [] content.
Proof.
  unfold String_split_re. rewrite eol_compiled.
  change (ignoreCase (regex "\r?\n" "")) with false.
  destruct content as [|c s].
  - unfold start_of. now rewrite eol_here.
  - apply (@split_loop_eol (length (c :: s)) (c :: s) 0%N None []). apply Nat.le_refl.
Qed.

(* ================================================================== *)
(** ** CSV: fields *)

Lemma raw_fields_cons (inQuote : bool) (line : str) :
  exists f fs, raw_fields inQuote line = f :: fs.
Proof.
  revert inQuote. induction line as [|c l IH]; intros q; simpl.
  - eexists _, _; reflexivity.
  - destruct (char_eqb c DQUOTE); [apply IH|].
    destruct (char_eqb c COMMA && negb q); [eexists _, _; reflexivity|].
    destruct (IH q) as (f & fs & ->). eexists _, _; reflexivity.
Qed.

Lemma splitLine_loop (line : str) :
  forall (result : list str) (current : str) (inQuote : bool),
    (let '(r, c, _) := fold_left splitLine_step line (result, current, inQuote) in
     r ++ [String_trim c])
    = result ++ map String_trim (resume current (raw_fields inQuote line)).
Proof.
  induction line as [|c l IH]; intros result current q.
  - simpl. now rewrite app_nil_r.
  - cbn [fold_left raw_fields]. unfold splitLine_step at 2.
    destruct (char_eqb c DQUOTE); [apply IH|].
    destruct (char_eqb c COMMA && negb q).
    + rewrite IH. destruct (raw_fields_cons q l) as (f & fs & E). rewrite E.
      unfold resume. cbn [map app]. now rewrite app_nil_r, <- app_assoc.
    + rewrite IH. destruct (raw_fields_cons q l) as (f & fs & E). rewrite E.
      unfold resume. now rewrite <- app_assoc.
Qed.

Lemma splitLine_fields (line : str) :
  splitLine line = map String_trim (raw_fields false line).
Proof.
  unfold splitLine.
  etransitivity; [exact (splitLine_loop line [] [] false)|].
  destruct (raw_fields_cons false line) as (f & fs & ->). reflexivity.
Qed.

(** A row shorter than the header pushes to the leading columns only. *)
Lemma push_row_short (values headers : list str) :
  forall (idx : nat) (o : Columns),
    push_row values idx headers o
    = push_row values idx (firstn (length values - idx) headers) o.
Proof.
  induction headers as [|h hs IH]; intros idx o.
  - now rewrite firstn_nil.
  - destruct (nth_error values idx) as [v|] eqn:E.
    + assert (idx < length values) by (apply nth_error_Some; congruence).
      replace (length values - idx) with (S (length values - S idx)) by lia.
      cbn [firstn push_row]. rewrite E.
      destruct (push_to h v o) as [e|o']; [reflexivity|]. cbn [bind]. apply IH.
    + assert (length values <= idx) by (now apply nth_error_None).
      replace (length values - idx) with 0 by lia.
      cbn [firstn push_row]. rewrite E. unfold ret. cbn [bind].
      rewrite IH. replace (length values - S idx) with 0 by lia. reflexivity.
Qed.

(* ================================================================== *)
(** ** CSV: columns *)

Lemma keys_define (V : Type) (k k' : str) (v : V) (o : Props V) :
  In k (map fst (define_own k' v o)) <-> k = k' \/ In k (map fst o).
Proof.
  rewrite <- !has_own_keys, !has_own_get.
  destruct (str_eq_dec k k') as [->|N].
  - rewrite get_define_same. split; [now left | discriminate].
  - rewrite get_define_other by exact N. tauto.
Qed.

Lemma assign_all_get (h : str) (headers : list str) :
  h <> PROTO ->
  forall o,
    get_own h (own o) = Some [] \/ In h headers ->
    get_own h (own (fold_left (fun o h => assign_empty h o) headers o)) = Some [].
Proof.
  intros Hp. induction headers as [|h0 hs IH]; intros o H; simpl.
  - destruct H as [H|[]]. exact H.
  - apply IH. unfold assign_empty.
    destruct (str_eqb h0 PROTO) eqn:E0; simpl.
    + destruct H as [H|[H|H]]; [now left | | now right].
      apply str_eqb_eq in E0. congruence.
    + destruct (str_eq_dec h h0) as [->|N].
      * left. apply get_define_same.
      * rewrite get_define_other by exact N.
        destruct H as [H|[H|H]]; [now left | congruence | now right].
Qed.

Lemma assign_all_keys (headers : list str) :
  forall o k,
    In k (map fst (own (fold_left (fun o h => assign_empty h o) headers o)))
    <-> In k (map fst (own o)) \/ (In k headers /\ k <> PROTO).
Proof.
  induction headers as [|h0 hs IH]; intros o k; simpl.
  - tauto.
  - rewrite IH. unfold assign_empty.
    destruct (str_eqb h0 PROTO) eqn:E0; simpl.
    + apply str_eqb_eq in E0. subst h0. intuition congruence.
    + apply str_eqb_neq in E0. rewrite keys_define. intuition congruence.
Qed.

Lemma assign_all_NoDup (headers : list str) :
  forall o,
    NoDup (map fst (own o)) ->
    NoDup (map fst (own (fold_left (fun o h => assign_empty h o) headers o))).
Proof.
  induction headers as [|h0 hs IH]; intros o H; simpl; [exact H|].
  apply IH. unfold assign_empty. destruct (str_eqb h0 PROTO); simpl; [exact H|].
  now apply NoDup_define.
Qed.

Lemma push_to_get (h' v h : str) (o o' : Columns) :
  h <> PROTO ->
  push_to h' v o = inr o' ->
  get_own h (own o')
  = (if str_eqb h' h then option_map (fun l => l ++ [v]) (get_own h (own o))
     else get_own h (own o))
  /\ map fst (own o') = map fst (own o).
Proof.
  intros Hp. unfold push_to. destruct (str_eqb h' PROTO) eqn:E'.
  - apply str_eqb_eq in E'. subst h'.
    destruct (proto_array o); [|discriminate]. intros H. inversion H; subst.
    cbn [own]. split; [|reflexivity].
    destruct (str_eqb PROTO h) eqn:E; [|reflexivity].
    apply str_eqb_eq in E. congruence.
  - destruct (get_own h' (own o)) as [l|] eqn:Eg; [|discriminate].
    intros H. inversion H; subst. cbn [own]. split; [|apply keys_replace].
    destruct (str_eqb h' h) eqn:E.
    + apply str_eqb_eq in E. subst h'. rewrite Eg. cbn [option_map].
      apply get_replace_same. congruence.
    + apply str_eqb_neq in E. apply get_replace_other. congruence.
Qed.

Lemma push_row_get (values : list str) (h : str) (headers : list str) :
  h <> PROTO ->
  forall idx o o',
    push_row values idx headers o = inr o' ->
    get_own h (own o')
    = option_map (fun l => l ++ row_cells values idx headers h) (get_own h (own o))
    /\ map fst (own o') = map fst (own o).
Proof.
  intros Hp. induction headers as [|h' hs IH]; intros idx o o' H.
  - inversion H; subst. simpl. split; [|reflexivity].
    destruct (get_own h (own o')); simpl; [now rewrite app_nil_r | reflexivity].
  - cbn [push_row] in H.
    destruct (nth_error values idx) as [v|] eqn:En.
    + destruct (push_to h' v o) as [e|o1] eqn:E1; [discriminate|]. cbn [bind] in H.
      destruct (@push_to_get h' v h o o1 Hp E1) as (G1 & K1).
      destruct (IH _ _ _ H) as (G & K). split; [|congruence].
      rewrite G, G1. cbn [row_cells]. rewrite En.
      destruct (str_eqb h' h); destruct (get_own h (own o)); simpl;
        rewrite <- ?app_assoc; reflexivity.
    + unfold ret in H. cbn [bind] in H. destruct (IH _ _ _ H) as (G & K).
      split; [|exact K]. rewrite G. cbn [row_cells]. rewrite En.
      destruct (str_eqb h' h); reflexivity.
Qed.

Lemma push_rows_get (h : str) (headers : list str) (data : list str) :
  h <> PROTO ->
  forall o o',
    foldM (fun o line => push_row (splitLine line) 0 headers o) data o = inr o' ->
    get_own h (own o')
    = option_map (fun l => l ++ flat_map (fun line =>
                                 row_cells (splitLine line) 0 headers h) data)
                 (get_own h (own o))
    /\ map fst (own o') = map fst (own o).
Proof.
  intros Hp. induction data as [|line data IH]; intros o o' H.
  - inversion H; subst. simpl. split; [|reflexivity].
    destruct (get_own h (own o')); simpl; [now rewrite app_nil_r | reflexivity].
  - cbn [foldM] in H.
    destruct (push_row (splitLine line) 0 headers o) as [e|o1] eqn:E1;
      [discriminate|]. cbn [bind] in H.
    destruct (@push_row_get (splitLine line) h headers Hp 0 o o1 E1) as (G1 & K1).
    destruct (IH _ _ H) as (G & K). split; [|congruence].
    rewrite G, G1. cbn [flat_map].
    destruct (get_own h (own o)); simpl; [now rewrite <- app_assoc | reflexivity].
Qed.

(** The table [parseCSV] builds from a header line and data lines: one
    column for each distinct header name other than ["__proto__"], and
    in it, row after row, the cells of [row_cells]. *)
Lemma parseCSV_table (content header : str) (data : list str) :
  csv_lines content = header :: data ->
  exists t,
    parseCSV content = inr t
    /\ NoDup (Object_keys t)
    /\ (forall k, In k (Object_keys t) <-> In k (splitLine header) /\ k <> PROTO)
    /\ (forall h, In h (splitLine header) -> h <> PROTO ->
          get_own h t
          = Some (flat_map (fun line =>
                              row_cells (splitLine line) 0 (splitLine header) h)
                           data)).
Proof.
  intros El. destruct (parseCSV_returns content) as (t & Et). exists t.
  split; [exact Et|]. unfold parseCSV in Et. rewrite El in Et.
  set (headers := splitLine header) in *.
  set (o0 := fold_left (fun o h => assign_empty h o) headers empty_object) in *.
  destruct (foldM _ data o0) as [e|o'] eqn:Ef; [discriminate|].
  cbn [bind] in Et. inversion Et; subst t. clear Et.
  unfold Object_keys.
  assert (K : map fst (own o') = map fst (own o0)).
  { assert (Ha : lit "a" <> PROTO) by discriminate.
    exact (proj2 (@push_rows_get (lit "a") headers data Ha o0 o' Ef)). }
  split; [|split].
  - rewrite K. apply assign_all_NoDup. constructor.
  - intros k. rewrite K. unfold o0. rewrite assign_all_keys. simpl. tauto.
  - intros h Hin Hp.
    destruct (@push_rows_get h headers data Hp o0 o' Ef) as (G & _).
    rewrite G. unfold o0. rewrite assign_all_get; [reflexivity | exact Hp | now right].
Qed.

(* ================================================================== *)
(** ** CSV normalization as the specification words it *)

(** C6, as stated, fails on the code. A text whose only line ending is
    a carriage return is one line for [parseCSV], and two under any
    line-ending convention; and white space at the ends of a quoted
    field is trimmed although it stands inside the quotes. *)
Lemma parseCSV_claim_fails :
  csv_lines (lit "a" ++ [CR] ++ lit "1") = [lit "a" ++ [CR] ++ lit "1"]
  /\ filter (fun l => String_truthy (String_trim l))
            (lines_any_convention [] (lit "a" ++ [CR] ++ lit "1"))
     = [lit "a"; lit "1"]
  /\ parseCSV (lit "a" ++ [CR] ++ lit "1") = inr [(lit "a" ++ [CR] ++ lit "1", [])]
  /\ splitLine ([DQUOTE] ++ lit " x " ++ [DQUOTE]) = [lit "x"]
  /\ fields_trimmed_outside_quotes ([DQUOTE] ++ lit " x " ++ [DQUOTE]) = [lit " x "]
  /\ parseCSV (lit "a" ++ [LF; DQUOTE] ++ lit " x " ++ [DQUOTE])
     = inr [(lit "a", [lit "x"])].
Proof. repeat split; vm_compute; reflexivity. Qed.

(** C6, amended. Lines end at a line feed or at a carriage return
    followed by a line feed (a carriage return alone ends nothing);
    lines that are empty or white space only are discarded and the
    first line left is the header: every column is named by one of its
    fields, and every field other than ["__proto__"] names a column. In
    a line, a double quote switches
    the inside-quotes state and is dropped, a comma inside quotes is
    part of the field, and every field is trimmed at both ends once the
    quotes are gone, whether the white space stood inside quotes or
    not. A data row gives its values to the leading header positions it
    reaches and nothing to the others. The header [a,b] with the row
    [1,"x,y"] normalizes to [a = ["1"]], [b = ["x,y"]]. *)
Theorem parseCSV_normalization :
  (forall content,
     csv_lines content
     = filter (fun l => String_truthy (String_trim l)) (lines_lf_crlf [] content))
  /\ (forall line, splitLine line = map String_trim (raw_fields false line))
  /\ (forall values headers o,
        push_row values 0 headers o
        = push_row values 0 (firstn (length values) headers) o)
  /\ (forall content, csv_lines content = [] -> parseCSV content = inr [])
  /\ (forall content header data,
        csv_lines content = header :: data ->
        exists t,
          parseCSV content = inr t
          /\ (forall k, In k (Object_keys t)
                        <-> In k (splitLine header) /\ k <> PROTO)
          /\ (forall h, In h (splitLine header) -> h <> PROTO ->
                get_own h t
                = Some (flat_map (fun line =>
                                    row_cells (splitLine line) 0 (splitLine header) h)
                                 data)))
  /\ parseCSV (lit "a,b" ++ [LF] ++ lit "1," ++ [DQUOTE] ++ lit "x,y" ++ [DQUOTE])
     = inr [(lit "a", [lit "1"]); (lit "b", [lit "x,y"])].
Proof.
  split; [|split; [|split; [|split; [|split]]]].
  - intros content. unfold csv_lines. now rewrite split_eol.
  - apply splitLine_fields.
  - intros values headers o. rewrite push_row_short. now rewrite Nat.sub_0_r.
  - intros content H. unfold parseCSV. now rewrite H.
  - intros content header data H.
    destruct (parseCSV_table content H) as (t & Et & _ & Hk & Hc).
    exists t. auto.
  - vm_compute. reflexivity.
Qed.

Lemma parseCSV_normalization_witness :
  exists t,
    parseCSV (lit "a,b" ++ [LF] ++ lit "1") = inr t
    /\ (forall k, In k (Object_keys t) <-> In k [lit "a"; lit "b"] /\ k <> PROTO)
    /\ (forall h, In h [lit "a"; lit "b"] -> h <> PROTO ->
          get_own h t
          = Some (flat_map (fun line =>
                              row_cells (splitLine line) 0 [lit "a"; lit "b"] h)
                           [lit "1"])).
Proof.
  destruct parseCSV_normalization as (_ & _ & _ & _ & H & _).
  apply (H (lit "a,b" ++ [LF] ++ lit "1") (lit "a,b") [lit "1"]).
  vm_compute. reflexivity.
Defined.

(* ================================================================== *)
(** ** Repeated header names *)

(** C10. For every header name other than ["__proto__"], however often
    the header row repeats it, the table has exactly one column of that
    name, and each data row contributes to it its value at every
    position that carries the name, from left to right: with the header
    [a,a] and the one row [1,2] there is one column, of two values. The
    name ["__proto__"] is the exception: assigning it replaces the
    prototype of the table object instead of creating a column, so a
    header of that name, repeated or not, yields no column at all. *)
Theorem duplicate_header_columns (Number_toString : str -> str)
    (Number_truthy : str -> bool) :
  (forall content header data h,
     csv_lines content = header :: data ->
     In h (splitLine header) -> h <> PROTO ->
     exists t,
       parseCSV content = inr t
       /\ NoDup (Object_keys t)
       /\ In h (Object_keys t)
       /\ get_own h t
          = Some (flat_map (fun line =>
                              row_cells (splitLine line) 0 (splitLine header) h)
                           data))
  /\ (exists r,
        scanContent Number_toString Number_truthy catalog0
                    (lit "a,a" ++ [LF] ++ lit "1,2") (lit "data.csv")
        = inr (r, catalog0)
        /\ parseCSV (lit "a,a" ++ [LF] ++ lit "1,2") = inr [(lit "a", [lit "1"; lit "2"])]
        /\ columnsScanned r = 1
        /\ rowsScanned r = 2)
  /\ (exists r,
        scanContent Number_toString Number_truthy catalog0
                    (lit "__proto__,__proto__" ++ [LF] ++ lit "1,2") (lit "data.csv")
        = inr (r, catalog0)
        /\ parseCSV (lit "__proto__,__proto__" ++ [LF] ++ lit "1,2") = inr []
        /\ columnsScanned r = 0
        /\ rowsScanned r = 0).
Proof.
  split; [|split].
  - intros content header data h Hl Hin Hp.
    destruct (parseCSV_table content Hl) as (t & Et & Hn & Hk & Hc).
    exists t. repeat split; auto. apply Hk. now split.
  - eexists. split; [vm_compute; reflexivity|]. repeat split.
  - eexists. split; [vm_compute; reflexivity|]. repeat split.
Qed.

(* ================================================================== *)
(** ** [JSON_parse] is not limited by its fuel *)

Lemma skip_ws_le (s : str) : length (skip_ws s) <= length s.
Proof.
  induction s as [|c s IH]; simpl; [lia|].
  destruct (is_json_ws c); simpl; lia.
Qed.

Lemma read_string_lt (n : nat) :
  forall s acc t s',
    length s <= n -> read_string s acc = Some (t, s') -> length s' < length s.
Proof.
  induction n as [|n IH]; intros s acc t s' Hn H.
  - destruct s; [discriminate | simpl in Hn; lia].
  - destruct s as [|c s1]; [discriminate|]. cbn [read_string] in H.
    simpl in Hn.
    destruct (char_eqb c DQUOTE).
    { inversion H; subst. simpl. lia. }
    destruct (char_eqb c (ch "\")).
    + destruct s1 as [|e s2]; [discriminate|]. simpl in Hn.
      destruct (char_eqb e (ch "u")).
      * destruct s2 as [|h1 [|h2 [|h3 [|h4 s3]]]]; try discriminate.
        destruct (hex_value h1), (hex_value h2), (hex_value h3), (hex_value h4);
          try discriminate.
        apply IH in H; simpl in *; lia.
      * repeat match type of H with
               | (if ?b then _ else _) = _ => destruct b
               end; try discriminate; apply IH in H; simpl in *; lia.
    + destruct (c <? 32)%N; [discriminate|]. apply IH in H; simpl; lia.
Qed.

Lemma take_digits_le (s : str) :
  forall d r, take_digits s = (d, r) -> length r + length d = length s.
Proof.
  induction s as [|c s IH]; intros d r H; simpl in H.
  - inversion H. reflexivity.
  - destruct (is_digit c).
    + destruct (take_digits s) as [d' r'] eqn:E. inversion H; subst.
      specialize (IH _ _ eq_refl). simpl. lia.
    + inversion H; subst. simpl. lia.
Qed.

Lemma read_sign_le (s sign s1 : str) :
  read_sign s = (sign, s1) -> length s1 <= length s.
Proof.
  unfold read_sign. destruct s as [|c s0]; [intros H; inversion H; subst; simpl; lia|].
  destruct (char_eqb c (ch "-")); intros H; inversion H; subst; simpl; lia.
Qed.

Lemma read_int_lt (s int s2 : str) :
  read_int s = Some (int, s2) -> length s2 < length s.
Proof.
  unfold read_int. destruct s as [|c s0]; [discriminate|].
  destruct (char_eqb c (ch "0")); [intros H; inversion H; subst; simpl; lia|].
  destruct (is_digit c) eqn:Ed; [|discriminate].
  intros H. assert (Et : take_digits (c :: s0) = (int, s2)) by congruence.
  pose proof (take_digits_le _ Et) as Hl.
  simpl in Et. rewrite Ed in Et. destruct (take_digits s0). inversion Et; subst.
  simpl in *. lia.
Qed.

Lemma read_frac_le (s fr s3 : str) :
  read_frac s = Some (fr, s3) -> length s3 <= length s.
Proof.
  unfold read_frac. destruct s as [|c s0]; [intros H; inversion H; subst; simpl; lia|].
  destruct (char_eqb c (ch ".")); [|intros H; inversion H; subst; simpl; lia].
  destruct (take_digits s0) as [[|c0 l] r] eqn:Et; [discriminate|].
  intros H. inversion H; subst. pose proof (take_digits_le _ Et). simpl in *. lia.
Qed.

Lemma read_exp_sign_le (s sg s' : str) :
  read_exp_sign s = (sg, s') -> length s' <= length s.
Proof.
  unfold read_exp_sign.
  destruct s as [|g t]; [intros H; inversion H; subst; simpl; lia|].
  destruct (char_eqb g (ch "+") || char_eqb g (ch "-"));
    intros H; inversion H; subst; simpl; lia.
Qed.

Lemma read_exp_le (s ex s4 : str) :
  read_exp s = Some (ex, s4) -> length s4 <= length s.
Proof.
  unfold read_exp. destruct s as [|c s0]; [intros H; inversion H; subst; simpl; lia|].
  destruct (char_eqb c (ch "e") || char_eqb c (ch "E"));
    [|intros H; inversion H; subst; simpl; lia].
  destruct (read_exp_sign s0) as [sg s''] eqn:Eg.
  pose proof (read_exp_sign_le _ Eg) as Hs.
  destruct (take_digits s'') as [[|c0 l] r] eqn:Et; [discriminate|].
  intros H. inversion H; subst. pose proof (take_digits_le _ Et). simpl in *. lia.
Qed.

Lemma read_number_lt (s x s' : str) :
  read_number s = Some (x, s') -> length s' < length s.
Proof.
  unfold read_number. destruct (read_sign s) as [sign s1] eqn:E1.
  destruct (read_int s1) as [[int s2]|] eqn:E2; [|discriminate].
  destruct (read_frac s2) as [[fr s3]|] eqn:E3; [|discriminate].
  destruct (read_exp s3) as [[ex s4]|] eqn:E4; [|discriminate].
  intros H. inversion H; subst.
  pose proof (read_sign_le _ E1). pose proof (read_int_lt _ E2).
  pose proof (read_frac_le _ E3). pose proof (read_exp_le _ E4). lia.
Qed.

Lemma expect_le (w : str) : forall s s', expect w s = Some s' -> length s' <= length s.
Proof.
  induction w as [|a w IH]; intros s s' H; simpl in H.
  - inversion H; subst. lia.
  - destruct s as [|c s0]; [discriminate|].
    destruct (char_eqb a c); [|discriminate]. apply IH in H. simpl. lia.
Qed.

Ltac note_lengths :=
  repeat match goal with
         | E : skip_ws ?s = ?r |- _ =>
             assert (length r <= length s) by (rewrite <- E; apply skip_ws_le);
             revert E
         | E : read_string ?s ?a = Some (?t, ?r) |- _ =>
             assert (length r < length s)
               by (apply (@read_string_lt (length s) s a t r (Nat.le_refl _) E));
             revert E
         | E : read_number ?s = Some (?x, ?r) |- _ =>
             assert (length r < length s) by (apply (@read_number_lt s x r E));
             revert E
         | E : expect ?w ?s = Some ?r |- _ =>
             assert (length r <= length s) by (apply (@expect_le w s r E));
             revert E
         end;
  intros; simpl length in *.

Ltac replay :=
  repeat match goal with
         | E : ?x = _ |- context [match ?x with _ => _ end] => rewrite E
         | E : ?x = _ |- context [if ?x then _ else _] => rewrite E
         | E : ?x = _ |- context [option_map _ ?x] => rewrite E
         end.

(** A reading that succeeds consumes at least one unit, and succeeds
    with any fuel of twice the units consumed, or more. *)
Lemma read_fuel (n : nat) :
  (forall s v s',
     read_value n s = Some (v, s') ->
     length s' < length s
     /\ forall k, 2 * (length s - length s') <= k -> read_value k s = Some (v, s'))
  /\ (forall s vs s',
        read_elements n s = Some (vs, s') ->
        length s' < length s
        /\ forall k, 2 * (length s - length s') <= k ->
                     read_elements k s = Some (vs, s'))
  /\ (forall s ms s',
        read_members n s = Some (ms, s') ->
        length s' < length s
        /\ forall k, 2 * (length s - length s') <= k ->
                     read_members k s = Some (ms, s')).
Proof.
  induction n as [|n (IHv & IHe & IHm)]; [repeat split; discriminate|].
  split; [|split].
  - intros s v s' H. cbn [read_value] in H.
    destruct (skip_ws s) as [|c s1] eqn:E0; [discriminate|].
    destruct (char_eqb c (ch "{")) eqn:E1.
    { destruct (skip_ws s1) as [|d s2] eqn:E2; [discriminate|].
      destruct (char_eqb d (ch "}")) eqn:E3.
      - inversion H; subst. note_lengths. split; [lia|].
        intros k Hk. destruct k as [|k]; [lia|]. cbn [read_value]. now replay.
      - destruct (read_members n (d :: s2)) as [[ms s3]|] eqn:E4; [|discriminate].
        inversion H; subst. destruct (IHm _ _ _ E4) as (Hlt & Hf).
        note_lengths. split; [lia|].
        intros k Hk. destruct k as [|k]; [lia|]. cbn [read_value]. replay.
        rewrite Hf by (simpl length; lia). reflexivity. }
    destruct (char_eqb c (ch "[")) eqn:E2'.
    { destruct (skip_ws s1) as [|d s2] eqn:E2; [discriminate|].
      destruct (char_eqb d (ch "]")) eqn:E3.
      - inversion H; subst. note_lengths. split; [lia|].
        intros k Hk. destruct k as [|k]; [lia|]. cbn [read_value]. now replay.
      - destruct (read_elements n (d :: s2)) as [[vs s3]|] eqn:E4; [|discriminate].
        inversion H; subst. destruct (IHe _ _ _ E4) as (Hlt & Hf).
        note_lengths. split; [lia|].
        intros k Hk. destruct k as [|k]; [lia|]. cbn [read_value]. replay.
        rewrite Hf by (simpl length; lia). reflexivity. }
    destruct (char_eqb c DQUOTE) eqn:E3'.
    { destruct (read_string s1 []) as [[t s2]|] eqn:E4; [|discriminate].
      inversion H; subst. note_lengths. split; [lia|].
      intros k Hk. destruct k as [|k]; [lia|]. cbn [read_value]. now replay. }
    destruct (char_eqb c (ch "t")) eqn:E4'.
    { destruct (expect (lit "rue") s1) as [r|] eqn:E4; [|discriminate].
      cbn [option_map] in H. inversion H; subst. note_lengths. split; [lia|].
      intros k Hk. destruct k as [|k]; [lia|]. cbn [read_value]. now replay. }
    destruct (char_eqb c (ch "f")) eqn:E5'.
    { destruct (expect (lit "alse") s1) as [r|] eqn:E4; [|discriminate].
      cbn [option_map] in H. inversion H; subst. note_lengths. split; [lia|].
      intros k Hk. destruct k as [|k]; [lia|]. cbn [read_value]. now replay. }
    destruct (char_eqb c (ch "n")) eqn:E6'.
    { destruct (expect (lit "ull") s1) as [r|] eqn:E4; [|discriminate].
      cbn [option_map] in H. inversion H; subst. note_lengths. split; [lia|].
      intros k Hk. destruct k as [|k]; [lia|]. cbn [read_value]. now replay. }
    destruct (read_number (c :: s1)) as [[x s2]|] eqn:E4; [|discriminate].
    inversion H; subst. note_lengths. split; [lia|].
    intros k Hk. destruct k as [|k]; [lia|]. cbn [read_value]. now replay.
  - intros s vs s' H. cbn [read_elements] in H.
    destruct (read_value n s) as [[v s1]|] eqn:E0; [|discriminate].
    destruct (IHv _ _ _ E0) as (Hlt0 & Hf0).
    destruct (skip_ws s1) as [|c s2] eqn:E1; [discriminate|].
    destruct (char_eqb c (ch ",")) eqn:E2.
    + destruct (read_elements n s2) as [[vs' s3]|] eqn:E3; [|discriminate].
      inversion H; subst. destruct (IHe _ _ _ E3) as (Hlt & Hf).
      note_lengths. split; [lia|].
      intros k Hk. destruct k as [|k]; [lia|]. cbn [read_elements].
      rewrite Hf0 by lia. replay. rewrite Hf by lia. reflexivity.
    + destruct (char_eqb c (ch "]")) eqn:E3; [|discriminate].
      inversion H; subst. note_lengths. split; [lia|].
      intros k Hk. destruct k as [|k]; [lia|]. cbn [read_elements].
      rewrite Hf0 by lia. now replay.
  - intros s ms s' H. cbn [read_members] in H.
    destruct (skip_ws s) as [|q s1] eqn:E0; [discriminate|].
    destruct (char_eqb q DQUOTE) eqn:E1; [|discriminate].
    destruct (read_string s1 []) as [[key s2]|] eqn:E2; [|discriminate].
    destruct (skip_ws s2) as [|c s3] eqn:E3; [discriminate|].
    destruct (char_eqb c (ch ":")) eqn:E4; [|discriminate].
    destruct (read_value n s3) as [[v s4]|] eqn:E5; [|discriminate].
    destruct (IHv _ _ _ E5) as (Hlt0 & Hf0).
    destruct (skip_ws s4) as [|d s5] eqn:E6; [discriminate|].
    destruct (char_eqb d (ch ",")) eqn:E7.
    + destruct (read_members n s5) as [[ms' s6]|] eqn:E8; [|discriminate].
      inversion H; subst. destruct (IHm _ _ _ E8) as (Hlt & Hf).
      note_lengths. split; [lia|].
      intros k Hk. destruct k as [|k]; [lia|]. cbn [read_members]. replay.
      rewrite Hf0 by lia. replay. rewrite Hf by lia. reflexivity.
    + destruct (char_eqb d (ch "}")) eqn:E8; [|discriminate].
      inversion H; subst. note_lengths. split; [lia|].
      intros k Hk. destruct k as [|k]; [lia|]. cbn [read_members]. replay.
      rewrite Hf0 by lia. now replay.
Qed.

(** What any fuel reads, the fuel of [JSON_parse] reads: a SyntaxError
    of the model is never a lack of fuel. *)
Lemma JSON_parse_fuel (text : str) (fuel : nat) (r : JSON * str) :
  read_value fuel text = Some r ->
  read_value (2 * length text + 2) text = Some r.
Proof.
  destruct r as [v s']. intros H.
  destruct (read_fuel fuel) as (Hv & _). destruct (Hv _ _ _ H) as (_ & Hk).
  apply Hk. lia.
Qed.

(* ================================================================== *)
(** ** JSON normalization: shapes and empty tables *)

(** C7, as stated, fails on the code. [null] is not an object, yet for
    the rows [[null]] no empty table is returned: [parseJSON] throws.
    The single value [null] is not wrapped into a one-element array
    either: reading its [data] field throws. And for rows whose first
    element is an array (the specification speaks of arrays of objects)
    the table is not empty: [[["x"]]] gives the column [0]. None of the
    three texts holds a number, so the two number functions handed to
    [parseJSON] play no part. *)
Lemma parseJSON_claim_fails :
  JSON_parse (lit "[null]") = inr (JArray [JNull])
  /\ parseJSON (fun x => x) (fun _ => true) (lit "[null]") = inl TypeError
  /\ JSON_parse (lit "[[" ++ [DQUOTE] ++ lit "x" ++ [DQUOTE] ++ lit "]]")
     = inr (JArray [JArray [JString (lit "x")]])
  /\ parseJSON (fun x => x) (fun _ => true)
               (lit "[[" ++ [DQUOTE] ++ lit "x" ++ [DQUOTE] ++ lit "]]")
     = inr [(lit "0", [lit "x"])]
  /\ JSON_parse (lit "null") = inr JNull
  /\ parseJSON (fun x => x) (fun _ => true) (lit "null") = inl TypeError.
Proof. repeat split; vm_compute; reflexivity. Qed.

(** C7, amended. The rows are the parsed value itself when it is an
    array; for any other value but [null] they are its [data] field when
    that is neither missing nor [null], else its [rows] field when that
    is neither missing nor [null], else the one-element array of the
    value. So [{"data": [{"email":"a@b.com"}]}] normalizes to the same
    table as [[{"email":"a@b.com"}]]. When the rows are an empty array,
    or an array whose first element is a string, a number or a boolean,
    the table is empty; so it is when the rows are themselves a string,
    a number or a boolean. *)
Theorem parseJSON_normalization (Number_toString : str -> str)
    (Number_truthy : str -> bool) :
  (forall l, resolve_rows (JArray l) = inr (JArray l))
  /\ (forall data v,
        is_wrappable data ->
        non_nullish (property data (lit "data")) = Some v ->
        resolve_rows data = inr v)
  /\ (forall data v,
        is_wrappable data ->
        non_nullish (property data (lit "data")) = None ->
        non_nullish (property data (lit "rows")) = Some v ->
        resolve_rows data = inr v)
  /\ (forall data,
        is_wrappable data ->
        non_nullish (property data (lit "data")) = None ->
        non_nullish (property data (lit "rows")) = None ->
        resolve_rows data = inr (JArray [data]))
  /\ (parseJSON Number_toString Number_truthy
        (lit "{" ++ [DQUOTE] ++ lit "data" ++ [DQUOTE] ++ lit ": [{" ++ [DQUOTE]
         ++ lit "email" ++ [DQUOTE] ++ lit ":" ++ [DQUOTE] ++ lit "a@b.com"
         ++ [DQUOTE] ++ lit "}]}")
      = inr [(lit "email", [lit "a@b.com"])]
      /\ parseJSON Number_toString Number_truthy
           (lit "[{" ++ [DQUOTE] ++ lit "email" ++ [DQUOTE] ++ lit ":" ++ [DQUOTE]
            ++ lit "a@b.com" ++ [DQUOTE] ++ lit "}]")
         = inr [(lit "email", [lit "a@b.com"])])
  /\ (forall content data,
        JSON_parse content = inr data ->
        resolve_rows data = inr (JArray []) ->
        parseJSON Number_toString Number_truthy content = inr [])
  /\ (forall content data v rest,
        JSON_parse content = inr data ->
        resolve_rows data = inr (JArray (v :: rest)) ->
        is_primitive v ->
        parseJSON Number_toString Number_truthy content = inr [])
  /\ (forall content data rows,
        JSON_parse content = inr data ->
        resolve_rows data = inr rows ->
        is_primitive rows ->
        parseJSON Number_toString Number_truthy content = inr []).
Proof.
  split; [reflexivity|].
  split.
  { intros data v W H. unfold resolve_rows. rewrite H.
    destruct data; simpl in W; try contradiction; reflexivity. }
  split.
  { intros data v W H1 H2. unfold resolve_rows. rewrite H1, H2.
    destruct data; simpl in W; try contradiction; reflexivity. }
  split.
  { intros data W H1 H2. unfold resolve_rows. rewrite H1, H2.
    destruct data; simpl in W; try contradiction; reflexivity. }
  split; [split; vm_compute; reflexivity|].
  split; [|split].
  - intros content data Hp Hr. unfold parseJSON. rewrite Hp. cbn [bind].
    rewrite Hr. reflexivity.
  - intros content data v rest Hp Hr Hv. unfold parseJSON. rewrite Hp. cbn [bind].
    rewrite Hr. cbn [bind length_truthy ret negb orb first_row hd_error].
    destruct v; simpl in Hv; try contradiction; reflexivity.
  - intros content data rows Hp Hr Hv. unfold parseJSON. rewrite Hp. cbn [bind].
    rewrite Hr.
    destruct rows as [| | |[|c s]| |]; simpl in Hv; try contradiction; reflexivity.
Qed.

Lemma parseJSON_normalization_witness :
  parseJSON (fun x => x) (fun _ => true)
            (lit "[" ++ [DQUOTE] ++ lit "x" ++ [DQUOTE] ++ lit "]") = inr []
  /\ resolve_rows (JObject [(lit "rows", JArray [])]) = inr (JArray []).
Proof.
  destruct (parseJSON_normalization (fun x => x) (fun _ => true))
    as (_ & _ & H3 & _ & _ & _ & H7 & _).
  split.
  - apply (H7 (lit "[" ++ [DQUOTE] ++ lit "x" ++ [DQUOTE] ++ lit "]")
              (JArray [JString (lit "x")]) (JString (lit "x")) []).
    + vm_compute. reflexivity.
    + reflexivity.
    + exact I.
  - apply H3; [exact I | reflexivity | reflexivity].
Defined.

(* ================================================================== *)
(** * Further properties of the scan result *)

Lemma fold_max_spec (l : list (list str)) :
  forall a,
    let m := fold_left (fun total values => Nat.max total (length values)) l a in
    a <= m
    /\ Forall (fun v => length v <= m) l
    /\ (m = a \/ Exists (fun v => length v = m) l).
Proof.
  induction l as [|v l IH]; intros a; simpl.
  - split; [lia|]. split; [constructor | now left].
  - destruct (IH (Nat.max a (length v))) as (Ha & Hall & Hm).
    set (m := fold_left _ l _) in *.
    split; [lia|]. split; [constructor; [lia | exact Hall]|].
    destruct Hm as [Hm|Hm].
    + destruct (Nat.max_spec a (length v)) as [[_ E]|[_ E]]; rewrite E in Hm.
      * right. apply Exists_cons_hd. now symmetry.
      * now left.
    + right. now apply Exists_cons_tl.
Qed.

Lemma fold_max_perm (l l' : list (list str)) :
  Permutation l l' ->
  forall a, fold_left (fun total values => Nat.max total (length values)) l a
            = fold_left (fun total values => Nat.max total (length values)) l' a.
Proof.
  induction 1 as [|x l l' _ IH|x y l|l l' l'' _ IH1 _ IH2]; intros a; simpl.
  - reflexivity.
  - apply IH.
  - f_equal. lia.
  - now rewrite IH1.
Qed.

Lemma fold_maxRisk_perm (l l' : list ColumnFinding) :
  Permutation l l' ->
  forall a, fold_left (fun acc f => maxRisk acc (finding_risk f)) l a
            = fold_left (fun acc f => maxRisk acc (finding_risk f)) l' a.
Proof.
  induction 1 as [|x l l' _ IH|x y l|l l' l'' _ IH1 _ IH2]; intros a; simpl.
  - reflexivity.
  - apply IH.
  - f_equal. destruct a, (finding_risk x), (finding_risk y); reflexivity.
  - now rewrite IH1.
Qed.

Lemma overall_of_fold (found : list ColumnFinding) :
  overall_of found = fold_left (fun acc f => maxRisk acc (finding_risk f)) found LOW.
Proof. destruct found; reflexivity. Qed.

Lemma overall_of_perm (l l' : list ColumnFinding) :
  Permutation l l' -> overall_of l = overall_of l'.
Proof. intros H. rewrite !overall_of_fold. now apply fold_maxRisk_perm. Qed.

Lemma filter_length_perm {A : Type} (p : A -> bool) (l l' : list A) :
  Permutation l l' -> length (filter p l) = length (filter p l').
Proof.
  induction 1 as [|x l l' _ IH|x y l|l l' l'' _ IH1 _ IH2]; simpl.
  - reflexivity.
  - destruct (p x); simpl; now rewrite IH.
  - destruct (p x), (p y); reflexivity.
  - now rewrite IH1.
Qed.

Lemma nodup_length_perm (l l' : list str) :
  Permutation l l' ->
  length (nodup str_eq_dec l) = length (nodup str_eq_dec l').
Proof.
  intros H. apply Permutation_length. apply NoDup_Permutation.
  - apply NoDup_nodup.
  - apply NoDup_nodup.
  - intros x. rewrite !nodup_In. split; apply Permutation_in; [|symmetry]; exact H.
Qed.

Lemma summary_of_perm (l l' : list ColumnFinding) :
  Permutation l l' -> summary_of l = summary_of l'.
Proof.
  intros H. unfold summary_of.
  rewrite (filter_length_perm _ H).
  rewrite (nodup_length_perm (Permutation_map column H)).
  rewrite (Permutation_length H).
  destruct l as [|f l], l' as [|f' l']; try reflexivity.
  - apply Permutation_nil in H. discriminate.
  - symmetry in H. apply Permutation_nil in H. discriminate.
Qed.

(** X1. The order of the columns of a table changes nothing in the
    verdict: the scans of a table and of a rearrangement of it return
    the same findings up to order, the same overall risk, the same
    summary and the same row and column counts. *)
Theorem scanColumns_column_order (columns columns' : Table) (filePath : str) :
  Permutation columns columns' ->
  exists r r',
    scanColumns catalog0 columns filePath = inr (r, catalog0)
    /\ scanColumns catalog0 columns' filePath = inr (r', catalog0)
    /\ Permutation (findings r) (findings r')
    /\ overallRisk r = overallRisk r'
    /\ summary r = summary r'
    /\ rowsScanned r = rowsScanned r'
    /\ columnsScanned r = columnsScanned r'.
Proof.
  intros H.
  assert (Hf : Permutation (flat_map (column_findings catalog0) columns)
                           (flat_map (column_findings catalog0) columns'))
    by now apply Permutation_flat_map.
  eexists. eexists.
  split; [apply scanColumns_eq|]. split; [apply scanColumns_eq|].
  cbn [findings overallRisk summary rowsScanned columnsScanned].
  split; [exact Hf|].
  split; [now apply overall_of_perm|].
  split; [now apply summary_of_perm|].
  split.
  - apply fold_max_perm. unfold Object_values. now apply Permutation_map.
  - unfold Object_keys. rewrite !length_map. now apply Permutation_length.
Qed.

Lemma scanColumns_column_order_witness :
  exists r r',
    scanColumns catalog0
      [(lit "ssn", [lit "123"]); (lit "notes", [lit "a@b.com"; lit "x"])]
      (lit "t.csv") = inr (r, catalog0)
    /\ scanColumns catalog0
         [(lit "notes", [lit "a@b.com"; lit "x"]); (lit "ssn", [lit "123"])]
         (lit "t.csv") = inr (r', catalog0)
    /\ Permutation (findings r) (findings r')
    /\ overallRisk r = overallRisk r'
    /\ summary r = summary r'
    /\ rowsScanned r = rowsScanned r'
    /\ columnsScanned r = columnsScanned r'.
Proof.
  apply (@scanColumns_column_order
           [(lit "ssn", [lit "123"]); (lit "notes", [lit "a@b.com"; lit "x"])]
           [(lit "notes", [lit "a@b.com"; lit "x"]); (lit "ssn", [lit "123"])]
           (lit "t.csv")).
  apply perm_swap.
Defined.

(** X2. [rowsScanned] is the length of the longest column, counted in
    full and not only over the 200 values the content pass samples: no
    column is longer, some column is that long unless the table is
    empty, and an empty table has zero rows. [columnsScanned] is the
    number of columns. *)
Theorem rowsScanned_longest_column (columns : Table) (filePath : str) :
  exists r,
    scanColumns catalog0 columns filePath = inr (r, catalog0)
    /\ columnsScanned r = length columns
    /\ (forall k values, In (k, values) columns -> length values <= rowsScanned r)
    /\ (columns = [] -> rowsScanned r = 0)
    /\ (columns <> [] ->
        exists k values, In (k, values) columns /\ length values = rowsScanned r).
Proof.
  eexists. split; [apply scanColumns_eq|].
  cbn [rowsScanned columnsScanned].
  destruct (fold_max_spec (Object_values columns) 0) as (_ & Hall & Hm).
  set (m := fold_left _ (Object_values columns) 0) in *.
  split; [unfold Object_keys; apply length_map|].
  split; [|split].
  - intros k values Hin. rewrite Forall_forall in Hall. apply Hall.
    unfold Object_values. apply in_map_iff. now exists (k, values).
  - intros ->. reflexivity.
  - intros Hne. destruct Hm as [Hm|Hm].
    + destruct columns as [|[k values] columns]; [congruence|].
      exists k, values. split; [now left|].
      rewrite Forall_forall in Hall.
      assert (length values <= m) by (apply Hall; now left). lia.
    + apply Exists_exists in Hm. destruct Hm as (v & Hin & Hv).
      unfold Object_values in Hin. apply in_map_iff in Hin.
      destruct Hin as ([k values] & E & Hin). simpl in E. subst v.
      now exists k, values.
Qed.

Lemma name_pass_in (rules : list ColumnNameRule) (col : str)
    (values : list str) (f : ColumnFinding) :
  In f (fst (name_pass rules col values)) ->
  exists r, In r rules /\ rule_hits r col = true /\ f = name_finding r col values.
Proof.
  induction rules as [|r rules IH]; simpl; [intros []|].
  destruct (RegExp_test (rule_pattern r) col) as [[|] R'] eqn:E; simpl.
  - intros [<-|[]]. exists r. split; [now left|].
    split; [unfold rule_hits; now rewrite E | reflexivity].
  - destruct (name_pass rules col values) as [found rest']. intros Hin.
    destruct (IH Hin) as (x & Hx & Hh & Hf). exists x.
    split; [now right|]. split; assumption.
Qed.

Lemma redact_length (value out : str) :
  redact value = inr out -> 4 <= length out <= 12.
Proof.
  destruct (Nat.le_gt_cases (length value) 4) as [H|H].
  - rewrite (redact_short value H). intros E. injection E as <-. simpl. lia.
  - rewrite (redact_long value H). intros E.
    assert (Eo : out = firstn 2 value ++ repeat STAR (Nat.min (length value - 4) 8)
                       ++ skipn (length value - 2) value) by congruence.
    rewrite Eo.
    rewrite !length_app, repeat_length, length_firstn, length_skipn. lia.
Qed.

Lemma redact_all_length (l out : list str) :
  mapM redact l = inr out ->
  length out = length l /\ Forall (fun s => 4 <= length s <= 12) out.
Proof.
  intros H. apply mapM_inr in H.
  induction H as [|v s l out Hv _ IH]; [split; [reflexivity | constructor]|].
  destruct IH as (Hl & Hall). split; [simpl; now rewrite Hl|].
  constructor; [exact (@redact_length v s Hv) | exact Hall].
Qed.

Lemma content_findings_length (patterns : list PiiPattern) (col : str)
    (values : list str) :
  length (content_findings patterns col values) <= length patterns.
Proof.
  unfold content_findings, content_pass.
  destruct (mapM (content_finding col (sample_of values)) patterns) as [e|found] eqn:E;
    cbn [bind]; [simpl; lia|].
  unfold ret. apply mapM_inr in E.
  induction E as [|p l ps ls Hp _ IH]; [simpl; lia|].
  simpl. rewrite length_app.
  assert (length l <= 1); [|lia].
  unfold content_finding in Hp.
  destruct (String_matchAll (sample_of values) (pattern p)) as [e|ms];
    [discriminate|]. cbn [bind] in Hp.
  destruct (0 <? length ms).
  - destruct (mapM redact (Array_take 3 ms)) as [e|samples]; [discriminate|].
    cbn [bind] in Hp. inversion Hp. simpl. lia.
  - inversion Hp. simpl. lia.
Qed.

Lemma column_findings_ok (columns : Table) (k : str) (values : list str)
    (f : ColumnFinding) :
  In (k, values) columns ->
  In f (column_findings catalog0 (k, values)) ->
  finding_ok columns f.
Proof.
  intros Hin Hf. unfold column_findings in Hf. cbn [fst snd] in Hf.
  apply in_app_or in Hf. destruct Hf as [Hf|Hf].
  - apply name_pass_in in Hf. destruct Hf as (r & Hr & _ & ->).
    exists values. unfold name_finding.
    cbn [column finding_source sampleValues matchCount patternName finding_risk].
    split; [exact Hin|].
    split; [reflexivity|]. split; [reflexivity|].
    exists r. split; [exact Hr|]. split; reflexivity.
  - apply content_findings_spec in Hf.
    destruct Hf as (p & samples & Hp & Hs & Hm & ->).
    exists values.
    cbn [column finding_source sampleValues matchCount patternName finding_risk].
    split; [exact Hin|].
    apply redact_all_length in Hs. destruct Hs as (Hl & Hall).
    split; [lia|]. split; [|split; [exact Hall|]].
    + rewrite Hl. unfold Array_take. rewrite length_firstn. reflexivity.
    + exists p. split; [exact Hp|]. split; reflexivity.
Qed.

(** X3. Every finding of a scan is well formed. It names a column of
    the scanned table. A column-name finding has the label and risk of
    a rule of the catalog, no sample values, and a [matchCount] equal
    to the full length of its column (zero for an empty column). A
    content finding has the name and risk of a content pattern, a
    [matchCount] of at least one, and as sample values the first three
    matches or fewer, each redacted to between 4 and 12 units. A
    column takes part in at most eleven findings: one by name and one
    for each of the ten content patterns. *)
Theorem findings_well_formed (columns : Table) (filePath : str) :
  exists r,
    scanColumns catalog0 columns filePath = inr (r, catalog0)
    /\ Forall (finding_ok columns) (findings r)
    /\ length (findings r) <= 11 * length columns.
Proof.
  eexists. split; [apply scanColumns_eq|]. cbn [findings]. split.
  - apply Forall_forall. intros f Hf. apply in_flat_map in Hf.
    destruct Hf as ([k values] & Hin & Hf).
    now apply (column_findings_ok columns k values).
  - induction columns as [|[k values] columns IH]; [simpl; lia|].
    cbn [flat_map length]. rewrite length_app.
    assert (length (column_findings catalog0 (k, values)) <= 11); [|lia].
    unfold column_findings. cbn [fst snd]. rewrite length_app.
    pose proof (name_pass_at_most_one (columnNameRules catalog0) k values).
    pose proof (content_findings_length (piiPatterns catalog0) k values) as Hc.
    change (length (piiPatterns catalog0)) with 10 in Hc. lia.
Qed.

Lemma Exists_high_filter (found : list ColumnFinding) :
  Exists (fun f => finding_risk f = HIGH) found <->
  0 < length (filter (fun f => RiskLevel_eqb (finding_risk f) HIGH) found).
Proof.
  induction found as [|f found IH]; simpl.
  - split; [intros H; inversion H | lia].
  - split.
    + intros H. inversion H as [? ? Hf|? ? Ht]; subst.
      * rewrite Hf. simpl. lia.
      * destruct (RiskLevel_eqb (finding_risk f) HIGH); simpl; [lia|].
        now apply IH.
    + destruct (finding_risk f) eqn:E; simpl.
      * intros _. now apply Exists_cons_hd.
      * intros H. apply Exists_cons_tl. now apply IH.
      * intros H. apply Exists_cons_tl. now apply IH.
Qed.

Lemma overall_high_iff (found : list ColumnFinding) :
  overall_of found = HIGH <-> Exists (fun f => finding_risk f = HIGH) found.
Proof.
  destruct (overall_of_ok found) as (Hlow & Hg).
  destruct found as [|f found].
  - split; [discriminate | intros H; inversion H].
  - destruct (Hg ltac:(discriminate)) as (Hex & Hall). split.
    + intros E. now rewrite E in Hex.
    + intros H. apply Exists_exists in H. destruct H as (x & Hin & Hx).
      rewrite Forall_forall in Hall. specialize (Hall x Hin). rewrite Hx in Hall.
      destruct (overall_of (f :: found)); simpl in Hall; (reflexivity || contradiction).
Qed.

(** X4. The summary sentence agrees with the rest of the result. With
    no finding it is the fixed no-PII sentence. Otherwise it prints the
    number of findings and the number of distinct columns they name,
    which is at least one, at most the number of findings and at most
    [columnsScanned]; and it has the HIGH clause, with a count of at
    least one, exactly when [overallRisk] is HIGH. *)
Theorem summary_consistent (columns : Table) (filePath : str) :
  exists r,
    scanColumns catalog0 columns filePath = inr (r, catalog0)
    /\ (findings r = [] ->
        summary r = lit "No PII patterns detected. Review manually before use.")
    /\ (findings r <> [] ->
        summary r
        = Number_show (finding_count r) ++ lit " potential PII finding(s) across "
          ++ Number_show (flagged_columns r) ++ lit " column(s). "
          ++ (if RiskLevel_eqb (overallRisk r) HIGH
              then Number_show (high_count r) ++ lit " HIGH risk. " else [])
          ++ lit "Do not use this dataset in lower environments without synthetic replacement.")
    /\ (findings r <> [] -> 1 <= flagged_columns r)
    /\ flagged_columns r <= finding_count r
    /\ flagged_columns r <= columnsScanned r
    /\ (overallRisk r = HIGH <-> 1 <= high_count r).
Proof.
  eexists. split; [apply scanColumns_eq|].
  unfold finding_count, flagged_columns, high_count.
  cbn [findings summary overallRisk columnsScanned].
  set (found := flat_map (column_findings catalog0) columns).
  assert (Hh : overall_of found = HIGH <->
               1 <= length (filter (fun f => RiskLevel_eqb (finding_risk f) HIGH) found)).
  { rewrite overall_high_iff. apply Exists_high_filter. }
  split; [intros ->; reflexivity|].
  split; [|split; [|split; [|split; [|exact Hh]]]].
  - intros Hne. unfold summary_of.
    destruct found as [|f found'] eqn:Ef; [congruence|]. rewrite <- Ef in *.
    do 4 f_equal.
    destruct (overall_of found) eqn:Eo; cbn [RiskLevel_eqb].
    + destruct Hh as (Hh & _). specialize (Hh eq_refl).
      destruct (Nat.ltb_spec 0 (length (filter (fun f0 => RiskLevel_eqb (finding_risk f0) HIGH) found)));
        [reflexivity | lia].
    + destruct (Nat.ltb_spec 0 (length (filter (fun f0 => RiskLevel_eqb (finding_risk f0) HIGH) found)));
        [|reflexivity].
      destruct Hh as (_ & Hh). specialize (Hh ltac:(lia)). discriminate.
    + destruct (Nat.ltb_spec 0 (length (filter (fun f0 => RiskLevel_eqb (finding_risk f0) HIGH) found)));
        [|reflexivity].
      destruct Hh as (_ & Hh). specialize (Hh ltac:(lia)). discriminate.
  - intros Hne. destruct found as [|f found']; [congruence|].
    assert (Hin : In (column f) (nodup str_eq_dec (map column (f :: found'))))
      by (apply nodup_In; now left).
    destruct (nodup str_eq_dec (map column (f :: found'))); [destruct Hin | simpl; lia].
  - etransitivity; [|apply Nat.eq_le_incl, (length_map column)].
    apply NoDup_incl_length; [apply NoDup_nodup|].
    intros x Hx. now apply nodup_In in Hx.
  - unfold Object_keys.
    apply NoDup_incl_length; [apply NoDup_nodup|].
    intros x Hx. apply nodup_In in Hx. apply in_map_iff in Hx.
    destruct Hx as (f & <- & Hf). subst found. apply in_flat_map in Hf.
    destruct Hf as ([k values] & Hin & Hf).
    destruct (@column_findings_ok columns k values f Hin Hf) as (vs & Hc & _).
    apply in_map_iff. now exists (column f, vs).
Qed.

(* ================================================================== *)
(** * The command line *)

(** ** Grouping by column *)

Lemma distinct_In (l : list str) (x : str) : In x (distinct l) <-> In x l.
Proof.
  induction l as [|k l IH]; simpl; [tauto|].
  rewrite filter_In, IH. destruct (str_eqb x k) eqn:E.
  - apply str_eqb_eq in E. subst. simpl. intuition congruence.
  - apply str_eqb_neq in E. simpl. intuition congruence.
Qed.

Lemma distinct_NoDup (l : list str) : NoDup (distinct l).
Proof.
  induction l as [|k l IH]; simpl; constructor.
  - rewrite filter_In. rewrite str_eqb_refl. simpl. intros [_ H]. discriminate.
  - now apply NoDup_filter.
Qed.

Lemma distinct_snoc (l : list str) (k : str) :
  distinct (l ++ [k]) = if in_dec str_eq_dec k l then distinct l else distinct l ++ [k].
Proof.
  induction l as [|a l IH]; simpl.
  - reflexivity.
  - rewrite IH. destruct (str_eq_dec a k) as [->|N].
    + destruct (in_dec str_eq_dec k l); [reflexivity|].
      rewrite filter_app. simpl. rewrite str_eqb_refl. simpl.
      now rewrite app_nil_r.
    + destruct (in_dec str_eq_dec k l) as [H|H]; [reflexivity|].
      rewrite filter_app. simpl.
      assert (E : str_eqb k a = false) by (apply str_eqb_neq; congruence).
      rewrite E. reflexivity.
Qed.

Lemma distinct_length (l : list str) :
  length (distinct l) = length (nodup str_eq_dec l).
Proof.
  apply Permutation_length. apply NoDup_Permutation.
  - apply distinct_NoDup.
  - apply NoDup_nodup.
  - intros x. now rewrite distinct_In, nodup_In.
Qed.

Lemma findings_of_app (k : str) (a b : list ColumnFinding) :
  findings_of k (a ++ b) = findings_of k a ++ findings_of k b.
Proof. apply filter_app. Qed.

Lemma findings_of_single (k : str) (f : ColumnFinding) :
  findings_of k [f] = if str_eqb (column f) k then [f] else [].
Proof. unfold findings_of. simpl. destruct (str_eqb (column f) k); reflexivity. Qed.

Lemma findings_of_absent (k : str) (found : list ColumnFinding) :
  ~ In k (map column found) -> findings_of k found = [].
Proof.
  intros H. apply filter_none. intros f Hf.
  apply str_eqb_neq. intros E. apply H. rewrite <- E. now apply in_map.
Qed.

Lemma findings_of_present (k : str) (found : list ColumnFinding) :
  In k (map column found) -> findings_of k found <> [].
Proof.
  intros H. apply in_map_iff in H. destruct H as (f & E & Hf).
  assert (Hin : In f (findings_of k found)).
  { apply filter_In. split; [exact Hf|]. rewrite E. apply str_eqb_refl. }
  intros E0. rewrite E0 in Hin. destruct Hin.
Qed.

Lemma foldM_app {A B : Type} (f : A -> B -> Exn A) (l l' : list B) (a : A) :
  foldM f (l ++ l') a = (a' <- foldM f l a ;; foldM f l' a').
Proof.
  revert a. induction l as [|b l IH]; intros a; simpl; [reflexivity|].
  destruct (f a b) as [e|a']; simpl; [reflexivity | apply IH].
Qed.

Lemma replace_own_keyed {V : Type} (g : str -> V) (k : str) (v : V) (ks : list str) :
  NoDup ks ->
  replace_own k v (map (fun x => (x, g x)) ks)
  = map (fun x => (x, if str_eqb x k then v else g x)) ks.
Proof.
  induction 1 as [|a ks Ha Hn IH]; simpl; [reflexivity|].
  destruct (str_eqb a k) eqn:E.
  - apply str_eqb_eq in E. subst a. f_equal. apply map_ext_in.
    intros x Hx. destruct (str_eqb x k) eqn:E; [|reflexivity].
    apply str_eqb_eq in E. subst x. contradiction.
  - f_equal. exact IH.
Qed.

Lemma get_own_keyed {V : Type} (g : str -> V) (k : str) (ks : list str) :
  get_own k (map (fun x => (x, g x)) ks) = if in_dec str_eq_dec k ks then Some (g k) else None.
Proof.
  induction ks as [|a ks IH]; simpl; [reflexivity|].
  destruct (str_eqb a k) eqn:E.
  - apply str_eqb_eq in E. subst a.
    destruct (str_eq_dec k k); [reflexivity | congruence].
  - apply str_eqb_neq in E. rewrite IH.
    destruct (str_eq_dec a k); [congruence|].
    destruct (in_dec str_eq_dec k ks); reflexivity.
Qed.

Lemma group_step_grouped (p : list ColumnFinding) (f : ColumnFinding) :
  group_step (grouped p) f = inr (grouped (p ++ [f])).
Proof.
  unfold group_step, grouped.
  rewrite map_app. cbn [map]. rewrite distinct_snoc.
  set (ks := distinct (map column p)).
  assert (Hk : has_own (column f) (map (fun k => (k, findings_of k p)) ks) = true
               <-> In (column f) (map column p)).
  { rewrite has_own_keys, map_map. cbn [fst]. rewrite map_id. apply distinct_In. }
  destruct (in_dec str_eq_dec (column f) (map column p)) as [Hin|Hin].
  - rewrite (proj2 Hk Hin).
    rewrite (@get_own_keyed _ (fun k => findings_of k p)).
    destruct (in_dec str_eq_dec (column f) ks) as [_|N];
      [|exfalso; apply N; now apply distinct_In].
    unfold ret. f_equal.
    rewrite (@replace_own_keyed _ (fun k => findings_of k p)) by apply distinct_NoDup.
    apply map_ext. intros k. f_equal. rewrite findings_of_app, findings_of_single.
    destruct (str_eqb k (column f)) eqn:E.
    + apply str_eqb_eq in E. subst k. rewrite str_eqb_refl. reflexivity.
    + assert (E' : str_eqb (column f) k = false).
      { apply str_eqb_neq. apply str_eqb_neq in E. congruence. }
      rewrite E'. now rewrite app_nil_r.
  - assert (E : has_own (column f) (map (fun k => (k, findings_of k p)) ks) = false).
    { destruct (has_own _ _); [|reflexivity]. exfalso. apply Hin. now apply Hk. }
    rewrite E. unfold Map_set. rewrite E.
    rewrite get_app.
    apply has_own_false in E. rewrite E. cbn [get_own]. rewrite str_eqb_refl.
    unfold ret. f_equal.
    rewrite map_app. cbn [map].
    assert (R : forall (o : Props (list ColumnFinding)) v v',
               get_own (column f) o = None ->
               replace_own (column f) v' (o ++ [(column f, v)]) = o ++ [(column f, v')]).
    { intros o v v'. induction o as [|[k0 v0] o IH]; simpl; intros H.
      - now rewrite str_eqb_refl.
      - destruct (str_eqb k0 (column f)); [discriminate|]. now rewrite IH. }
    rewrite R by exact E. f_equal.
    + apply map_ext_in. intros k Hk'. f_equal.
      rewrite findings_of_app, findings_of_single.
      destruct (str_eqb (column f) k) eqn:E'; [|now rewrite app_nil_r].
      apply str_eqb_eq in E'. subst k. exfalso. apply Hin.
      now apply distinct_In.
    + rewrite findings_of_app, (@findings_of_absent _ _ Hin), findings_of_single.
      now rewrite str_eqb_refl.
Qed.

Lemma byColumn_grouped (found : list ColumnFinding) :
  byColumn found = inr (grouped found).
Proof.
  unfold byColumn. induction found as [|f p IH] using rev_ind; [reflexivity|].
  rewrite foldM_app, IH. cbn [bind foldM].
  rewrite group_step_grouped. reflexivity.
Qed.

Lemma flat_map_split {A B : Type} (f g : A -> list B) (l : list A) :
  Permutation (flat_map (fun x => f x ++ g x) l) (flat_map f l ++ flat_map g l).
Proof.
  induction l as [|a l IH]; simpl; [constructor|].
  rewrite <- !app_assoc. apply Permutation_app_head.
  etransitivity; [apply Permutation_app_head, IH|].
  rewrite !app_assoc. apply Permutation_app_tail. apply Permutation_app_comm.
Qed.

Lemma flat_map_single (f : ColumnFinding) (ks : list str) :
  NoDup ks -> In (column f) ks ->
  flat_map (fun k => if str_eqb (column f) k then [f] else []) ks = [f].
Proof.
  induction 1 as [|a ks Ha Hn IH]; intros Hin; [destruct Hin|].
  simpl. destruct (str_eqb (column f) a) eqn:E.
  - apply str_eqb_eq in E. subst a. simpl. f_equal.
    clear IH Hin Hn. induction ks as [|b ks IH]; [reflexivity|].
    simpl. destruct (str_eqb (column f) b) eqn:E.
    + apply str_eqb_eq in E. subst b. exfalso. apply Ha. now left.
    + apply IH. intros H. apply Ha. now right.
  - destruct Hin as [->|Hin]; [rewrite str_eqb_refl in E; discriminate|].
    now apply IH.
Qed.

Lemma groups_partition (found : list ColumnFinding) (ks : list str) :
  NoDup ks -> incl (map column found) ks ->
  Permutation (flat_map (fun k => findings_of k found) ks) found.
Proof.
  intros Hn. induction found as [|f found IH]; intros Hi.
  - unfold findings_of. simpl. clear. induction ks; [constructor | exact IHks].
  - assert (E : flat_map (fun k => findings_of k (f :: found)) ks
                = flat_map (fun k => (if str_eqb (column f) k then [f] else [])
                                     ++ findings_of k found) ks).
    { apply flat_map_ext. intros k. unfold findings_of. cbn [filter].
      destruct (str_eqb (column f) k); reflexivity. }
    rewrite E. etransitivity; [apply flat_map_split|].
    rewrite flat_map_single; [|exact Hn | apply Hi; now left].
    simpl. constructor. apply IH. intros x Hx. apply Hi. now right.
Qed.

(** X5. Grouping the findings by column loses and repeats nothing. The
    loop never fails; it builds one group for each column that has a
    finding, in the order in which the columns first appear among the
    findings; the group of a column holds exactly the findings of that
    column, in their order, so no group is empty and the groups
    together are the findings rearranged. There are as many groups as
    the summary sentence counts columns. *)
Theorem byColumn_partition (found : list ColumnFinding) :
  exists groups,
    byColumn found = inr groups
    /\ Object_keys groups = distinct (map column found)
    /\ NoDup (Object_keys groups)
    /\ (forall k g, In (k, g) groups -> g = findings_of k found /\ g <> [])
    /\ Permutation (concat (Object_values groups)) found
    /\ length groups = length (nodup str_eq_dec (map column found)).
Proof.
  exists (grouped found). split; [apply byColumn_grouped|].
  assert (Hk : Object_keys (grouped found) = distinct (map column found)).
  { unfold Object_keys, grouped. rewrite map_map. cbn [fst]. apply map_id. }
  split; [exact Hk|].
  split; [rewrite Hk; apply distinct_NoDup|].
  split; [|split].
  - intros k g Hin. unfold grouped in Hin. apply in_map_iff in Hin.
    destruct Hin as (k' & E & Hin). inversion E; subst k' g.
    split; [reflexivity|]. apply findings_of_present. now apply distinct_In.
  - unfold Object_values, grouped. rewrite map_map. cbn [snd].
    rewrite <- flat_map_concat_map.
    apply groups_partition; [apply distinct_NoDup|].
    intros x Hx. now apply distinct_In.
  - unfold grouped. rewrite length_map. apply distinct_length.
Qed.

(** ** Sorting the column sections *)

Lemma riskOrder_maxRisk (a b : RiskLevel) :
  riskOrder (maxRisk a b) = Z.max (riskOrder a) (riskOrder b).
Proof. destruct a, b; reflexivity. Qed.

Lemma fold_max_riskOrder (g : list ColumnFinding) :
  forall a,
    fold_left Z.max (map (fun f => riskOrder (finding_risk f)) g) (riskOrder a)
    = riskOrder (fold_left (fun acc f => maxRisk acc (finding_risk f)) g a).
Proof.
  induction g as [|f g IH]; intros a; simpl; [reflexivity|].
  rewrite <- riskOrder_maxRisk. apply IH.
Qed.

Lemma Math_max_group (g : list ColumnFinding) :
  g <> [] ->
  Math_max (map (fun f => riskOrder (finding_risk f)) g)
  = Some (riskOrder (overall_of g)).
Proof.
  destruct g as [|f g]; [congruence|]. intros _.
  unfold overall_of. cbn [map Math_max fold_left]. f_equal.
  rewrite fold_max_riskOrder. f_equal.
  destruct (finding_risk f); reflexivity.
Qed.

Section SortByKey.

Variable A : Type.
Variable key : A -> Z.

Lemma sort_insert_skip (x : A) (a b : list A) :
  (forall y, In y a -> (key x < key y)%Z) ->
  sort_insert (by_key key) x (a ++ b) = a ++ sort_insert (by_key key) x b.
Proof.
  induction a as [|y a IH]; intros H; simpl; [reflexivity|].
  unfold by_key at 1.
  destruct (Z.ltb_spec 0 (key y - key x)) as [L|L].
  - f_equal. apply IH. intros z Hz. apply H. now right.
  - specialize (H y (or_introl eq_refl)). lia.
Qed.

Lemma sort_insert_top (x : A) (l : list A) :
  (forall y, In y l -> (key y <= key x)%Z) ->
  sort_insert (by_key key) x l = x :: l.
Proof.
  destruct l as [|y l]; intros H; simpl; [reflexivity|].
  unfold by_key.
  destruct (Z.ltb_spec 0 (key y - key x)) as [L|L]; [|reflexivity].
  specialize (H y (or_introl eq_refl)). lia.
Qed.

Lemma sort_by_three_keys (l : list A) :
  (forall x, In x l -> key x = 3 \/ key x = 2 \/ key x = 1)%Z ->
  Array_sort (by_key key) l
  = filter (fun x => key x =? 3)%Z l
    ++ filter (fun x => key x =? 2)%Z l
    ++ filter (fun x => key x =? 1)%Z l.
Proof.
  induction l as [|x l IH]; intros H; [reflexivity|].
  cbn [Array_sort fold_right]. fold (Array_sort (by_key key) l).
  rewrite IH by (intros y Hy; apply H; now right).
  assert (K : forall k y, In y (filter (fun x => key x =? k)%Z l) -> key y = k).
  { intros k y Hy. apply filter_In in Hy. destruct Hy as (_ & Hy). lia. }
  cbn [filter].
  destruct (H x (or_introl eq_refl)) as [E|[E|E]]; rewrite E; cbn [Z.eqb Pos.eqb].
  - apply sort_insert_top. intros y Hy.
    apply in_app_or in Hy. destruct Hy as [Hy|Hy]; [apply K in Hy; lia|].
    apply in_app_or in Hy. destruct Hy as [Hy|Hy]; apply K in Hy; lia.
  - rewrite sort_insert_skip by (intros y Hy; apply K in Hy; lia).
    f_equal. apply sort_insert_top. intros y Hy.
    apply in_app_or in Hy. destruct Hy as [Hy|Hy]; apply K in Hy; lia.
  - rewrite sort_insert_skip by (intros y Hy; apply K in Hy; lia).
    f_equal.
    rewrite sort_insert_skip by (intros y Hy; apply K in Hy; lia).
    f_equal. apply sort_insert_top. intros y Hy. apply K in Hy. lia.
Qed.

End SortByKey.

Lemma sort_insert_In {A : Type} (cmp : A -> A -> Z) (x y : A) (l : list A) :
  In y (sort_insert cmp x l) <-> y = x \/ In y l.
Proof.
  induction l as [|z l IH]; simpl; [intuition congruence|].
  destruct (0 <? cmp x z)%Z; simpl; rewrite ?IH; intuition congruence.
Qed.

Lemma Array_sort_In {A : Type} (cmp : A -> A -> Z) (y : A) (l : list A) :
  In y (Array_sort cmp l) <-> In y l.
Proof.
  induction l as [|x l IH]; simpl; [tauto|].
  rewrite sort_insert_In, IH. intuition congruence.
Qed.

Lemma sort_insert_ext {A : Type} (cmp cmp' : A -> A -> Z) (x : A) (l : list A) :
  (forall y, In y l -> cmp x y = cmp' x y) ->
  sort_insert cmp x l = sort_insert cmp' x l.
Proof.
  induction l as [|z l IH]; intros H; simpl; [reflexivity|].
  rewrite (H z (or_introl eq_refl)).
  destruct (0 <? cmp' x z)%Z; [|reflexivity].
  f_equal. apply IH. intros y Hy. apply H. now right.
Qed.

Lemma Array_sort_ext {A : Type} (cmp cmp' : A -> A -> Z) (l : list A) :
  (forall x y, In x l -> In y l -> cmp x y = cmp' x y) ->
  Array_sort cmp l = Array_sort cmp' l.
Proof.
  induction l as [|x l IH]; intros H; [reflexivity|].
  cbn [Array_sort fold_right]. fold (Array_sort cmp l) (Array_sort cmp' l).
  rewrite IH by (intros a b Ha Hb; apply H; now right).
  apply sort_insert_ext. intros y Hy. apply Array_sort_In in Hy.
  apply H; [now left | now right].
Qed.

Lemma colRisk_overall (found : list ColumnFinding) :
  colRisk found = overall_of found.
Proof.
  rewrite overall_of_fold. unfold colRisk. generalize LOW.
  induction found as [|f found IH]; intros a; simpl; [reflexivity|].
  rewrite IH. f_equal. destruct a, (finding_risk f); reflexivity.
Qed.

Lemma sort_groups (groups : Props (list ColumnFinding)) :
  (forall e, In e groups -> snd e <> []) ->
  Array_sort by_max_risk groups
  = at_level HIGH groups ++ at_level MEDIUM groups ++ at_level LOW groups.
Proof.
  intros Hne.
  rewrite (@Array_sort_ext _ by_max_risk
             (by_key (fun e => riskOrder (overall_of (snd e))))).
  - rewrite (@sort_by_three_keys _ (fun e => riskOrder (overall_of (snd e)))).
    + unfold at_level. f_equal; [|f_equal]; apply filter_ext; intros e;
        destruct (overall_of (snd e)); reflexivity.
    + intros e _. destruct (overall_of (snd e)); simpl; auto.
  - intros x y Hx Hy. unfold by_max_risk.
    rewrite (Math_max_group (Hne x Hx)), (Math_max_group (Hne y Hy)).
    reflexivity.
Qed.

Lemma grouped_nonempty (found : list ColumnFinding) (e : str * list ColumnFinding) :
  In e (grouped found) -> snd e = findings_of (fst e) found /\ snd e <> [].
Proof.
  unfold grouped. intros Hin. apply in_map_iff in Hin.
  destruct Hin as (k & <- & Hin). cbn [fst snd]. split; [reflexivity|].
  apply findings_of_present. now apply distinct_In.
Qed.

Lemma sections_eq (found : list ColumnFinding) :
  sections found
  = inr (map (tagged HIGH) (at_level HIGH (grouped found))
         ++ map (tagged MEDIUM) (at_level MEDIUM (grouped found))
         ++ map (tagged LOW) (at_level LOW (grouped found))).
Proof.
  unfold sections. rewrite byColumn_grouped. cbn [bind]. unfold ret. f_equal.
  rewrite sort_groups by (intros e He; now apply (grouped_nonempty found)).
  rewrite !map_app.
  assert (T : forall level,
            map (fun e : str * list ColumnFinding => (fst e, colRisk (snd e), snd e))
                (at_level level (grouped found))
            = map (tagged level) (at_level level (grouped found))).
  { intros level. apply map_ext_in. intros e He. unfold at_level in He.
    apply filter_In in He. destruct He as (_ & He). unfold tagged.
    rewrite colRisk_overall.
    destruct (overall_of (snd e)), level; simpl in He; congruence. }
  now rewrite !T.
Qed.

(** X6. The column sections are printed by decreasing risk: first the
    columns with a HIGH finding, then those whose worst finding is
    MEDIUM, then those with LOW findings only. Within a level the
    columns keep the order in which they first appear among the
    findings, each section lists the findings of its column in their
    order, and its badge is that level. No column of the findings is
    left out and none is printed twice. *)
Theorem sections_by_risk (found : list ColumnFinding) :
  exists groups,
    byColumn found = inr groups
    /\ sections found
       = inr (map (tagged HIGH) (at_level HIGH groups)
              ++ map (tagged MEDIUM) (at_level MEDIUM groups)
              ++ map (tagged LOW) (at_level LOW groups))
    /\ (forall s, sections found = inr s ->
          Permutation (map (fun x => (fst (fst x), snd x)) s) groups).
Proof.
  exists (grouped found). split; [apply byColumn_grouped|].
  split; [apply sections_eq|].
  intros s Hs. rewrite sections_eq in Hs. injection Hs as <-.
  rewrite !map_app, !map_map. unfold tagged. cbn [fst snd].
  assert (I : forall l : Props (list ColumnFinding),
            map (fun x => (fst x, snd x)) l = l).
  { intros l. rewrite <- (map_id l) at 2. apply map_ext. now intros []. }
  rewrite !I. unfold at_level.
  induction (grouped found) as [|e l IH]; [constructor|].
  cbn [filter]. destruct (overall_of (snd e)); cbn [RiskLevel_eqb].
  - simpl. now constructor.
  - etransitivity; [|apply perm_skip, IH].
    symmetry. apply Permutation_middle.
  - etransitivity; [|apply perm_skip, IH].
    symmetry. rewrite app_assoc. etransitivity; [apply Permutation_middle|].
    now rewrite app_assoc.
Qed.

(** X7. The badge of a section, which the command line computes with
    its own reduction, is the scanner's greatest risk of the section's
    findings. When there are findings, the first section printed
    carries the overall risk of the whole result. *)
Theorem colRisk_is_overall (found : list ColumnFinding) :
  colRisk found = overall_of found
  /\ (found <> [] -> greatest_risk (colRisk found) found)
  /\ (found <> [] ->
      exists first rest,
        sections found = inr (first :: rest)
        /\ snd (fst first) = overall_of found).
Proof.
  split; [apply colRisk_overall|].
  split; [rewrite colRisk_overall; apply overall_of_ok|].
  intros Hne. rewrite sections_eq.
  assert (Hg : forall f, In f found ->
            exists e, In e (grouped found) /\ In f (snd e)).
  { intros f Hf. exists (column f, findings_of (column f) found). split.
    - unfold grouped. apply in_map_iff. exists (column f). split; [reflexivity|].
      apply distinct_In. now apply in_map.
    - cbn [snd]. apply filter_In. split; [exact Hf | apply str_eqb_refl]. }
  assert (Hsub : forall e f, In e (grouped found) -> In f (snd e) -> In f found).
  { intros e f He Hf. destruct (grouped_nonempty found e He) as (E & _).
    rewrite E in Hf. apply filter_In in Hf. tauto. }
  assert (Hhigh : forall e, In e (grouped found) ->
            overall_of (snd e) = HIGH -> overall_of found = HIGH).
  { intros e He E. apply overall_high_iff in E. apply overall_high_iff.
    apply Exists_exists in E. destruct E as (f & Hf & Hr).
    apply Exists_exists. exists f. split; [now apply (Hsub e) | exact Hr]. }
  assert (Hlow : overall_of found = LOW ->
            forall e, In e (grouped found) -> overall_of (snd e) = LOW).
  { intros E e He. apply overall_of_ok. right.
    apply (proj1 (overall_of_ok found)) in E. destruct E as [E|E]; [congruence|].
    rewrite Forall_forall in E |- *. intros f Hf. apply E. now apply (Hsub e). }
  destruct (overall_of_ok found) as (_ & G). destruct (G Hne) as (Hex & Hall).
  apply Exists_exists in Hex. destruct Hex as (f & Hf & Hr).
  destruct (Hg f Hf) as (e & He & Hfe).
  assert (Ee : overall_of (snd e) = overall_of found \/ overall_of found <> HIGH).
  { destruct (overall_of found) eqn:Eo; [left | right; discriminate | right; discriminate].
    apply overall_high_iff. apply Exists_exists. now exists f. }
  assert (Nil : forall level,
            (forall e, In e (grouped found) -> overall_of (snd e) <> level) ->
            at_level level (grouped found) = []).
  { intros level H. apply filter_none. intros x Hx. specialize (H x Hx).
    destruct (overall_of (snd x)), level; simpl; congruence. }
  assert (Cons : forall level,
            In e (at_level level (grouped found)) ->
            exists x l, at_level level (grouped found) = x :: l).
  { intros level H. destruct (at_level level (grouped found)) as [|x l];
      [destruct H | now exists x, l]. }
  assert (In_level : In e (at_level (overall_of (snd e)) (grouped found))).
  { apply filter_In. split; [exact He|]. destruct (overall_of (snd e)); reflexivity. }
  destruct (overall_of found) eqn:Eo.
  - destruct Ee as [Ee|Ee]; [|congruence]. rewrite Ee in In_level.
    destruct (Cons HIGH In_level) as (x & l & ->).
    eexists. eexists. split; reflexivity.
  - rewrite (Nil HIGH) by (intros x Hx E; specialize (Hhigh x Hx E); congruence).
    assert (Em : overall_of (snd e) = MEDIUM).
    { destruct (overall_of (snd e)) eqn:E1; [| reflexivity |].
      - specialize (Hhigh e He E1). congruence.
      - apply (proj1 (overall_of_ok (snd e))) in E1.
        destruct E1 as [E1|E1]; [rewrite E1 in Hfe; destruct Hfe|].
        rewrite Forall_forall in E1. specialize (E1 f Hfe). congruence. }
    rewrite Em in In_level.
    destruct (Cons MEDIUM In_level) as (x & l & ->).
    eexists. eexists. split; reflexivity.
  - rewrite (Nil HIGH) by (intros x Hx E; rewrite (Hlow eq_refl x Hx) in E; discriminate).
    rewrite (Nil MEDIUM) by (intros x Hx E; rewrite (Hlow eq_refl x Hx) in E; discriminate).
    rewrite (Hlow eq_refl e He) in In_level.
    destruct (Cons LOW In_level) as (x & l & ->).
    eexists. eexists. split; reflexivity.
Qed.

(** ** The exit status *)



(** ** Options *)

Lemma find_skip {A : Type} (f : A -> bool) (a b : list A) (x : A) :
  f x = false -> find f (a ++ x :: b) = find f (a ++ b).
Proof.
  intros Hx. induction a as [|y a IH]; simpl; [now rewrite Hx|].
  destruct (f y); [reflexivity | exact IH].
Qed.

Lemma includes_skip (a b : list str) (x o : str) :
  o <> x -> Array_includes (a ++ o :: b) x = Array_includes (a ++ b) x.
Proof.
  intros Hx. unfold Array_includes. rewrite !existsb_app. cbn [existsb].
  assert (E : str_eqb x o = false) by (apply str_eqb_neq; congruence).
  now rewrite E.
Qed.

(** X18. An argument that starts with [--] and is neither [--json] nor
    [--help] changes nothing in what the program reads, reports and
    returns, wherever it stands among the arguments: a misspelt option
    is ignored without a word, and the options may come before or
    after the file. *)
Theorem unknown_options_ignored (resolve : str -> str)
    (readFileSync : str -> Exn str) (Number_toString : str -> str)
    (Number_truthy : str -> bool) (front back : list str) (opt : str) :
  String_startsWith opt (lit "--") = true ->
  opt <> lit "--json" ->
  opt <> lit "--help" ->
  main resolve readFileSync Number_toString Number_truthy (front ++ opt :: back)
  = main resolve readFileSync Number_toString Number_truthy (front ++ back).
Proof.
  intros Hd Hj Hh.
  assert (Nh : opt <> lit "-h").
  { intros ->. vm_compute in Hd. discriminate. }
  assert (Ef : filePath_of (front ++ opt :: back) = filePath_of (front ++ back)).
  { unfold filePath_of. apply find_skip. now rewrite Hd. }
  assert (Eh : help_requested (front ++ opt :: back) = help_requested (front ++ back)).
  { unfold help_requested. rewrite Ef.
    now rewrite (@includes_skip front back (lit "--help") opt Hh),
                (@includes_skip front back (lit "-h") opt Nh). }
  assert (Ej : jsonOutput (front ++ opt :: back) = jsonOutput (front ++ back)).
  { unfold jsonOutput. now apply includes_skip. }
  unfold main. now rewrite Eh, Ef, Ej.
Qed.

Lemma unknown_options_ignored_witness :
  main (fun p => p) (fun _ => inr (lit "ssn" ++ [LF] ++ lit "1"))
       (fun x => x) (fun _ => true)
       ([lit "--jsno"] ++ lit "--no-color" :: [lit "data.csv"])
  = main (fun p => p) (fun _ => inr (lit "ssn" ++ [LF] ++ lit "1"))
         (fun x => x) (fun _ => true)
         ([lit "--jsno"] ++ [lit "data.csv"]).
Proof.
  apply (@unknown_options_ignored (fun p => p)
           (fun _ => inr (lit "ssn" ++ [LF] ++ lit "1"))
           (fun x => x) (fun _ => true)
           [lit "--jsno"] [lit "data.csv"] (lit "--no-color")).
  - vm_compute. reflexivity.
  - discriminate.
  - discriminate.
Defined.

(* ================================================================== *)
(** * Further properties of the CSV reader *)

Lemma char_eqb_eq (a b : char) : char_eqb a b = true <-> a = b.
Proof. unfold char_eqb. apply N.eqb_eq. Qed.

Lemma char_eqb_neq (a b : char) : char_eqb a b = false <-> a <> b.
Proof. unfold char_eqb. apply N.eqb_neq. Qed.

Lemma raw_fields_run (q : bool) (f rest : str) :
  ~ In DQUOTE f -> (q = true \/ ~ In COMMA f) ->
  raw_fields q (f ++ rest) = resume f (raw_fields q rest).
Proof.
  induction f as [|c f IH]; intros Hq Hc.
  - simpl. destruct (raw_fields_cons q rest) as (x & fs & ->). reflexivity.
  - cbn [app raw_fields].
    assert (E1 : char_eqb c DQUOTE = false)
      by (apply char_eqb_neq; intros ->; apply Hq; now left).
    assert (E2 : char_eqb c COMMA && negb q = false).
    { destruct Hc as [->|Hc]; [apply andb_false_r|].
      apply andb_false_intro1. apply char_eqb_neq. intros ->. apply Hc. now left. }
    rewrite E1, E2, IH.
    + destruct (raw_fields_cons q rest) as (x & fs & ->). reflexivity.
    + intros H. apply Hq. now right.
    + destruct Hc as [Hc|Hc]; [now left|]. right. intros H. apply Hc. now right.
Qed.

Lemma raw_fields_quoted (f rest : str) :
  ~ In DQUOTE f ->
  raw_fields false (quoted f ++ rest) = resume f (raw_fields false rest).
Proof.
  intros Hq. unfold quoted. cbn [app raw_fields].
  change (char_eqb DQUOTE DQUOTE) with true. cbv iota.
  rewrite <- app_assoc. cbn [negb].
  rewrite raw_fields_run by (auto). cbn [app raw_fields].
  change (char_eqb DQUOTE DQUOTE) with true. reflexivity.
Qed.

Lemma raw_fields_join (enc : str -> str) (fields : list str) :
  (forall f rest, In f fields ->
     raw_fields false (enc f ++ rest) = resume f (raw_fields false rest)) ->
  fields <> [] ->
  raw_fields false (Array_join (map enc fields) [COMMA]) = fields.
Proof.
  induction fields as [|f fields IH]; intros H Hne; [congruence|].
  destruct fields as [|g fields].
  - cbn [map Array_join]. rewrite <- (app_nil_r (enc f)).
    rewrite H by now left. simpl. now rewrite app_nil_r.
  - change (Array_join (map enc (f :: g :: fields)) [COMMA])
      with (enc f ++ [COMMA] ++ Array_join (map enc (g :: fields)) [COMMA]).
    rewrite H by now left.
    cbn [app raw_fields]. change (char_eqb COMMA DQUOTE) with false.
    change (char_eqb COMMA COMMA) with true. cbn [andb negb].
    rewrite IH; [|intros f0 rest Hf; apply H; now right | discriminate].
    simpl. now rewrite app_nil_r.
Qed.

(** X9. Writing fields and reading them back. A line made of one or
    more fields, each written between double quotes and joined by
    commas, is split into exactly those fields, provided no field
    holds a double quote or has white space at its ends; commas inside
    the fields do no harm. Fields that hold no comma either can be
    written without the quotes. *)
Theorem splitLine_round_trip (fields : list str) :
  fields <> [] ->
  Forall (fun f => ~ In DQUOTE f /\ String_trim f = f) fields ->
  splitLine (Array_join (map quoted fields) [COMMA]) = fields
  /\ (Forall (fun f => ~ In COMMA f) fields ->
      splitLine (Array_join fields [COMMA]) = fields).
Proof.
  intros Hne Hall. rewrite Forall_forall in Hall.
  assert (Ht : map String_trim fields = fields).
  { rewrite <- (map_id fields) at 2. apply map_ext_in. intros f Hf.
    now apply Hall. }
  split.
  - rewrite splitLine_fields, raw_fields_join; [exact Ht | | exact Hne].
    intros f rest Hf. apply raw_fields_quoted. now apply Hall.
  - intros Hc. rewrite Forall_forall in Hc.
    rewrite <- (map_id fields) at 1.
    rewrite splitLine_fields, raw_fields_join; [exact Ht | | exact Hne].
    intros f rest Hf. apply raw_fields_run; [now apply Hall|].
    right. now apply Hc.
Qed.

Lemma splitLine_round_trip_witness :
  splitLine (Array_join (map quoted [lit "Doe, Jane"; lit "42"]) [COMMA])
  = [lit "Doe, Jane"; lit "42"]
  /\ (Forall (fun f => ~ In COMMA f) [lit "Doe, Jane"; lit "42"] ->
      splitLine (Array_join [lit "Doe, Jane"; lit "42"] [COMMA])
      = [lit "Doe, Jane"; lit "42"]).
Proof.
  apply (@splitLine_round_trip [lit "Doe, Jane"; lit "42"]).
  - discriminate.
  - repeat constructor; try reflexivity;
      (intros H; simpl in H; repeat (destruct H as [H|H]; [discriminate H|]);
       exact H).
Defined.

Lemma trimStart_suffix (s : str) : exists w, s = w ++ trimStart s.
Proof.
  induction s as [|c s (w & E)]; simpl; [now exists []|].
  destruct (is_whitespace c); [|now exists []].
  exists (c :: w). simpl. now rewrite <- E.
Qed.

Lemma trimStart_fixed (s : str) :
  match s with [] => True | c :: _ => is_whitespace c = false end ->
  trimStart s = s.
Proof. destruct s as [|c s]; simpl; [reflexivity|]. now intros ->. Qed.

Lemma trimStart_head (s : str) :
  match trimStart s with [] => True | c :: _ => is_whitespace c = false end.
Proof.
  induction s as [|c s IH]; simpl; [exact I|].
  destruct (is_whitespace c) eqn:E; [exact IH | exact E].
Qed.

Lemma trimStart_idem (s : str) : trimStart (trimStart s) = trimStart s.
Proof. apply trimStart_fixed, trimStart_head. Qed.

Lemma trimEnd_prefix (s : str) : exists w, s = trimEnd s ++ w.
Proof.
  unfold trimEnd. destruct (trimStart_suffix (rev s)) as (w & E).
  exists (rev w). rewrite <- rev_app_distr, <- E. now rewrite rev_involutive.
Qed.

Lemma String_trim_idem (s : str) : String_trim (String_trim s) = String_trim s.
Proof.
  unfold String_trim.
  assert (E : trimStart (trimEnd (trimStart s)) = trimEnd (trimStart s)).
  { apply trimStart_fixed.
    destruct (trimEnd_prefix (trimStart s)) as (w & Ew).
    pose proof (trimStart_head s) as Hh.
    destruct (trimEnd (trimStart s)) as [|c b]; [exact I|].
    rewrite Ew in Hh. exact Hh. }
  rewrite E. unfold trimEnd. rewrite rev_involutive. now rewrite trimStart_idem.
Qed.

Lemma String_trim_In (s : str) (c : char) : In c (String_trim s) -> In c s.
Proof.
  unfold String_trim. intros H.
  destruct (trimEnd_prefix (trimStart s)) as (w & Ew).
  destruct (trimStart_suffix s) as (w' & Ew').
  rewrite Ew'. apply in_or_app. right. rewrite Ew. apply in_or_app. now left.
Qed.

Lemma raw_fields_In (line : str) :
  forall (q : bool) (f : str) (c : char),
    In f (raw_fields q line) -> In c f -> In c line /\ c <> DQUOTE.
Proof.
  induction line as [|x l IH]; intros q f c Hf Hc.
  - simpl in Hf. destruct Hf as [<-|[]]. destruct Hc.
  - cbn [raw_fields] in Hf. destruct (char_eqb x DQUOTE) eqn:E1.
    + destruct (IH _ _ _ Hf Hc). split; [now right | assumption].
    + destruct (char_eqb x COMMA && negb q).
      * destruct Hf as [<-|Hf]; [destruct Hc|].
        destruct (IH _ _ _ Hf Hc). split; [now right | assumption].
      * destruct (raw_fields_cons q l) as (f0 & fs & E). rewrite E in Hf.
        assert (H0 : In f0 (raw_fields q l)) by (rewrite E; now left).
        assert (Hs : forall g, In g fs -> In g (raw_fields q l))
          by (intros g Hg; rewrite E; now right).
        destruct Hf as [<-|Hf].
        -- destruct Hc as [<-|Hc].
           ++ split; [now left | now apply char_eqb_neq].
           ++ destruct (IH q f0 c H0 Hc).
              split; [now right | assumption].
        -- destruct (IH q f c (Hs f Hf) Hc). split; [now right | assumption].
Qed.

Lemma lines_no_LF (n : nat) :
  forall (s cur line : str),
    length s <= n ->
    ~ In LF cur -> In line (lines_lf_crlf cur s) -> ~ In LF line.
Proof.
  induction n as [|n IH]; intros s cur line Hn Hcur Hin.
  - destruct s; [|simpl in Hn; lia].
    simpl in Hin. destruct Hin as [<-|[]]. intros H. apply Hcur. now apply in_rev.
  - assert (Hrev : ~ In LF (rev cur)) by (intros H; apply Hcur; now apply in_rev).
    assert (Hnil : ~ In LF (@nil char)) by (intros []).
    destruct s as [|c s].
    { simpl in Hin. destruct Hin as [<-|[]]. exact Hrev. }
    simpl in Hn. cbn [lines_lf_crlf] in Hin. destruct (char_eqb c LF) eqn:E1.
    + destruct Hin as [<-|Hin]; [exact Hrev|].
      apply (IH s [] line); [lia | exact Hnil | exact Hin].
    + assert (Hc : ~ In LF (c :: cur)).
      { intros [H|H]; [|contradiction]. apply char_eqb_neq in E1. congruence. }
      destruct (char_eqb c CR).
      * destruct s as [|d s'];
          [apply (IH [] (c :: cur) line); [simpl; lia | exact Hc | exact Hin]|].
        destruct (char_eqb d LF) eqn:E2.
        -- destruct Hin as [<-|Hin]; [exact Hrev|].
           apply (IH s' [] line); [simpl in Hn; lia | exact Hnil | exact Hin].
        -- apply (IH (d :: s') (c :: cur) line); [lia | exact Hc | exact Hin].
      * apply (IH s (c :: cur) line); [lia | exact Hc | exact Hin].
Qed.

Lemma csv_lines_no_LF (content line : str) :
  In line (csv_lines content) -> ~ In LF line.
Proof.
  unfold csv_lines. rewrite split_eol. intros H. apply filter_In in H.
  destruct H as (H & _).
  apply (@lines_no_LF (length content) content [] line); [lia | intros [] | exact H].
Qed.

Lemma splitLine_clean (line f : str) :
  ~ In LF line -> In f (splitLine line) -> clean_cell f.
Proof.
  intros Hl Hf. rewrite splitLine_fields in Hf. apply in_map_iff in Hf.
  destruct Hf as (f0 & <- & Hf0). unfold clean_cell.
  split; [|split].
  - intros H. apply String_trim_In in H.
    destruct (raw_fields_In _ _ _ _ Hf0 H) as (_ & N). congruence.
  - intros H. apply String_trim_In in H.
    destruct (raw_fields_In _ _ _ _ Hf0 H) as (N & _). contradiction.
  - apply String_trim_idem.
Qed.

Lemma row_cells_In (values : list str) (h v : str) (headers : list str) :
  forall idx, In v (row_cells values idx headers h) -> In v values.
Proof.
  induction headers as [|h' hs IH]; intros idx H; [destruct H|].
  cbn [row_cells] in H. apply in_app_or in H. destruct H as [H|H]; [|exact (IH _ H)].
  destruct (str_eqb h' h); [|destruct H].
  destruct (nth_error values idx) as [x|] eqn:E; [|destruct H].
  destruct H as [<-|[]]. exact (nth_error_In _ _ E).
Qed.

Lemma get_own_In {V : Type} (k : str) (v : V) (o : Props V) :
  NoDup (map fst o) -> In (k, v) o -> get_own k o = Some v.
Proof.
  induction o as [|[k0 v0] o IH]; intros Hn Hin; [destruct Hin|].
  inversion Hn as [|? ? Hk Hn']; subst. simpl.
  destruct Hin as [E|Hin].
  - inversion E; subst. now rewrite str_eqb_refl.
  - destruct (str_eqb k0 k) eqn:E.
    + apply str_eqb_eq in E. subst k0. exfalso. apply Hk.
      apply in_map_iff. now exists (k, v).
    + now apply IH.
Qed.

(** X10. Every table read from CSV is clean: no column name and no
    cell holds a double quote or a line feed, and none has white space
    at its ends. In particular a double quote written twice inside a
    quoted field, which stands for a double quote in the common CSV
    dialects, leaves no quote in the cell; and since a cell holds no
    line feed, the newline-joined sample the content pass scans has
    one line for each cell. *)
Theorem parseCSV_cells_clean (content : str) :
  exists t,
    parseCSV content = inr t
    /\ (forall k values, In (k, values) t ->
          clean_cell k /\ Forall clean_cell values)
    /\ parseCSV (lit "q" ++ [LF; DQUOTE] ++ lit "say " ++ [DQUOTE; DQUOTE]
                 ++ lit "hi" ++ [DQUOTE; DQUOTE; DQUOTE])
       = inr [(lit "q", [lit "say hi"])].
Proof.
  destruct (csv_lines content) as [|header data] eqn:El.
  - exists []. split; [unfold parseCSV; now rewrite El|].
    split; [intros k values []|vm_compute; reflexivity].
  - destruct (parseCSV_table content El) as (t & Et & Hn & Hk & Hc).
    exists t. split; [exact Et|]. split; [|vm_compute; reflexivity].
    intros k values Hin.
    assert (Hkey : In k (Object_keys t))
      by (unfold Object_keys; apply in_map_iff; now exists (k, values)).
    apply Hk in Hkey. destruct Hkey as (Hh & Hp).
    assert (Hline : forall line, In line (header :: data) -> ~ In LF line).
    { intros line Hl. apply (@csv_lines_no_LF content). now rewrite El. }
    split.
    + apply (@splitLine_clean header); [apply Hline; now left | exact Hh].
    + pose proof (@get_own_In _ k values t Hn Hin) as Eg.
      rewrite (Hc k Hh Hp) in Eg. injection Eg as <-.
      apply Forall_forall. intros v Hv. apply in_flat_map in Hv.
      destruct Hv as (line & Hl & Hv). apply row_cells_In in Hv.
      apply (@splitLine_clean line); [apply Hline; now right | exact Hv].
Qed.

Lemma row_cells_absent (values : list str) (h : str) (headers : list str) :
  ~ In h headers -> forall idx, row_cells values idx headers h = [].
Proof.
  induction headers as [|h' hs IH]; intros Hn idx; [reflexivity|].
  cbn [row_cells].
  assert (E : str_eqb h' h = false).
  { apply str_eqb_neq. intros ->. apply Hn. now left. }
  rewrite E. apply IH. intros H. apply Hn. now right.
Qed.

Lemma row_cells_once (values : list str) (h : str) (headers : list str) :
  NoDup headers -> forall idx, length (row_cells values idx headers h) <= 1.
Proof.
  induction 1 as [|h' hs Hh Hn IH]; intros idx; [simpl; lia|].
  cbn [row_cells]. destruct (str_eqb h' h) eqn:E.
  - apply str_eqb_eq in E. subst h'. rewrite (@row_cells_absent values h hs Hh).
    rewrite app_nil_r. destruct (nth_error values idx); simpl; lia.
  - apply IH.
Qed.

Lemma get_own_Some_In {V : Type} (k : str) (v : V) (o : Props V) :
  get_own k o = Some v -> In (k, v) o.
Proof.
  induction o as [|[k0 v0] o IH]; simpl; [discriminate|].
  destruct (str_eqb k0 k) eqn:E.
  - apply str_eqb_eq in E. subst k0. intros H. injection H as <-. now left.
  - intros H. right. now apply IH.
Qed.

Lemma splitLine_nonempty (line : str) : exists f fs, splitLine line = f :: fs.
Proof.
  rewrite splitLine_fields.
  destruct (raw_fields_cons false line) as (f & fs & ->).
  eexists _, _. reflexivity.
Qed.

Lemma flat_map_length_le {A B : Type} (f : A -> list B) (l : list A) (n : nat) :
  (forall a, In a l -> length (f a) <= n) ->
  length (flat_map f l) <= n * length l.
Proof.
  induction l as [|a l IH]; intros H; simpl; [lia|].
  rewrite length_app.
  assert (length (f a) <= n) by (apply H; now left).
  assert (length (flat_map f l) <= n * length l)
    by (apply IH; intros x Hx; apply H; now right).
  lia.
Qed.

Lemma flat_map_length_one {A B : Type} (f : A -> list B) (l : list A) :
  (forall a, In a l -> length (f a) = 1) ->
  length (flat_map f l) = length l.
Proof.
  induction l as [|a l IH]; intros H; simpl; [reflexivity|].
  rewrite length_app, (H a) by now left.
  rewrite IH; [reflexivity|]. intros x Hx. apply H. now right.
Qed.

(** X11. On a CSV file whose header names are distinct and do not
    include [__proto__], [rowsScanned] is the number of data lines,
    that is of lines after the header that are neither empty nor white
    space only, and [columnsScanned] is the number of header fields: a
    data line always has a first field, so the first column receives a
    value from every data line, and no column receives more than one
    value from a line. *)
Theorem csv_rows_counted (Number_toString : str -> str)
    (Number_truthy : str -> bool) (content filePath header : str)
    (data : list str) :
  String_endsWith filePath (lit ".json") = false ->
  csv_lines content = header :: data ->
  NoDup (splitLine header) ->
  ~ In PROTO (splitLine header) ->
  exists r,
    scanContent Number_toString Number_truthy catalog0 content filePath
    = inr (r, catalog0)
    /\ rowsScanned r = length data
    /\ columnsScanned r = length (splitLine header).
Proof.
  intros Hj El Hn Hp.
  destruct (parseCSV_table content El) as (t & Et & Hnt & Hk & Hc).
  unfold scanContent, normalize. rewrite Hj, Et. cbn [bind].
  eexists. split; [apply scanColumns_eq|]. cbn [rowsScanned columnsScanned].
  set (headers := splitLine header) in *.
  assert (Hh : forall h, In h headers -> h <> PROTO) by (intros h Hh ->; contradiction).
  split.
  - destruct (fold_max_spec (Object_values t) 0) as (_ & Hall & Hm).
    set (m := fold_left _ (Object_values t) 0) in *.
    assert (Hle : forall v, In v (Object_values t) -> length v <= length data).
    { intros v Hv. unfold Object_values in Hv. apply in_map_iff in Hv.
      destruct Hv as ([k v'] & E & Hin). simpl in E. subst v'.
      assert (Hkey : In k headers).
      { apply Hk. unfold Object_keys. apply in_map_iff. now exists (k, v). }
      pose proof (@get_own_In _ k v t Hnt Hin) as Eg.
      rewrite (Hc k Hkey (Hh k Hkey)) in Eg. injection Eg as <-.
      etransitivity; [apply (@flat_map_length_le _ _ _ data 1)|lia].
      intros line _. now apply row_cells_once. }
    destruct (splitLine_nonempty header) as (h0 & hs & Eh). fold headers in Eh.
    assert (H0 : In h0 headers) by (rewrite Eh; now left).
    pose proof (Hc h0 H0 (Hh h0 H0)) as E0.
    assert (L0 : length (flat_map (fun line => row_cells (splitLine line) 0 headers h0) data)
                 = length data).
    { apply flat_map_length_one. intros line _. rewrite Eh. cbn [row_cells].
      rewrite str_eqb_refl. rewrite Eh in Hn. inversion Hn as [|? ? Hh0 _]; subst.
      rewrite (@row_cells_absent (splitLine line) h0 hs Hh0), app_nil_r.
      destruct (splitLine_nonempty line) as (v0 & vs & ->). reflexivity. }
    apply get_own_Some_In in E0.
    assert (Hge : length data <= m).
    { rewrite <- L0. rewrite Forall_forall in Hall. apply Hall.
      unfold Object_values. apply in_map_iff.
      now exists (h0, flat_map (fun line => row_cells (splitLine line) 0 headers h0) data). }
    destruct Hm as [Hm|Hm]; [lia|].
    apply Exists_exists in Hm. destruct Hm as (v & Hv & Ev).
    specialize (Hle v Hv). lia.
  - apply Permutation_length. apply NoDup_Permutation; [exact Hnt | exact Hn|].
    intros k. rewrite Hk. split; [tauto|]. intros H. split; [exact H | now apply Hh].
Qed.

Lemma csv_rows_counted_witness :
  exists r,
    scanContent (fun x => x) (fun _ => true) catalog0
      (lit "id,name" ++ [LF] ++ lit "1,Ann" ++ [LF; LF] ++ lit "2" ++ [LF])
      (lit "people.csv")
    = inr (r, catalog0)
    /\ rowsScanned r = 2
    /\ columnsScanned r = 2.
Proof.
  apply (@csv_rows_counted (fun x => x) (fun _ => true)
           (lit "id,name" ++ [LF] ++ lit "1,Ann" ++ [LF; LF] ++ lit "2" ++ [LF])
           (lit "people.csv") (lit "id,name") [lit "1,Ann"; lit "2"]).
  - vm_compute. reflexivity.
  - vm_compute. reflexivity.
  - vm_compute. repeat constructor; simpl; intuition discriminate.
  - vm_compute. intuition discriminate.
Defined.

(* ================================================================== *)
(** * Further properties of the JSON reader *)

Lemma object_props_NoDup (ms : list (str * JSON)) :
  NoDup (map fst (object_props ms)).
Proof.
  unfold object_props.
  assert (G : forall o : Props JSON,
            NoDup (map fst o) ->
            NoDup (map fst (fold_left (fun o m => define_own (fst m) (snd m) o) ms o))).
  { induction ms as [|m ms IH]; intros o Ho; simpl; [exact Ho|].
    apply IH. now apply NoDup_define. }
  apply G. constructor.
Qed.

Lemma object_props_keys (ms : list (str * JSON)) (k : str) :
  In k (map fst (object_props ms)) <-> In k (map fst ms).
Proof.
  unfold object_props.
  assert (G : forall o : Props JSON,
            In k (map fst (fold_left (fun o m => define_own (fst m) (snd m) o) ms o))
            <-> In k (map fst o) \/ In k (map fst ms)).
  { induction ms as [|m ms IH]; intros o; simpl; [tauto|].
    rewrite IH, keys_define. intuition congruence. }
  rewrite G. simpl. tauto.
Qed.

(** One cell added to a table none of whose names is inherited. *)
Lemma add_cell_plain (nts : str -> str) (columns : Table) (k : str) (v : JSON)
    (s : str) :
  NoDup (map fst columns) ->
  ~ In k Object_prototype_names ->
  cell_text nts v = inr s ->
  exists t,
    add_cell nts columns (k, v) = inr t
    /\ NoDup (map fst t)
    /\ (forall x, In x (map fst t) <-> x = k \/ In x (map fst columns))
    /\ (forall x, cells_of t x
                  = cells_of columns x ++ (if str_eqb k x then [s] else [])).
Proof.
  intros Hn Hk Hs. unfold add_cell. rewrite Hs. cbn [bind].
  assert (Ek : existsb (str_eqb k) Object_prototype_names = false).
  { destruct (existsb (str_eqb k) Object_prototype_names) eqn:E; [|reflexivity].
    apply existsb_exists in E. destruct E as (x & Hx & E).
    apply str_eqb_eq in E. subst x. contradiction. }
  rewrite Ek, orb_false_r.
  set (columns1 := if has_own k columns then columns else define_own k [] columns).
  assert (H1 : NoDup (map fst columns1)
               /\ (forall x, In x (map fst columns1) <-> x = k \/ In x (map fst columns))
               /\ get_own k columns1 = Some (cells_of columns k)
               /\ (forall x, x <> k -> get_own x columns1 = get_own x columns)).
  { unfold columns1, cells_of. destruct (has_own k columns) eqn:Eh.
    - split; [exact Hn|]. split; [|split; [|reflexivity]].
      + intros x. apply has_own_keys in Eh. intuition congruence.
      + apply has_own_get in Eh. destruct (get_own k columns); [reflexivity | congruence].
    - split; [now apply NoDup_define|]. split; [|split].
      + intros x. apply keys_define.
      + rewrite get_define_same. apply has_own_false in Eh. now rewrite Eh.
      + intros x Hx. now apply get_define_other. }
  destruct H1 as (Hn1 & Hk1 & Hg1 & Ho1). rewrite Hg1.
  eexists. split; [reflexivity|]. split; [|split].
  - now rewrite keys_replace.
  - intros x. rewrite keys_replace. apply Hk1.
  - intros x. unfold cells_of at 1. destruct (str_eqb k x) eqn:E.
    + apply str_eqb_eq in E. subst x.
      rewrite get_replace_same by congruence. reflexivity.
    + apply str_eqb_neq in E.
      rewrite get_replace_other by congruence.
      rewrite Ho1 by congruence. unfold cells_of. now rewrite app_nil_r.
Qed.

Lemma add_cells_plain (nts : str -> str) (entries : Props JSON) :
  forall columns,
    NoDup (map fst columns) ->
    (forall k v, In (k, v) entries ->
       ~ In k Object_prototype_names /\ exists s, cell_text nts v = inr s) ->
    exists t,
      foldM (add_cell nts) entries columns = inr t
      /\ NoDup (map fst t)
      /\ (forall x, In x (map fst t) <-> In x (map fst entries) \/ In x (map fst columns))
      /\ (forall x, cells_of t x
                    = cells_of columns x
                      ++ flat_map (fun e => if str_eqb (fst e) x
                                            then [cell_of nts (snd e)] else [])
                                  entries).
Proof.
  induction entries as [|[k v] entries IH]; intros columns Hn Hp.
  - exists columns. split; [reflexivity|]. split; [exact Hn|].
    split; [simpl; tauto|]. intros x. simpl. now rewrite app_nil_r.
  - destruct (Hp k v (or_introl eq_refl)) as (Hk & s & Hs).
    destruct (@add_cell_plain nts columns k v s Hn Hk Hs) as (t1 & E1 & N1 & K1 & C1).
    destruct (IH t1 N1 (fun k' v' H => Hp k' v' (or_intror H))) as (t & E & N & K & C).
    exists t. cbn [foldM]. rewrite E1. cbn [bind].
    split; [exact E|]. split; [exact N|]. split.
    + intros x. rewrite K, K1. simpl. intuition congruence.
    + intros x. rewrite C, C1. cbn [flat_map fst snd]. rewrite <- app_assoc.
      f_equal. f_equal. unfold cell_of. rewrite Hs.
      destruct (str_eqb k x); reflexivity.
Qed.

Lemma flat_map_keyed (nts : str -> str) (entries : Props JSON) (x : str) :
  NoDup (map fst entries) ->
  flat_map (fun e => if str_eqb (fst e) x then [cell_of nts (snd e)] else []) entries
  = match get_own x entries with
    | Some v => [cell_of nts v]
    | None => []
    end.
Proof.
  induction entries as [|[k v] entries IH]; intros Hn; [reflexivity|].
  inversion Hn as [|? ? Hk Hn']; subst. cbn [flat_map get_own fst snd].
  destruct (str_eqb k x) eqn:E.
  - apply str_eqb_eq in E. subst x. simpl. f_equal.
    rewrite IH by exact Hn'.
    assert (Eg : get_own k entries = None).
    { apply has_own_false. destruct (has_own k entries) eqn:Eh; [|reflexivity].
      apply has_own_keys in Eh. contradiction. }
    now rewrite Eg.
  - simpl. now apply IH.
Qed.

Lemma rows_plain (nts : str -> str) (rows : list JSON) :
  forall columns,
    NoDup (map fst columns) ->
    Forall (plain_row nts) rows ->
    exists t,
      foldM (fun columns row =>
               entries <- Object_entries row ;;
               foldM (add_cell nts) entries columns) rows columns = inr t
      /\ NoDup (map fst t)
      /\ (forall x, In x (map fst t)
                    <-> Exists (fun row => json_cells nts x row <> []) rows
                        \/ In x (map fst columns))
      /\ (forall x, cells_of t x
                    = cells_of columns x ++ flat_map (json_cells nts x) rows).
Proof.
  induction rows as [|row rows IH]; intros columns Hn Hp.
  - exists columns. split; [reflexivity|]. split; [exact Hn|]. split.
    + intros x. split; [now right|]. intros [H|H]; [inversion H | exact H].
    + intros x. simpl. now rewrite app_nil_r.
  - inversion Hp as [|? ? Hrow Hrows]; subst.
    destruct row as [| | | | |ms]; try contradiction. cbn [plain_row] in Hrow.
    destruct (@add_cells_plain nts (object_props ms) columns Hn Hrow)
      as (t1 & E1 & N1 & K1 & C1).
    destruct (IH t1 N1 Hrows) as (t & E & N & K & C).
    exists t. cbn [foldM Object_entries]. unfold ret at 1. cbn [bind].
    rewrite E1. cbn [bind].
    split; [exact E|]. split; [exact N|].
    assert (Hkey : forall x, In x (map fst (object_props ms))
                             <-> json_cells nts x (JObject ms) <> []).
    { intros x. rewrite <- has_own_keys, has_own_get. cbn [json_cells].
      destruct (get_own x (object_props ms)); split; congruence. }
    split.
    + intros x. rewrite K, K1, Hkey. split.
      * intros [H|[H|H]]; [left; now apply Exists_cons_tl
                          | left; now apply Exists_cons_hd | now right].
      * intros [H|H]; [|now right; right].
        inversion H; subst; [right; now left | now left].
    + intros x. rewrite C, C1. rewrite <- app_assoc. f_equal.
      rewrite (@flat_map_keyed nts (object_props ms) x (object_props_NoDup ms)).
      reflexivity.
Qed.

(** X12. The table of a JSON array of objects. When every element is
    an object whose keys are none of the names objects inherit and
    whose values convert to strings, [parseJSON] returns a table with
    one column for each key that occurs in some row, and the column of
    a key holds, row after row, the text of the value each row gives
    to that key. A row without the key contributes nothing, so the
    values below it move up and columns may differ in length; [null]
    contributes the empty string. *)
Theorem parseJSON_columns (Number_toString : str -> str)
    (Number_truthy : str -> bool) (content : str) (row : JSON)
    (rows : list JSON) :
  JSON_parse content = inr (JArray (row :: rows)) ->
  Forall (plain_row Number_toString) (row :: rows) ->
  exists t,
    parseJSON Number_toString Number_truthy content = inr t
    /\ NoDup (Object_keys t)
    /\ (forall k, In k (Object_keys t)
                  <-> Exists (fun r => json_cells Number_toString k r <> [])
                             (row :: rows))
    /\ (forall k, In k (Object_keys t) ->
          get_own k t
          = Some (flat_map (json_cells Number_toString k) (row :: rows)))
    /\ json_cells Number_toString (lit "a") (JObject [(lit "a", JNull)]) = [[]]
    /\ json_cells Number_toString (lit "a") (JObject [(lit "b", JNull)]) = [].
Proof.
  intros Hparse Hp.
  destruct (@rows_plain Number_toString (row :: rows) [] (NoDup_nil _) Hp)
    as (t & E & N & K & C).
  exists t. unfold parseJSON. rewrite Hparse. cbn [bind resolve_rows].
  unfold ret at 1. cbn [bind length_truthy]. unfold ret at 1.
  cbn [bind negb orb first_row hd_error].
  assert (Ht : typeof_object (Some row) = true).
  { inversion Hp as [|? ? Hrow _]; subst.
    destruct row; try contradiction. reflexivity. }
  rewrite Ht. cbn [negb].
  split; [exact E|]. split; [exact N|]. split; [|split].
  - intros k. unfold Object_keys. rewrite K. simpl. tauto.
  - intros k Hk. specialize (C k). unfold cells_of in C. cbn [get_own app] in C.
    unfold Object_keys in Hk. apply has_own_keys, has_own_get in Hk.
    destruct (get_own k t); [now rewrite C | congruence].
  - split; reflexivity.
Qed.

Lemma parseJSON_columns_witness :
  exists t,
    parseJSON (fun x => x) (fun _ => true)
      (lit "[{" ++ [DQUOTE] ++ lit "a" ++ [DQUOTE] ++ lit ":1,"
       ++ [DQUOTE] ++ lit "b" ++ [DQUOTE] ++ lit ":null},{"
       ++ [DQUOTE] ++ lit "b" ++ [DQUOTE] ++ lit ":true}]") = inr t
    /\ NoDup (Object_keys t)
    /\ (forall k, In k (Object_keys t)
                  <-> Exists (fun r => json_cells (fun x => x) k r <> [])
                             [JObject [(lit "a", JNumber (lit "1")); (lit "b", JNull)];
                              JObject [(lit "b", JBool true)]])
    /\ (forall k, In k (Object_keys t) ->
          get_own k t
          = Some (flat_map (json_cells (fun x => x) k)
                    [JObject [(lit "a", JNumber (lit "1")); (lit "b", JNull)];
                     JObject [(lit "b", JBool true)]]))
    /\ json_cells (fun x => x) (lit "a") (JObject [(lit "a", JNull)]) = [[]]
    /\ json_cells (fun x => x) (lit "a") (JObject [(lit "b", JNull)]) = [].
Proof.
  apply (@parseJSON_columns (fun x => x) (fun _ => true)
           (lit "[{" ++ [DQUOTE] ++ lit "a" ++ [DQUOTE] ++ lit ":1,"
            ++ [DQUOTE] ++ lit "b" ++ [DQUOTE] ++ lit ":null},{"
            ++ [DQUOTE] ++ lit "b" ++ [DQUOTE] ++ lit ":true}]")
           (JObject [(lit "a", JNumber (lit "1")); (lit "b", JNull)])
           [JObject [(lit "b", JBool true)]]).
  - vm_compute. reflexivity.
  - apply Forall_cons; [|apply Forall_cons; [|apply Forall_nil]];
      intros k v Hin; vm_compute in Hin;
      repeat (destruct Hin as [Hin|Hin];
              [injection Hin as <- <-;
               split; [vm_compute; intuition discriminate
                      | eexists; reflexivity]|]);
      destruct Hin.
Defined.

Lemma add_cell_keys (nts : str -> str) (columns t : Table) (kv : str * JSON) :
  (forall x, In x (map fst columns) -> ~ In x Object_prototype_names) ->
  add_cell nts columns kv = inr t ->
  ~ In (fst kv) Object_prototype_names
  /\ (forall x, In x (map fst t) -> ~ In x Object_prototype_names).
Proof.
  intros Hc. destruct kv as [k v]. unfold add_cell. cbn [fst].
  destruct (cell_text nts v) as [e|s]; [discriminate|]. cbn [bind].
  destruct (existsb (str_eqb k) Object_prototype_names) eqn:Ek.
  - rewrite orb_true_r.
    assert (Hk : In k Object_prototype_names).
    { apply existsb_exists in Ek. destruct Ek as (x & Hx & E).
      apply str_eqb_eq in E. now subst x. }
    assert (Eg : get_own k columns = None).
    { apply has_own_false. destruct (has_own k columns) eqn:Eh; [|reflexivity].
      apply has_own_keys in Eh. exfalso. exact (Hc k Eh Hk). }
    rewrite Eg. discriminate.
  - assert (Hk : ~ In k Object_prototype_names).
    { intros H. assert (T : existsb (str_eqb k) Object_prototype_names = true).
      { apply existsb_exists. exists k. split; [exact H | apply str_eqb_refl]. }
      congruence. }
    rewrite orb_false_r.
    match goal with
    | |- context [get_own k ?c] => destruct (get_own k c) as [l|] eqn:Eg
    end; [|discriminate].
    intros E. injection E as <-. split; [exact Hk|].
    intros x. rewrite keys_replace. destruct (has_own k columns).
    + apply Hc.
    + rewrite keys_define. intros [->|H]; [exact Hk | now apply Hc].
Qed.

Lemma add_cells_inherited (nts : str -> str) (entries : Props JSON) (k : str) :
  In k (map fst entries) -> In k Object_prototype_names ->
  forall columns,
    (forall x, In x (map fst columns) -> ~ In x Object_prototype_names) ->
    exists e, foldM (add_cell nts) entries columns = inl e.
Proof.
  intros Hk Hp. induction entries as [|kv entries IH]; intros columns Hc;
    [destruct Hk|].
  cbn [foldM]. destruct (add_cell nts columns kv) as [e|t] eqn:E;
    [now exists e|]. cbn [bind].
  destruct (@add_cell_keys nts columns t kv Hc E) as (Hkv & Ht).
  apply IH; [|exact Ht].
  destruct Hk as [Hk|Hk]; [|exact Hk]. rewrite Hk in Hkv. contradiction.
Qed.

Lemma add_cells_keys (nts : str -> str) (entries : Props JSON) :
  forall columns t,
    (forall x, In x (map fst columns) -> ~ In x Object_prototype_names) ->
    foldM (add_cell nts) entries columns = inr t ->
    forall x, In x (map fst t) -> ~ In x Object_prototype_names.
Proof.
  induction entries as [|kv entries IH]; intros columns t Hc E.
  - injection E as <-. exact Hc.
  - cbn [foldM] in E. destruct (add_cell nts columns kv) as [e|t1] eqn:E1;
      [discriminate|]. cbn [bind] in E.
    destruct (@add_cell_keys nts columns t1 kv Hc E1) as (_ & Ht1).
    exact (IH t1 t Ht1 E).
Qed.

Lemma rows_inherited (nts : str -> str) (rows : list JSON) :
  Exists has_inherited_key rows ->
  forall columns,
    (forall x, In x (map fst columns) -> ~ In x Object_prototype_names) ->
    exists e,
      foldM (fun columns row =>
               entries <- Object_entries row ;;
               foldM (add_cell nts) entries columns) rows columns = inl e.
Proof.
  induction rows as [|row rows IH]; intros Hex columns Hc; [inversion Hex|].
  cbn [foldM].
  destruct (Object_entries row) as [e|entries] eqn:Ee; [now exists e|].
  cbn [bind].
  destruct (foldM (add_cell nts) entries columns) as [e|t] eqn:Et;
    [now exists e|]. cbn [bind].
  inversion Hex as [? ? Hrow|? ? Hrows]; subst.
  - exfalso. destruct row as [| | | | |ms]; try contradiction.
    destruct Hrow as (k & Hk & Hp). injection Ee as <-.
    apply object_props_keys in Hk.
    destruct (@add_cells_inherited nts (object_props ms) k Hk Hp columns Hc) as (e & E).
    congruence.
  - apply IH; [exact Hrows|]. exact (@add_cells_keys nts entries columns t Hc Et).
Qed.

(** X13. A JSON array in which some object has a member named as a
    property every object inherits ([constructor], [toString],
    [valueOf], [hasOwnProperty], [__proto__] and the like) is not read
    as a table: [parseJSON] throws, and [scanContent], given a path
    that ends in [.json], scans the file as the single column [_text]
    of its lines instead. *)
Theorem inherited_key_scanned_as_text (Number_toString : str -> str)
    (Number_truthy : str -> bool) (content filePath : str) (rows : list JSON) :
  String_endsWith filePath (lit ".json") = true ->
  JSON_parse content = inr (JArray rows) ->
  typeof_object (hd_error rows) = true ->
  Exists has_inherited_key rows ->
  (exists e, parseJSON Number_toString Number_truthy content = inl e)
  /\ scanContent Number_toString Number_truthy catalog0 content filePath
     = scanColumns catalog0 [(lit "_text", String_split content LF)] filePath.
Proof.
  intros Hj Hparse Hobj Hex.
  assert (E : exists e, parseJSON Number_toString Number_truthy content = inl e).
  { unfold parseJSON. rewrite Hparse. cbn [bind resolve_rows].
    unfold ret at 1. cbn [bind length_truthy]. unfold ret at 1. cbn [bind].
    destruct rows as [|row rows]; [inversion Hex|].
    cbn [first_row]. rewrite Hobj. cbn [negb orb].
    apply rows_inherited; [exact Hex | intros x []]. }
  split; [exact E|]. destruct E as (e & E).
  unfold scanContent, normalize. rewrite Hj, E. reflexivity.
Qed.

Lemma inherited_key_scanned_as_text_witness :
  (exists e,
     parseJSON (fun x => x) (fun _ => true)
       (lit "[{" ++ [DQUOTE] ++ lit "constructor" ++ [DQUOTE] ++ lit ":"
        ++ [DQUOTE] ++ lit "a@b.com" ++ [DQUOTE] ++ lit "}]") = inl e)
  /\ scanContent (fun x => x) (fun _ => true) catalog0
       (lit "[{" ++ [DQUOTE] ++ lit "constructor" ++ [DQUOTE] ++ lit ":"
        ++ [DQUOTE] ++ lit "a@b.com" ++ [DQUOTE] ++ lit "}]") (lit "d.json")
     = scanColumns catalog0
         [(lit "_text",
           String_split (lit "[{" ++ [DQUOTE] ++ lit "constructor" ++ [DQUOTE]
                         ++ lit ":" ++ [DQUOTE] ++ lit "a@b.com" ++ [DQUOTE]
                         ++ lit "}]") LF)]
         (lit "d.json").
Proof.
  apply (@inherited_key_scanned_as_text (fun x => x) (fun _ => true)
           (lit "[{" ++ [DQUOTE] ++ lit "constructor" ++ [DQUOTE] ++ lit ":"
            ++ [DQUOTE] ++ lit "a@b.com" ++ [DQUOTE] ++ lit "}]")
           (lit "d.json")
           [JObject [(lit "constructor", JString (lit "a@b.com"))]]).
  - vm_compute. reflexivity.
  - vm_compute. reflexivity.
  - reflexivity.
  - apply Exists_cons_hd. exists (lit "constructor").
    split; [now left | vm_compute; tauto].
Defined.

(* ================================================================== *)
(** * What the patterns can match *)

Lemma last_twice {A : Type} (l1 l2 : list A) (d : A) :
  last (l1 ++ l2) d = last l2 (last l1 d).
Proof.
  induction l1 as [|a l1 IH]; [reflexivity|].
  destruct l1 as [|b l1].
  - simpl. destruct l2 as [|c l2]; [reflexivity|].
    clear IH. revert c. induction l2 as [|x l2 IH2]; intros c; [reflexivity|].
    cbn [last]. cbn [last] in IH2. rewrite <- IH2. reflexivity.
  - change ((a :: b :: l1) ++ l2) with (a :: (b :: l1) ++ l2).
    change (last (a :: (b :: l1) ++ l2) d) with (last ((b :: l1) ++ l2) d).
    rewrite IH. reflexivity.
Qed.

Lemma consumes_step (ok : char -> bool) : consumes (step ok) 1 (Some 1) ok.
Proof.
  intros p k e H. unfold step in H.
  destruct (rest p) as [|c s'] eqn:Er; [discriminate|].
  destruct (ok c) eqn:Eo; [|discriminate].
  exists [c], {| index := N.succ (index p); before := Some c; rest := s' |}.
  cbn [rest index length]. split; [reflexivity|]. split; [lia|].
  split; [exact H|]. split; [lia|]. split; [|split].
  - intros h E. injection E as <-. lia.
  - simpl. now rewrite Eo.
  - reflexivity.
Qed.

Lemma consumes_nothing (m : pos -> Cont -> option pos) (ok : char -> bool) :
  (forall p k e, m p k = Some e -> k p = Some e) -> consumes m 0 (Some 0) ok.
Proof.
  intros Hm p k e H. exists [], p. simpl.
  split; [reflexivity|]. split; [lia|]. split; [now apply Hm|].
  split; [lia|]. split; [|split; reflexivity]. intros h E. injection E as <-. lia.
Qed.

Lemma consumes_weaken (m : pos -> Cont -> option pos) (lo lo' : nat)
    (hi hi' : option nat) (ok ok' : char -> bool) :
  consumes m lo hi ok ->
  lo' <= lo ->
  (forall h', hi' = Some h' -> exists h, hi = Some h /\ h <= h') ->
  (forall c, ok c = true -> ok' c = true) ->
  consumes m lo' hi' ok'.
Proof.
  intros Hm Hlo Hhi Hok p k e H.
  destruct (Hm p k e H) as (w & q & Hr & Hi & Hk & Hl & Hh & Hw & Hb).
  exists w, q. split; [exact Hr|]. split; [exact Hi|]. split; [exact Hk|].
  split; [lia|]. split; [|split; [|exact Hb]].
  - intros h' E. destruct (Hhi h' E) as (h & Eh & Le). specialize (Hh h Eh). lia.
  - rewrite forallb_forall in Hw |- *. intros c Hc. apply Hok. now apply Hw.
Qed.

Lemma consumes_seq (m1 m2 : pos -> Cont -> option pos) (lo1 lo2 : nat)
    (hi1 hi2 : option nat) (ok : char -> bool) :
  consumes m1 lo1 hi1 ok -> consumes m2 lo2 hi2 ok ->
  consumes (fun p k => m1 p (fun q => m2 q k)) (lo1 + lo2)
           (match hi1, hi2 with
            | Some x, Some y => Some (x + y)
            | _, _ => None
            end) ok.
Proof.
  intros H1 H2 p k e H.
  destruct (H1 p _ e H) as (w1 & q1 & Hr1 & Hi1 & Hk1 & Hl1 & Hh1 & Hw1 & Hb1).
  destruct (H2 q1 k e Hk1) as (w2 & q2 & Hr2 & Hi2 & Hk2 & Hl2 & Hh2 & Hw2 & Hb2).
  exists (w1 ++ w2), q2. rewrite length_app.
  split; [rewrite Hr1, Hr2; now rewrite app_assoc|].
  split; [lia|]. split; [exact Hk2|]. split; [lia|]. split; [|split].
  - intros h E. destruct hi1 as [x|]; [|discriminate].
    destruct hi2 as [y|]; [|discriminate]. injection E as <-.
    specialize (Hh1 x eq_refl). specialize (Hh2 y eq_refl). lia.
  - rewrite forallb_app, Hw1, Hw2. reflexivity.
  - rewrite map_app, last_twice, <- Hb1. exact Hb2.
Qed.

Lemma repeat_optional_consumes (m : pos -> Cont -> option pos) (lo : nat)
    (hi : option nat) (ok : char -> bool) :
  consumes m lo hi ok ->
  forall bound max,
    consumes (repeat_optional m bound max) 0
             (match max, hi with
              | Some n, Some l => Some (n * l)
              | _, _ => None
              end) ok.
Proof.
  intros Hm. induction bound as [|b bound IH]; intros max p k e H.
  - assert (Hk : k p = Some e) by (destruct max as [[|n]|]; exact H).
    exists [], p. simpl. split; [reflexivity|]. split; [lia|].
    split; [exact Hk|]. split; [lia|].
    split; [intros; lia | split; reflexivity].
  - assert (Stop : k p = Some e ->
             exists w q,
               rest p = w ++ rest q
               /\ index q = (index p + N.of_nat (length w))%N
               /\ k q = Some e /\ 0 <= length w
               /\ (forall h, match max, hi with
                             | Some n, Some l => Some (n * l)
                             | _, _ => None
                             end = Some h -> length w <= h)
               /\ forallb ok w = true
               /\ before q = last (map Some w) (before p)).
    { intros Hk. exists [], p. simpl. split; [reflexivity|]. split; [lia|].
      split; [exact Hk|]. split; [lia|].
      split; [intros; lia | split; reflexivity]. }
    assert (Go : forall max',
             max' = option_map pred max ->
             (forall n, max = Some n -> 0 < n) ->
             match m p (fun q => if N.eqb (index q) (index p) then None
                                 else repeat_optional m bound max' q k) with
             | Some e' => Some e'
             | None => k p
             end = Some e ->
             exists w q,
               rest p = w ++ rest q
               /\ index q = (index p + N.of_nat (length w))%N
               /\ k q = Some e /\ 0 <= length w
               /\ (forall h, match max, hi with
                             | Some n, Some l => Some (n * l)
                             | _, _ => None
                             end = Some h -> length w <= h)
               /\ forallb ok w = true
               /\ before q = last (map Some w) (before p)).
    { intros max' Emax Hpos Hgo.
      destruct (m p _) as [e'|] eqn:Em; [|now apply Stop].
      injection Hgo as ->.
      destruct (Hm p _ e Em) as (w1 & q1 & Hr1 & Hi1 & Hk1 & Hl1 & Hh1 & Hw1 & Hb1).
      destruct (N.eqb (index q1) (index p)); [discriminate|].
      destruct (IH max' q1 k e Hk1)
        as (w2 & q2 & Hr2 & Hi2 & Hk2 & _ & Hh2 & Hw2 & Hb2).
      exists (w1 ++ w2), q2. rewrite length_app.
      split; [rewrite Hr1, Hr2; now rewrite app_assoc|].
      split; [lia|]. split; [exact Hk2|]. split; [lia|]. split; [|split].
      - intros h E. destruct max as [n|]; [|discriminate].
        destruct hi as [l|]; [|discriminate]. injection E as <-.
        specialize (Hpos n eq_refl). specialize (Hh1 l eq_refl).
        subst max'. cbn [option_map] in Hh2. specialize (Hh2 _ eq_refl).
        destruct n as [|n]; [lia|]. simpl in Hh2 |- *. lia.
      - rewrite forallb_app, Hw1, Hw2. reflexivity.
      - rewrite map_app, last_twice, <- Hb1. exact Hb2. }
    cbn [repeat_optional] in H. destruct max as [[|n]|].
    + now apply Stop.
    + apply (Go (Some n)); [reflexivity | intros ? E; injection E as <-; lia | exact H].
    + apply (Go None); [reflexivity | discriminate | exact H].
Qed.

Lemma repeat_required_consumes (m : pos -> Cont -> option pos) (lo : nat)
    (hi : option nat) (ok : char -> bool) :
  consumes m lo hi ok ->
  forall min max,
    consumes (repeat_required m min max)
             (match max with
              | Some n => Nat.min min n
              | None => min
              end * lo)
             (match max, hi with
              | Some n, Some l => Some (n * l)
              | _, _ => None
              end) ok.
Proof.
  intros Hm. induction min as [|min IH]; intros max p k e H.
  - assert (H' : repeat_optional m (rest p) max p k = Some e
                 \/ (max = Some 0 /\ k p = Some e)).
    { cbn [repeat_required] in H. destruct max as [[|n]|]; auto. }
    assert (E0 : match max with Some n => Nat.min 0 n | None => 0 end * lo = 0)
      by (destruct max; reflexivity).
    rewrite E0. destruct H' as [H'|(-> & Hk)].
    + exact (@repeat_optional_consumes m lo hi ok Hm (rest p) max p k e H').
    + exists [], p. simpl. split; [reflexivity|]. split; [lia|].
      split; [exact Hk|]. split; [lia|].
      split; [intros; lia | split; reflexivity].
  - cbn [repeat_required] in H. destruct max as [[|n]|].
    + exists [], p. simpl. split; [reflexivity|]. split; [lia|].
      split; [exact H|]. split; [lia|].
      split; [intros; lia | split; reflexivity].
    + destruct (Hm p _ e H) as (w1 & q1 & Hr1 & Hi1 & Hk1 & Hl1 & Hh1 & Hw1 & Hb1).
      destruct (IH (option_map pred (Some (S n))) q1 k e Hk1)
        as (w2 & q2 & Hr2 & Hi2 & Hk2 & Hl2 & Hh2 & Hw2 & Hb2).
      cbn [option_map pred] in Hl2, Hh2.
      exists (w1 ++ w2), q2. rewrite length_app.
      split; [rewrite Hr1, Hr2; now rewrite app_assoc|].
      split; [lia|]. split; [exact Hk2|]. split; [|split; [|split]].
      * change (Nat.min (S min) (S n)) with (S (Nat.min min n)). simpl. lia.
      * intros h E. destruct hi as [l|]; [|discriminate]. injection E as <-.
        specialize (Hh1 l eq_refl). specialize (Hh2 _ eq_refl). simpl. lia.
      * rewrite forallb_app, Hw1, Hw2. reflexivity.
      * rewrite map_app, last_twice, <- Hb1. exact Hb2.
    + destruct (Hm p _ e H) as (w1 & q1 & Hr1 & Hi1 & Hk1 & Hl1 & Hh1 & Hw1 & Hb1).
      destruct (IH (option_map pred None) q1 k e Hk1)
        as (w2 & q2 & Hr2 & Hi2 & Hk2 & Hl2 & Hh2 & Hw2 & Hb2).
      cbn [option_map] in Hl2.
      exists (w1 ++ w2), q2. rewrite length_app.
      split; [rewrite Hr1, Hr2; now rewrite app_assoc|].
      split; [lia|]. split; [exact Hk2|]. split; [|split; [|split]].
      * simpl. lia.
      * intros h E. discriminate.
      * rewrite forallb_app, Hw1, Hw2. reflexivity.
      * rewrite map_app, last_twice, <- Hb1. exact Hb2.
Qed.

Lemma matcher_consumes (ic : bool) (r : re) :
  consumes (matcher ic r) (min_len r) (max_len r) (accepts ic r).
Proof.
  induction r as [|c| | | |atoms| |a IHa b IHb|a IHa b IHb|min max r IH|r IH];
    cbn [matcher min_len max_len].
  - apply consumes_nothing. intros p k e H. exact H.
  - apply consumes_step.
  - apply consumes_step.
  - apply consumes_step.
  - apply consumes_step.
  - apply consumes_step.
  - apply consumes_nothing. intros p k e H.
    cbn [matcher] in H. destruct (xorb _ _); [exact H | discriminate].
  - apply (@consumes_seq (matcher ic a) (matcher ic b)).
    + eapply consumes_weaken; [exact IHa | lia | |].
      * intros h' E. exists h'. split; [exact E | lia].
      * intros c Hc. cbn [accepts]. now rewrite Hc.
    + eapply consumes_weaken; [exact IHb | lia | |].
      * intros h' E. exists h'. split; [exact E | lia].
      * intros c Hc. cbn [accepts]. rewrite Hc. apply orb_true_r.
  - intros p k e H. cbn [matcher] in H.
    destruct (matcher ic a p k) as [e'|] eqn:Ea.
    + injection H as ->.
      destruct (IHa p k e Ea) as (w & q & Hr & Hi & Hk & Hl & Hh & Hw & Hb).
      exists w, q. split; [exact Hr|]. split; [exact Hi|]. split; [exact Hk|].
      split; [lia|]. split; [|split; [|exact Hb]].
      * intros h E. destruct (max_len a) as [x|]; [|discriminate].
        destruct (max_len b) as [y|]; [|discriminate]. injection E as <-.
        specialize (Hh x eq_refl). lia.
      * rewrite forallb_forall in Hw |- *. intros c Hc. cbn [accepts].
        now rewrite (Hw c Hc).
    + destruct (IHb p k e H) as (w & q & Hr & Hi & Hk & Hl & Hh & Hw & Hb).
      exists w, q. split; [exact Hr|]. split; [exact Hi|]. split; [exact Hk|].
      split; [lia|]. split; [|split; [|exact Hb]].
      * intros h E. destruct (max_len a) as [x|]; [|discriminate].
        destruct (max_len b) as [y|]; [|discriminate]. injection E as <-.
        specialize (Hh y eq_refl). lia.
      * rewrite forallb_forall in Hw |- *. intros c Hc. cbn [accepts].
        rewrite (Hw c Hc). apply orb_true_r.
  - exact (@repeat_required_consumes (matcher ic r) (min_len r) (max_len r)
             (accepts ic r) IH min max).
  - exact IH.
Qed.

Lemma match_here_shape (ic : bool) (r : re) (p : pos) (len : nat) :
  match_here ic r p = Some len ->
  length (firstn len (rest p)) = len /\ match_of ic r (firstn len (rest p)).
Proof.
  unfold match_here. destruct (matcher ic r p Some) as [e|] eqn:E; [|discriminate].
  intros H. injection H as <-.
  destruct (@matcher_consumes ic r p Some e E)
    as (w & q & Hr & Hi & Hk & Hl & Hh & Hw & _).
  injection Hk as <-.
  assert (El : N.to_nat (index q - index p) = length w) by lia.
  rewrite El, Hr.
  assert (Ef : firstn (length w) (w ++ rest q) = w).
  { rewrite firstn_app, Nat.sub_diag, firstn_O, app_nil_r. apply firstn_all. }
  rewrite Ef. split; [reflexivity|]. split; [exact Hl|]. split; [exact Hh | exact Hw].
Qed.

Lemma scan_matches_shape (ic : bool) (r : re) (s : str) :
  forall (i : N) (prev : option char) (skip : nat) (j : N) (text : str),
    In (j, text) (scan_matches ic r i prev s skip) -> match_of ic r text.
Proof.
  induction s as [|c s IH]; intros i prev skip j text Hin.
  - destruct skip as [|n]; cbn [scan_matches] in Hin; [|destruct Hin].
    destruct (match_here ic r _) as [len|] eqn:E; [|destruct Hin].
    destruct Hin as [H|[]]. injection H as _ <-.
    apply match_here_shape in E. exact (proj2 E).
  - destruct skip as [|n]; cbn [scan_matches] in Hin.
    + destruct (match_here ic r _) as [len|] eqn:E.
      * destruct Hin as [H|Hin]; [|exact (IH _ _ _ _ _ Hin)].
        injection H as _ <-. apply match_here_shape in E. exact (proj2 E).
      * exact (IH _ _ _ _ _ Hin).
    + exact (IH _ _ _ _ _ Hin).
Qed.

Lemma matches_of_shape (p : PiiPattern) (text m : str) :
  In m (matches_of p text) ->
  match_of (ignoreCase (pattern p)) (compiled (pattern p)) m.
Proof.
  unfold matches_of, String_matchAll. destruct (global (pattern p)); [|intros []].
  unfold ret. intros H. apply in_map_iff in H. destruct H as ([j t] & <- & H).
  exact (@scan_matches_shape _ _ _ _ _ _ _ _ H).
Qed.

(** X14. What a content pattern can report. Every match of a pattern
    is at least as long as the pattern's least length, at most as long
    as its greatest length when it has one, and made of units the
    pattern's atoms accept. For the ten patterns of the catalog this
    gives the table below: no pattern matches fewer than five units,
    a routing number is exactly nine units, and for the seven patterns
    that accept no line feed a match never runs from one cell of the
    sample into the next. The other three (SSN, phone, street address)
    accept white space, and a line feed is white space: the cells
    [123], [45] and [6789] of one column are reported as one SSN. *)
Theorem match_shapes :
  (forall p text m,
     In m (matches_of p text) ->
     match_of (ignoreCase (pattern p)) (compiled (pattern p)) m)
  /\ map (fun p => (name p, match_bounds p)) PII_PATTERNS
     = [ (lit "Email Address", (6, None, false));
         (lit "SSN (US Social Security Number)", (9, Some 11, true));
         (lit "Credit / Debit Card Number", (13, Some 19, false));
         (lit "US Phone Number", (10, Some 17, true));
         (lit "IPv4 Address", (7, Some 15, false));
         (lit "US ZIP Code", (5, Some 10, false));
         (lit "Date of Birth Pattern", (8, Some 10, false));
         (lit "Street Address", (7, None, true));
         (lit "Passport / ID Number", (7, Some 11, false));
         (lit "Bank Routing Number (ABA)", (9, Some 9, false)) ]
  /\ (forall p text m,
        In p PII_PATTERNS -> In m (matches_of p text) ->
        5 <= length m
        /\ (snd (match_bounds p) = false -> ~ In LF m))
  /\ content_findings PII_PATTERNS (lit "n") [lit "123"; lit "45"; lit "6789"]
     = [ {| column := lit "n";
            patternName := lit "SSN (US Social Security Number)";
            finding_risk := HIGH; matchCount := 1;
            sampleValues := [lit "12*******89"];
            finding_source := content_source |} ].
Proof.
  split; [exact matches_of_shape|].
  split; [vm_compute; reflexivity|].
  split; [|vm_compute; reflexivity].
  intros p text m Hp Hm. apply matches_of_shape in Hm.
  destruct Hm as (Hlo & _ & Hok). split.
  - assert (L : 5 <= min_len (compiled (pattern p))); [|lia].
    simpl in Hp.
    repeat (destruct Hp as [<-|Hp]; [vm_compute; lia|]). destruct Hp.
  - unfold match_bounds. cbn [snd]. intros Hf Hin.
    rewrite forallb_forall in Hok. specialize (Hok LF Hin). congruence.
Qed.

Lemma catalog_min_len (p : PiiPattern) (text m : str) :
  In p PII_PATTERNS -> In m (matches_of p text) -> 5 <= length m.
Proof.
  intros Hp Hm. apply matches_of_shape in Hm. destruct Hm as (Hlo & _ & _).
  assert (L : 5 <= min_len (compiled (pattern p))); [|lia].
  simpl in Hp.
  repeat (destruct Hp as [<-|Hp]; [vm_compute; lia|]). destruct Hp.
Qed.

Lemma Forall2_In_r {A B : Type} (R : A -> B -> Prop) (l : list A) (l' : list B)
    (b : B) :
  Forall2 R l l' -> In b l' -> exists a, In a l /\ R a b.
Proof.
  induction 1 as [|x y l l' Hxy _ IH]; intros Hin; [destruct Hin|].
  destruct Hin as [<-|Hin].
  - exists x. split; [now left | exact Hxy].
  - destruct (IH Hin) as (a & Ha & Hr). exists a. split; [now right | exact Hr].
Qed.

Lemma In_firstn {A : Type} (n : nat) (l : list A) (x : A) :
  In x (firstn n l) -> In x l.
Proof.
  revert l. induction n as [|n IH]; intros [|a l] H; simpl in H; try contradiction.
  destruct H as [H|H]; [now left | right; now apply IH].
Qed.

(** X15. A sample value is never fully masked. Every sample value of a
    content finding is the redaction of a matched text of at least
    five units, so it shows the first two and the last two units of
    the match with between one and eight stars in between, whatever
    the length of what they hide. A five-digit ZIP code is shown with
    one digit masked. *)
Theorem samples_show_four_units (columns : Table) (filePath : str) :
  exists r,
    scanColumns catalog0 columns filePath = inr (r, catalog0)
    /\ (forall f s,
          In f (findings r) -> finding_source f = content_source ->
          In s (sampleValues f) ->
          exists m,
            5 <= length m
            /\ s = firstn 2 m ++ repeat STAR (Nat.min (length m - 4) 8)
                   ++ skipn (length m - 2) m
            /\ firstn 2 s = firstn 2 m
            /\ skipn (length s - 2) s = skipn (length m - 2) m
            /\ 5 <= length s <= 12)
    /\ content_findings PII_PATTERNS (lit "code") [lit "90210"]
       = [ {| column := lit "code"; patternName := lit "US ZIP Code";
              finding_risk := LOW; matchCount := 1;
              sampleValues := [lit "90*10"];
              finding_source := content_source |} ].
Proof.
  eexists. split; [apply scanColumns_eq|]. cbn [findings].
  split; [|vm_compute; reflexivity].
  intros f s Hf Hsrc Hs. apply in_flat_map in Hf.
  destruct Hf as ([k values] & _ & Hf). unfold column_findings in Hf.
  cbn [fst snd] in Hf. apply in_app_or in Hf. destruct Hf as [Hf|Hf].
  { apply name_pass_shape in Hf. destruct Hf as (_ & Hn). congruence. }
  apply content_findings_spec in Hf.
  destruct Hf as (p & samples & Hp & Hr & _ & ->). cbn [sampleValues] in Hs.
  apply mapM_inr in Hr.
  destruct (@Forall2_In_r _ _ _ _ _ s Hr Hs) as (m & Hm & Em).
  unfold Array_take in Hm. apply In_firstn in Hm.
  pose proof (@catalog_min_len p _ m Hp Hm) as L.
  exists m. split; [exact L|].
  rewrite (@redact_long m) in Em by lia.
  assert (Es : s = firstn 2 m ++ repeat STAR (Nat.min (length m - 4) 8)
                   ++ skipn (length m - 2) m) by congruence.
  assert (L2 : length (firstn 2 m) = 2) by (rewrite length_firstn; lia).
  assert (Lt : length (skipn (length m - 2) m) = 2) by (rewrite length_skipn; lia).
  assert (Ls : length s = 4 + Nat.min (length m - 4) 8)
    by (rewrite Es, !length_app, L2, Lt, repeat_length; lia).
  split; [exact Es|]. split; [|split; [|lia]].
  - rewrite Es at 1.
    rewrite firstn_app, L2, Nat.sub_diag, firstn_O, app_nil_r, firstn_firstn.
    reflexivity.
  - rewrite Ls. rewrite Es, app_assoc, skipn_app.
    rewrite length_app, L2, repeat_length.
    replace (4 + Nat.min (length m - 4) 8 - 2 - (2 + Nat.min (length m - 4) 8))
      with 0 by lia.
    rewrite skipn_all2 by (rewrite length_app, L2, repeat_length; lia).
    reflexivity.
Qed.

(* ================================================================== *)
(** * Letter case in column names *)

Lemma in_range_spec (lo hi c : char) :
  in_range lo hi c = true <-> (lo <= c /\ c <= hi)%N.
Proof. unfold in_range. rewrite andb_true_iff, !N.leb_le. tauto. Qed.

Lemma in_range_false (lo hi c : char) :
  in_range lo hi c = false <-> (c < lo \/ hi < c)%N.
Proof. unfold in_range. rewrite andb_false_iff, !N.leb_gt. tauto. Qed.

Lemma canonicalize_eq (c c' : char) :
  canonicalize true c = canonicalize true c' ->
  c = c' \/ (is_letter c = true /\ is_letter c' = true).
Proof.
  unfold canonicalize, is_letter. cbn [andb].
  change (ch "a") with 97%N. change (ch "z") with 122%N.
  change (ch "A") with 65%N. change (ch "Z") with 90%N.
  destruct (in_range 97%N 122%N c) eqn:E1, (in_range 97%N 122%N c') eqn:E2; intros H.
  - apply in_range_spec in E1, E2. left. lia.
  - right. rewrite orb_true_r. split; [reflexivity|].
    apply in_range_spec in E1. apply orb_true_iff. left. apply in_range_spec. lia.
  - right. rewrite orb_true_r. split; [|reflexivity].
    apply in_range_spec in E2. apply orb_true_iff. left. apply in_range_spec. lia.
  - now left.
Qed.

Lemma letters_check (P : char -> bool) :
  forallb P (map N.of_nat (seq 65 58)) = true ->
  forall c, is_letter c = true -> P c = true.
Proof.
  intros H c Hc. rewrite forallb_forall in H. apply H.
  apply in_map_iff. exists (N.to_nat c). split; [lia|].
  apply in_seq. unfold is_letter in Hc.
  change (ch "a") with 97%N in Hc. change (ch "z") with 122%N in Hc.
  change (ch "A") with 65%N in Hc. change (ch "Z") with 90%N in Hc.
  apply orb_true_iff in Hc. destruct Hc as [Hc|Hc]; apply in_range_spec in Hc; lia.
Qed.

Lemma letter_class (f : char -> bool) (c c' : char) :
  forallb (fun x => Bool.eqb (f x) (f 65%N) || negb (is_letter x))
          (map N.of_nat (seq 65 58)) = true ->
  canonicalize true c = canonicalize true c' -> f c = f c'.
Proof.
  intros H E. destruct (canonicalize_eq c c' E) as [->|(L & L')]; [reflexivity|].
  pose proof (letters_check _ H c L) as Hc.
  pose proof (letters_check _ H c' L') as Hc'.
  cbv beta in Hc, Hc'. rewrite L in Hc. rewrite L' in Hc'.
  rewrite orb_false_r in Hc, Hc'. apply eqb_prop in Hc, Hc'. congruence.
Qed.

Lemma same_digit (c c' : char) :
  canonicalize true c = canonicalize true c' -> is_digit c = is_digit c'.
Proof. apply letter_class. vm_compute. reflexivity. Qed.

Lemma same_space (c c' : char) :
  canonicalize true c = canonicalize true c' -> is_whitespace c = is_whitespace c'.
Proof. apply letter_class. vm_compute. reflexivity. Qed.

Lemma same_terminator (c c' : char) :
  canonicalize true c = canonicalize true c' ->
  is_line_terminator c = is_line_terminator c'.
Proof. apply letter_class. vm_compute. reflexivity. Qed.

Lemma same_word_char (c c' : char) :
  canonicalize true c = canonicalize true c' -> is_word_char c = is_word_char c'.
Proof. apply letter_class. vm_compute. reflexivity. Qed.

Lemma same_atom (c c' : char) (a : ClassAtom) :
  canonicalize true c = canonicalize true c' ->
  atom_matches true c a = atom_matches true c' a.
Proof.
  intros E. destruct a as [x|lo hi| |]; cbn [atom_matches].
  - unfold char_matches. now rewrite E.
  - unfold range_matches. now rewrite E.
  - now apply same_digit.
  - now apply same_space.
Qed.

Lemma same_end_refl_none : same_end None None.
Proof. exact I. Qed.

Lemma step_same (ok ok' : char -> bool) (p p' : pos) (k k' : Cont) :
  (forall c c', canonicalize true c = canonicalize true c' -> ok c = ok' c') ->
  same_place p p' ->
  (forall q q', same_place q q' -> same_end (k q) (k' q')) ->
  same_end (step ok p k) (step ok' p' k').
Proof.
  intros Hok (Hi & Hr & Hb) Hk. unfold step, same_letters in *.
  destruct (rest p) as [|c s], (rest p') as [|c' s']; try discriminate;
    [exact I|].
  cbn [map] in Hr. injection Hr as Hc Hs.
  rewrite (Hok c c' Hc). destruct (ok' c'); [|exact I].
  apply Hk. unfold same_place, same_letters. cbn [index rest before option_map].
  split; [now rewrite Hi|]. split; [exact Hs | now rewrite Hc].
Qed.

Lemma word_before_same (p p' : pos) :
  same_place p p' -> word_before p = word_before p'.
Proof.
  intros (_ & _ & Hb). unfold word_before.
  destruct (before p) as [c|], (before p') as [c'|]; try discriminate;
    [|reflexivity].
  cbn [option_map] in Hb. injection Hb as Hc. now apply same_word_char.
Qed.

Lemma word_after_same (p p' : pos) :
  same_place p p' -> word_after p = word_after p'.
Proof.
  intros (_ & Hr & _). unfold word_after, same_letters in *.
  destruct (rest p) as [|c s], (rest p') as [|c' s']; try discriminate;
    [reflexivity|].
  cbn [map] in Hr. injection Hr as Hc _. now apply same_word_char.
Qed.

Lemma same_letters_length (a b : str) : same_letters a b -> length a = length b.
Proof.
  unfold same_letters. intros H.
  rewrite <- (length_map (canonicalize true) a), H. apply length_map.
Qed.

Lemma repeat_optional_same (m m' : pos -> Cont -> option pos) :
  (forall p p' k k',
     same_place p p' ->
     (forall q q', same_place q q' -> same_end (k q) (k' q')) ->
     same_end (m p k) (m' p' k')) ->
  forall bound bound' max p p' k k',
    length bound = length bound' ->
    same_place p p' ->
    (forall q q', same_place q q' -> same_end (k q) (k' q')) ->
    same_end (repeat_optional m bound max p k)
             (repeat_optional m' bound' max p' k').
Proof.
  intros Hm. induction bound as [|b bound IH];
    intros [|b' bound'] max p p' k k' Hl Hp Hk; try discriminate.
  - destruct max as [[|n]|]; cbn [repeat_optional]; now apply Hk.
  - injection Hl as Hl.
    assert (Go : forall max',
              same_end
                (match m p (fun q => if N.eqb (index q) (index p) then None
                                     else repeat_optional m bound max' q k) with
                 | Some e => Some e
                 | None => k p
                 end)
                (match m' p' (fun q => if N.eqb (index q) (index p') then None
                                       else repeat_optional m' bound' max' q k') with
                 | Some e => Some e
                 | None => k' p'
                 end)).
    { intros max'.
      assert (H : same_end
                    (m p (fun q => if N.eqb (index q) (index p) then None
                                   else repeat_optional m bound max' q k))
                    (m' p' (fun q => if N.eqb (index q) (index p') then None
                                     else repeat_optional m' bound' max' q k'))).
      { apply Hm; [exact Hp|]. intros q q' Hq.
        destruct Hp as (Hi & _). destruct Hq as (Hqi & Hq').
        rewrite Hqi, Hi. destruct (N.eqb (index q') (index p')); [exact I|].
        apply IH; [exact Hl | | exact Hk]. split; [exact Hqi | exact Hq']. }
      destruct (m p _) as [e|], (m' p' _) as [e'|]; try contradiction;
        [exact H | now apply Hk]. }
    cbn [repeat_optional]. destruct max as [[|n]|]; [now apply Hk | apply Go | apply Go].
Qed.

Lemma repeat_required_same (m m' : pos -> Cont -> option pos) :
  (forall p p' k k',
     same_place p p' ->
     (forall q q', same_place q q' -> same_end (k q) (k' q')) ->
     same_end (m p k) (m' p' k')) ->
  forall min max p p' k k',
    same_place p p' ->
    (forall q q', same_place q q' -> same_end (k q) (k' q')) ->
    same_end (repeat_required m min max p k)
             (repeat_required m' min max p' k').
Proof.
  intros Hm. induction min as [|min IH]; intros max p p' k k' Hp Hk.
  - cbn [repeat_required]. destruct max as [[|n]|]; [now apply Hk | |];
      (apply repeat_optional_same; [exact Hm | | exact Hp | exact Hk];
       apply same_letters_length; exact (proj1 (proj2 Hp))).
  - cbn [repeat_required]. destruct max as [[|n]|]; [now apply Hk | |];
      (apply Hm; [exact Hp|]; intros q q' Hq; now apply IH).
Qed.

Lemma matcher_same (r : re) :
  forall p p' k k',
    same_place p p' ->
    (forall q q', same_place q q' -> same_end (k q) (k' q')) ->
    same_end (matcher true r p k) (matcher true r p' k').
Proof.
  induction r as [|c| | | |atoms| |a IHa b IHb|a IHa b IHb|min max r IH|r IH];
    intros p p' k k' Hp Hk; cbn [matcher].
  - now apply Hk.
  - apply step_same; [|exact Hp | exact Hk].
    intros x x' E. unfold char_matches. now rewrite E.
  - apply step_same; [|exact Hp | exact Hk].
    intros x x' E. now rewrite (same_terminator x x' E).
  - apply step_same; [|exact Hp | exact Hk]. apply same_digit.
  - apply step_same; [|exact Hp | exact Hk]. apply same_space.
  - apply step_same; [|exact Hp | exact Hk].
    intros x x' E. induction atoms as [|a atoms IHat]; [reflexivity|].
    cbn [existsb]. now rewrite (same_atom x x' a E), IHat.
  - rewrite (word_before_same Hp), (word_after_same Hp).
    destruct (xorb _ _); [now apply Hk | exact I].
  - apply IHa; [exact Hp|]. intros q q' Hq. now apply IHb.
  - pose proof (IHa p p' k k' Hp Hk) as Ha.
    destruct (matcher true a p k) as [e|], (matcher true a p' k') as [e'|];
      try contradiction; [exact Ha | now apply IHb].
  - apply repeat_required_same; [exact IH | exact Hp | exact Hk].
  - now apply IH.
Qed.

Lemma match_here_same (r : re) (p p' : pos) :
  same_place p p' -> match_here true r p = match_here true r p'.
Proof.
  intros Hp. unfold match_here.
  assert (H : same_end (matcher true r p Some) (matcher true r p' Some)).
  { apply matcher_same; [exact Hp|]. intros q q' Hq. exact Hq. }
  destruct (matcher true r p Some) as [e|], (matcher true r p' Some) as [e'|];
    try contradiction; [|reflexivity].
  destruct H as (Hi & _). destruct Hp as (Hpi & _). now rewrite Hi, Hpi.
Qed.

Lemma first_match_same (r : re) (s : str) :
  forall s' i prev prev' skip,
    same_letters s s' ->
    option_map (canonicalize true) prev = option_map (canonicalize true) prev' ->
    match first_match true r i prev s skip,
          first_match true r i prev' s' skip with
    | Some (j, t), Some (j', t') => j = j' /\ same_letters t t'
    | None, None => True
    | _, _ => False
    end.
Proof.
  induction s as [|c s IH]; intros [|c' s'] i prev prev' skip Hs Hb;
    try discriminate.
  - cbn [first_match]. destruct skip as [|n]; [|exact I].
    rewrite (@match_here_same r {| index := i; before := prev; rest := [] |}
               {| index := i; before := prev'; rest := [] |})
      by (split; [reflexivity | split; [exact Hs | exact Hb]]).
    destruct (match_here true r _) as [len|]; [|exact I].
    split; [reflexivity|]. now rewrite !firstn_nil.
  - pose proof Hs as Hs'. unfold same_letters in Hs'. cbn [map] in Hs'.
    injection Hs' as Hc Hrest.
    assert (Tail : forall n,
              match first_match true r (N.succ i) (Some c) s n,
                    first_match true r (N.succ i) (Some c') s' n with
              | Some (j, t), Some (j', t') => j = j' /\ same_letters t t'
              | None, None => True
              | _, _ => False
              end).
    { intros n. apply IH; [exact Hrest|]. cbn [option_map]. now rewrite Hc. }
    cbn [first_match]. destruct skip as [|n]; [|apply Tail].
    rewrite (@match_here_same r {| index := i; before := prev; rest := c :: s |}
               {| index := i; before := prev'; rest := c' :: s' |})
      by (split; [reflexivity | split; [exact Hs | exact Hb]]).
    destruct (match_here true r _) as [len|]; [|apply Tail].
    split; [reflexivity|]. unfold same_letters in *.
    rewrite <- !firstn_map. now rewrite Hs.
Qed.

Lemma RegExp_test_same (R : RegExp) (s s' : str) :
  ignoreCase R = true -> same_letters s s' ->
  fst (RegExp_test R s) = fst (RegExp_test R s').
Proof.
  intros Hi Hs. unfold RegExp_test, RegExp_exec. rewrite Hi.
  pose proof (@first_match_same (compiled R) s s' 0%N None None
                (N.to_nat (if global R then lastIndex R else 0%N)) Hs eq_refl) as H.
  destruct (first_match true (compiled R) 0 None s _) as [[j t]|],
           (first_match true (compiled R) 0 None s' _) as [[j' t']|];
    try contradiction; reflexivity.
Qed.

Lemma name_pass_same (rules : list ColumnNameRule) (col col' : str)
    (values : list str) :
  Forall (fun r => ignoreCase (rule_pattern r) = true) rules ->
  same_letters col col' ->
  fst (name_pass rules col' values)
  = map (with_column col') (fst (name_pass rules col values)).
Proof.
  intros Hr Hs. induction Hr as [|r rules Hi _ IH]; [reflexivity|].
  cbn [name_pass].
  pose proof (@RegExp_test_same (rule_pattern r) col col' Hi Hs) as E.
  destruct (RegExp_test (rule_pattern r) col) as [hit R1].
  destruct (RegExp_test (rule_pattern r) col') as [hit' R1'].
  cbn [fst] in E. subst hit'. destruct hit; [reflexivity|].
  destruct (name_pass rules col values) as [found rest1].
  destruct (name_pass rules col' values) as [found' rest1'].
  exact IH.
Qed.

(** X16. Column names are judged without regard to the case of their
    letters. Two names that differ only in the case of ASCII letters
    get the same verdict from the column-name pass: the same rule
    fires or none does, and the finding differs only in the column
    name it carries. *)
Theorem column_names_ignore_case (col col' : str) (values : list str) :
  same_letters col col' ->
  fst (name_pass SUSPICIOUS_COLUMN_NAMES col' values)
  = map (with_column col') (fst (name_pass SUSPICIOUS_COLUMN_NAMES col values))
  /\ (forall r, In r SUSPICIOUS_COLUMN_NAMES -> rule_hits r col = rule_hits r col').
Proof.
  intros Hs.
  assert (Hall : Forall (fun r => ignoreCase (rule_pattern r) = true)
                        SUSPICIOUS_COLUMN_NAMES)
    by (repeat constructor).
  split; [now apply name_pass_same|].
  intros r Hr. rewrite Forall_forall in Hall. unfold rule_hits.
  apply RegExp_test_same; [now apply Hall | exact Hs].
Qed.

Lemma column_names_ignore_case_witness :
  fst (name_pass SUSPICIOUS_COLUMN_NAMES (lit "Date_Of_Birth") [lit "x"])
  = map (with_column (lit "Date_Of_Birth"))
        (fst (name_pass SUSPICIOUS_COLUMN_NAMES (lit "date_of_birth") [lit "x"]))
  /\ (forall r, In r SUSPICIOUS_COLUMN_NAMES ->
        rule_hits r (lit "date_of_birth") = rule_hits r (lit "Date_Of_Birth")).
Proof.
  apply (@column_names_ignore_case (lit "date_of_birth") (lit "Date_Of_Birth")
           [lit "x"]).
  vm_compute. reflexivity.
Defined.

(* ================================================================== *)
(** * Column names made of word characters *)

Lemma bounded_word_shape (r : re) :
  bounded_word r = true ->
  exists g, r = Seq WordB (Seq g (Seq WordB Empty)) /\ 1 <= min_len g.
Proof.
  destruct r as [| | | | | | |a b| | |]; try discriminate.
  destruct a; try discriminate.
  destruct b as [| | | | | | |g c| | |]; try discriminate.
  destruct c as [| | | | | | |d e| | |]; try discriminate.
  destruct d; try discriminate. destruct e; try discriminate.
  simpl. intros H. exists g. split; [reflexivity|]. now apply Nat.leb_le.
Qed.

Lemma last_some (w : str) (d : option char) :
  w <> [] -> exists x, In x w /\ last (map Some w) d = Some x.
Proof.
  induction w as [|a w IH]; [congruence|]. intros _.
  destruct w as [|b w].
  - exists a. split; [now left | reflexivity].
  - destruct (IH ltac:(discriminate)) as (x & Hx & E).
    exists x. split; [now right | exact E].
Qed.

(** A match of [\b(...)\b]: a boundary where it starts, at least one
    unit, a boundary where it ends. *)
Lemma match_here_bounded (ic : bool) (r : re) (p : pos) (len : nat) :
  bounded_word r = true ->
  match_here ic r p = Some len ->
  xorb (word_before p) (word_after p) = true
  /\ exists w q,
       rest p = w ++ rest q /\ length w = len /\ w <> []
       /\ before q = last (map Some w) (before p)
       /\ xorb (word_before q) (word_after q) = true.
Proof.
  intros Hb. destruct (bounded_word_shape r Hb) as (g & -> & Hg).
  unfold match_here. cbn [matcher].
  destruct (xorb (word_before p) (word_after p)); [|discriminate].
  destruct (matcher ic g p _) as [e|] eqn:E; [|discriminate].
  intros H. injection H as <-. split; [reflexivity|].
  destruct (@matcher_consumes ic g p _ e E)
    as (w & q & Hr & Hi & Hk & Hl & _ & _ & Hbq).
  destruct (xorb (word_before q) (word_after q)) eqn:Ex; [|discriminate].
  injection Hk as <-.
  exists w, q. split; [exact Hr|]. split; [lia|].
  split; [intros ->; simpl in Hl; lia|]. split; [exact Hbq | exact Ex].
Qed.

Lemma word_after_all (p : pos) :
  forallb is_word_char (rest p) = true ->
  word_after p = false -> rest p = [].
Proof.
  unfold word_after. destruct (rest p) as [|c s]; [reflexivity|].
  simpl. intros H E. rewrite E in H. discriminate.
Qed.

Lemma match_here_inside (ic : bool) (r : re) (i : N) (c : char) (s : str) :
  bounded_word r = true ->
  is_word_char c = true -> forallb is_word_char s = true ->
  match_here ic r {| index := i; before := Some c; rest := s |} = None.
Proof.
  intros Hb Hc Hs.
  destruct (match_here ic r _) as [len|] eqn:E; [|reflexivity]. exfalso.
  destruct (match_here_bounded _ _ _ Hb E) as (Hx & w & q & Hr & _ & Hw & _).
  unfold word_before in Hx. cbn [before] in Hx. rewrite Hc in Hx.
  cbn [rest] in Hr.
  assert (Ea : word_after {| index := i; before := Some c; rest := s |} = false)
    by (destruct (word_after _); [discriminate | reflexivity]).
  apply word_after_all in Ea; [|exact Hs]. cbn [rest] in Ea. subst s.
  destruct w; [congruence | discriminate].
Qed.

Lemma first_match_inside (ic : bool) (r : re) (s : str) :
  bounded_word r = true ->
  forall i c skip,
    is_word_char c = true -> forallb is_word_char s = true ->
    first_match ic r i (Some c) s skip = None.
Proof.
  intros Hb. induction s as [|x s IH]; intros i c skip Hc Hs.
  - cbn [first_match]. destruct skip; [|reflexivity].
    now rewrite match_here_inside.
  - cbn [forallb] in Hs. apply andb_true_iff in Hs. destruct Hs as (Hx & Hs).
    cbn [first_match].
    assert (E : match skip with
                | 0 => match_here ic r {| index := i; before := Some c; rest := x :: s |}
                | S _ => None
                end = None).
    { destruct skip; [|reflexivity]. apply match_here_inside; auto.
      cbn [forallb]. now rewrite Hx, Hs. }
    rewrite E. now apply IH.
Qed.

Lemma match_here_whole (ic : bool) (r : re) (col : str) (len : nat) :
  bounded_word r = true -> forallb is_word_char col = true ->
  match_here ic r (start_of col) = Some len -> len = length col.
Proof.
  intros Hb Hs E.
  destruct (match_here_bounded _ _ _ Hb E) as (_ & w & q & Hr & Hl & Hw & Hbq & Hx).
  cbn [start_of rest before] in Hr, Hbq.
  destruct (last_some None Hw) as (x & Hin & El). rewrite El in Hbq.
  assert (Hall : forallb is_word_char w = true /\ forallb is_word_char (rest q) = true).
  { rewrite Hr, forallb_app in Hs. now apply andb_true_iff in Hs. }
  destruct Hall as (Hww & Hwq).
  assert (Hxw : is_word_char x = true)
    by (rewrite forallb_forall in Hww; now apply Hww).
  unfold word_before in Hx. rewrite Hbq, Hxw in Hx.
  assert (Ea : word_after q = false)
    by (destruct (word_after q); [discriminate | reflexivity]).
  apply word_after_all in Ea; [|exact Hwq].
  rewrite Hr, Ea, app_nil_r. now symmetry.
Qed.

Lemma rule_hits_whole (r : ColumnNameRule) (col : str) :
  global (rule_pattern r) = false ->
  bounded_word (compiled (rule_pattern r)) = true ->
  forallb is_word_char col = true ->
  rule_hits r col = true
  <-> match_here (ignoreCase (rule_pattern r)) (compiled (rule_pattern r))
                 (start_of col) = Some (length col).
Proof.
  intros Hg Hb Hs. unfold rule_hits, RegExp_test, RegExp_exec. rewrite Hg.
  change (N.to_nat 0) with 0.
  set (ic := ignoreCase (rule_pattern r)). set (re := compiled (rule_pattern r)).
  assert (F : first_match ic re 0 None col 0
              = match match_here ic re (start_of col) with
                | Some len => Some (0%N, firstn len col)
                | None => None
                end).
  { unfold start_of. destruct col as [|c s]; cbn [first_match].
    - destruct (match_here ic re _); reflexivity.
    - destruct (match_here ic re _); [reflexivity|].
      cbn [forallb] in Hs. apply andb_true_iff in Hs. destruct Hs as (Hc & Hs').
      now apply first_match_inside. }
  rewrite F. destruct (match_here ic re (start_of col)) as [len|] eqn:E.
  - rewrite (@match_here_whole ic re col len Hb Hs E). cbn [fst]. tauto.
  - cbn [fst]. split; discriminate.
Qed.

(** X17. A column name made of letters, digits and underscores only is
    flagged by a rule exactly when the rule's alternatives match the
    whole name: an underscore or a digit next to a keyword is no word
    boundary, so a keyword inside a longer identifier is not found.
    No alternative of the catalog is longer than 15 units, so such a
    name of more than 15 units is never flagged by its name. *)
Theorem identifier_names_match_whole (col : str) (values : list str) :
  identifier_like col ->
  (forall r, In r SUSPICIOUS_COLUMN_NAMES ->
     (rule_hits r col = true
      <-> match_here true (compiled (rule_pattern r)) (start_of col)
          = Some (length col)))
  /\ (15 < length col ->
      fst (name_pass SUSPICIOUS_COLUMN_NAMES col values) = []).
Proof.
  intros Hs.
  assert (Hall : Forall (fun r => global (rule_pattern r) = false
                                  /\ ignoreCase (rule_pattern r) = true
                                  /\ bounded_word (compiled (rule_pattern r)) = true
                                  /\ exists h, max_len (compiled (rule_pattern r)) = Some h
                                               /\ h <= 15)
                        SUSPICIOUS_COLUMN_NAMES).
  { repeat constructor; eexists; (split; [vm_compute; reflexivity | lia]). }
  rewrite Forall_forall in Hall.
  assert (W : forall r, In r SUSPICIOUS_COLUMN_NAMES ->
            (rule_hits r col = true
             <-> match_here true (compiled (rule_pattern r)) (start_of col)
                 = Some (length col))).
  { intros r Hr. destruct (Hall r Hr) as (Hg & Hi & Hb & _).
    pose proof (@rule_hits_whole r col Hg Hb Hs) as H. rewrite Hi in H. exact H. }
  split; [exact W|].
  intros Hlen. apply name_pass_none. intros r Hr.
  destruct (rule_hits r col) eqn:E; [|reflexivity]. exfalso.
  apply (W r Hr) in E. destruct (Hall r Hr) as (_ & _ & _ & h & Eh & Hh).
  apply match_here_shape in E. destruct E as (_ & _ & Hmax & _).
  specialize (Hmax h Eh). cbn [start_of rest] in Hmax.
  rewrite firstn_all in Hmax. lia.
Qed.

Lemma identifier_names_match_whole_witness :
  (forall r, In r SUSPICIOUS_COLUMN_NAMES ->
     (rule_hits r (lit "customer_email_address") = true
      <-> match_here true (compiled (rule_pattern r))
                     (start_of (lit "customer_email_address"))
          = Some (length (lit "customer_email_address"))))
  /\ (15 < length (lit "customer_email_address") ->
      fst (name_pass SUSPICIOUS_COLUMN_NAMES (lit "customer_email_address")
                     [lit "a@b.com"]) = []).
Proof.
  apply (@identifier_names_match_whole (lit "customer_email_address")
           [lit "a@b.com"]).
  vm_compute. reflexivity.
Defined.

(* ================================================================== *)
(** * Matching line by line *)

Lemma reached_refl (p : pos) : reached p p.
Proof. exists []. split; [reflexivity | simpl; lia]. Qed.

Lemma reached_trans (p q u : pos) : reached p q -> reached q u -> reached p u.
Proof.
  intros (w1 & H1 & I1) (w2 & H2 & I2). exists (w1 ++ w2). split.
  - rewrite H1, H2. now rewrite app_assoc.
  - rewrite length_app. lia.
Qed.

Section Lines.

Variable tail : str.
Variables d d' : N.
Hypothesis Htail : line_end tail.

Lemma step_line (ok : char -> bool) (p p' : pos) (k k' : Cont) :
  ok LF = false ->
  in_line tail d d' p p' ->
  (forall q q', in_line tail d d' q q' -> reached p q ->
                same_run tail d d' (k q) (k' q')) ->
  same_run tail d d' (step ok p k) (step ok p' k').
Proof.
  intros Hok (Hr & Hi & Hb) Hk. unfold step. rewrite Hr.
  destruct (rest p) as [|c s] eqn:Ep.
  - cbn [app]. destruct tail as [|c t]; [exact I|].
    simpl in Htail. subst c. rewrite Hok. exact I.
  - cbn [app]. destruct (ok c); [|exact I]. apply Hk.
    + split; [reflexivity|]. cbn [index]. split; [lia | reflexivity].
    + exists [c]. cbn [rest index]. split; [exact Ep | simpl; lia].
Qed.

Lemma word_after_line (p p' : pos) :
  in_line tail d d' p p' -> word_after p = word_after p'.
Proof.
  intros (Hr & _ & _). unfold word_after. rewrite Hr.
  destruct (rest p) as [|c s]; [|reflexivity].
  cbn [app]. destruct tail as [|c t]; [reflexivity|].
  simpl in Htail. subst c. reflexivity.
Qed.

Lemma repeat_optional_line (m : pos -> Cont -> option pos) (lo : nat)
    (hi : option nat) (ok : char -> bool) :
  consumes m lo hi ok -> ok LF = false ->
  (forall p p' k k',
     in_line tail d d' p p' ->
     (forall q q', in_line tail d d' q q' -> reached p q ->
                   same_run tail d d' (k q) (k' q')) ->
     same_run tail d d' (m p k) (m p' k')) ->
  forall bound bound' max p p' k k',
    length (rest p) <= length bound ->
    length (rest p') <= length bound' ->
    in_line tail d d' p p' ->
    (forall q q', in_line tail d d' q q' -> reached p q ->
                  same_run tail d d' (k q) (k' q')) ->
    same_run tail d d' (repeat_optional m bound max p k)
                       (repeat_optional m bound' max p' k').
Proof.
  intros Hc Hok Hm.
  assert (Stuck : forall p (k1 : Cont),
            rest p = [] \/ (exists t, rest p = LF :: t) ->
            (forall q, index q = index p -> k1 q = None) ->
            m p k1 = None).
  { intros p k1 Hp Hk1. destruct (m p k1) as [e|] eqn:E; [|reflexivity]. exfalso.
    destruct (Hc p k1 e E) as (w & q & Hr & Hi & Hk & _ & _ & Hw & _).
    destruct w as [|c w].
    - rewrite Hk1 in Hk; [discriminate | simpl in Hi; lia].
    - destruct Hp as [Hp|(t & Hp)]; rewrite Hp in Hr; [discriminate|].
      injection Hr as <- _. simpl in Hw. rewrite Hok in Hw. discriminate. }
  induction bound as [|b bound IH]; intros bound' max p p' k k' Hl Hl' Hp Hk.
  - assert (Er : rest p = []) by (destruct (rest p); [reflexivity | simpl in Hl; lia]).
    assert (El : repeat_optional m [] max p k = k p) by (destruct max as [[|n]|]; reflexivity).
    rewrite El.
    assert (Hkp : same_run tail d d' (k p) (k' p')) by (apply Hk; [exact Hp | apply reached_refl]).
    destruct max as [[|n]|]; destruct bound' as [|b' bound']; cbn [repeat_optional];
      try exact Hkp.
    + rewrite Stuck; [exact Hkp | |].
      * destruct Hp as (Hr & _). rewrite Er in Hr. cbn [app] in Hr. rewrite Hr.
        destruct tail as [|c t]; [now left|]. simpl in Htail. subst c. right. now exists t.
      * intros q Hq. rewrite Hq, N.eqb_refl. reflexivity.
    + rewrite Stuck; [exact Hkp | |].
      * destruct Hp as (Hr & _). rewrite Er in Hr. cbn [app] in Hr. rewrite Hr.
        destruct tail as [|c t]; [now left|]. simpl in Htail. subst c. right. now exists t.
      * intros q Hq. rewrite Hq, N.eqb_refl. reflexivity.
  - assert (Hkp : same_run tail d d' (k p) (k' p')) by (apply Hk; [exact Hp | apply reached_refl]).
    assert (Go : forall max',
              same_run tail d d'
                (match m p (fun q => if N.eqb (index q) (index p) then None
                                     else repeat_optional m bound max' q k) with
                 | Some e => Some e
                 | None => k p
                 end)
                (repeat_optional m bound'
                   (match max' with Some n => Some (S n) | None => None end) p' k')).
    { intros max'. destruct bound' as [|b' bound'].
      - assert (Er' : rest p' = [])
          by (destruct (rest p'); [reflexivity | simpl in Hl'; lia]).
        assert (Er : rest p = []).
        { destruct Hp as (Hr & _). rewrite Er' in Hr.
          destruct (rest p); [reflexivity | discriminate]. }
        rewrite Stuck; [| now left |].
        + destruct max'; exact Hkp.
        + intros q Hq. rewrite Hq, N.eqb_refl. reflexivity.
      - assert (E' : repeat_optional m (b' :: bound')
                       (match max' with Some n => Some (S n) | None => None end) p' k'
                     = match m p' (fun q => if N.eqb (index q) (index p') then None
                                            else repeat_optional m bound' max' q k') with
                       | Some e => Some e
                       | None => k' p'
                       end)
          by (destruct max'; reflexivity).
        rewrite E'.
        assert (H : same_run tail d d'
                      (m p (fun q => if N.eqb (index q) (index p) then None
                                     else repeat_optional m bound max' q k))
                      (m p' (fun q => if N.eqb (index q) (index p') then None
                                      else repeat_optional m bound' max' q k'))).
        { apply Hm; [exact Hp|]. intros q q' Hq Hreach.
          destruct Hp as (Hpr & Hpi & _). pose proof Hq as (Hqr & Hqi & _).
          destruct (N.eqb_spec (index q) (index p)) as [Eq|Nq];
            destruct (N.eqb_spec (index q') (index p')) as [Eq'|Nq']; try lia;
            [exact I|].
          destruct Hreach as (w & Hw & Hwi).
          assert (Lw : 1 <= length w) by lia.
          assert (Lq : length (rest p) = length w + length (rest q))
            by (rewrite Hw, length_app; reflexivity).
          apply IH.
          - simpl in Hl. lia.
          - rewrite Hqr, length_app. rewrite Hpr, length_app in Hl'.
            simpl in Hl'. lia.
          - exact Hq.
          - intros q2 q2' Hq2 Hr2. apply Hk; [exact Hq2|].
            apply (@reached_trans p q q2); [|exact Hr2].
            exists w. split; [exact Hw | exact Hwi]. }
        destruct (m p _) as [e|], (m p' _) as [e'|]; try contradiction;
          [exact H | exact Hkp]. }
    destruct max as [[|n]|].
    + destruct bound'; exact Hkp.
    + exact (Go (Some n)).
    + exact (Go None).
Qed.

Lemma repeat_required_line (m : pos -> Cont -> option pos) (lo : nat)
    (hi : option nat) (ok : char -> bool) :
  consumes m lo hi ok -> ok LF = false ->
  (forall p p' k k',
     in_line tail d d' p p' ->
     (forall q q', in_line tail d d' q q' -> reached p q ->
                   same_run tail d d' (k q) (k' q')) ->
     same_run tail d d' (m p k) (m p' k')) ->
  forall min max p p' k k',
    in_line tail d d' p p' ->
    (forall q q', in_line tail d d' q q' -> reached p q ->
                  same_run tail d d' (k q) (k' q')) ->
    same_run tail d d' (repeat_required m min max p k)
                       (repeat_required m min max p' k').
Proof.
  intros Hc Hok Hm.
  induction min as [|min IH]; intros max p p' k k' Hp Hk.
  - assert (Hkp : same_run tail d d' (k p) (k' p'))
      by (apply Hk; [exact Hp | apply reached_refl]).
    cbn [repeat_required]. destruct max as [[|n]|]; [exact Hkp | |];
      (apply (@repeat_optional_line m lo hi ok Hc Hok Hm);
       [apply Nat.le_refl | apply Nat.le_refl | exact Hp | exact Hk]).
  - assert (Hkp : same_run tail d d' (k p) (k' p'))
      by (apply Hk; [exact Hp | apply reached_refl]).
    cbn [repeat_required]. destruct max as [[|n]|]; [exact Hkp | |];
      (apply Hm; [exact Hp|]; intros q q' Hq Hr; apply IH; [exact Hq|];
       intros q2 q2' Hq2 Hr2; apply Hk; [exact Hq2|];
       exact (@reached_trans p q q2 Hr Hr2)).
Qed.

Lemma matcher_line (ic : bool) (r : re) :
  accepts ic r LF = false ->
  forall p p' k k',
    in_line tail d d' p p' ->
    (forall q q', in_line tail d d' q q' -> reached p q ->
                  same_run tail d d' (k q) (k' q')) ->
    same_run tail d d' (matcher ic r p k) (matcher ic r p' k').
Proof.
  induction r as [|c| | | |atoms| |a IHa b IHb|a IHa b IHb|min max r IH|r IH];
    intros Ha p p' k k' Hp Hk; cbn [matcher]; cbn [accepts] in Ha.
  - apply Hk; [exact Hp | apply reached_refl].
  - now apply step_line.
  - now apply step_line.
  - now apply step_line.
  - now apply step_line.
  - now apply step_line.
  - destruct Hp as (Hr & Hi & Hb).
    rewrite Hb, (@word_after_line p p' (conj Hr (conj Hi Hb))).
    destruct (xorb _ _); [|exact I].
    apply Hk; [exact (conj Hr (conj Hi Hb)) | apply reached_refl].
  - apply orb_false_iff in Ha. destruct Ha as (Ha1 & Ha2).
    apply (IHa Ha1); [exact Hp|]. intros q q' Hq Hr.
    apply (IHb Ha2); [exact Hq|]. intros q2 q2' Hq2 Hr2.
    apply Hk; [exact Hq2 | exact (@reached_trans p q q2 Hr Hr2)].
  - apply orb_false_iff in Ha. destruct Ha as (Ha1 & Ha2).
    pose proof (IHa Ha1 p p' k k' Hp Hk) as H.
    destruct (matcher ic a p k) as [e|], (matcher ic a p' k') as [e'|];
      try contradiction; [exact H | now apply (IHb Ha2)].
  - apply (@repeat_required_line (matcher ic r) (min_len r) (max_len r)
             (accepts ic r) (matcher_consumes ic r) Ha (IH Ha));
      [exact Hp | exact Hk].
  - now apply IH.
Qed.

Lemma match_here_line (ic : bool) (r : re) (p p' : pos) :
  accepts ic r LF = false -> in_line tail d d' p p' ->
  match_here ic r p = match_here ic r p'.
Proof.
  intros Ha Hp. unfold match_here.
  assert (H : same_run tail d d' (matcher ic r p Some) (matcher ic r p' Some)).
  { apply (@matcher_line ic r Ha); [exact Hp|]. intros q q' Hq _. exact Hq. }
  destruct (matcher ic r p Some) as [e|], (matcher ic r p' Some) as [e'|];
    try contradiction; [|reflexivity].
  destruct H as (_ & Hi & _). destruct Hp as (_ & Hpi & _).
  f_equal. lia.
Qed.

End Lines.

Lemma match_here_fits (ic : bool) (r : re) (p : pos) (len : nat) :
  match_here ic r p = Some len -> len <= length (rest p) /\ min_len r <= len.
Proof.
  intros H. apply match_here_shape in H. destruct H as (Hl & Hm & _).
  rewrite Hl in Hm. split; [|exact Hm].
  rewrite length_firstn in Hl. lia.
Qed.

Lemma scan_matches_line (ic : bool) (r : re) (tail : str) :
  line_bound ic r = true -> line_end tail ->
  forall s i i' prev prev' skip,
    word_before {| index := i; before := prev; rest := s |}
    = word_before {| index := i'; before := prev'; rest := s ++ tail |} ->
    skip <= length s ->
    exists j,
      map snd (scan_matches ic r i' prev' (s ++ tail) skip)
      = map snd (scan_matches ic r i prev s skip)
        ++ match tail with
           | [] => []
           | c :: t => map snd (scan_matches ic r j (Some c) t 0)
           end.
Proof.
  intros Hb Ht. unfold line_bound in Hb. apply andb_true_iff in Hb.
  destruct Hb as (Ha & Hmin). apply negb_true_iff in Ha. apply Nat.leb_le in Hmin.
  induction s as [|c s IH]; intros i i' prev prev' skip Hw Hs.
  - assert (skip = 0) by (simpl in Hs; lia). subst skip.
    assert (Hp : in_line tail i' i {| index := i; before := prev; rest := [] |}
                         {| index := i'; before := prev'; rest := [] ++ tail |}).
    { split; [reflexivity|]. cbn [index]. split; [lia | exact Hw]. }
    pose proof (@match_here_line tail i' i Ht ic r _ _ Ha Hp) as E.
    assert (N0 : match_here ic r {| index := i; before := prev; rest := [] |} = None).
    { destruct (match_here ic r _) as [len|] eqn:E0; [|reflexivity].
      apply match_here_fits in E0. cbn [rest length] in E0. lia. }
    rewrite N0 in E. cbn [app] in E |- *.
    destruct tail as [|c t].
    + exists 0%N. cbn [scan_matches]. rewrite <- E, N0. reflexivity.
    + exists (N.succ i'). cbn [scan_matches]. rewrite <- E, N0. reflexivity.
  - assert (Hp : in_line tail i' i {| index := i; before := prev; rest := c :: s |}
                         {| index := i'; before := prev'; rest := (c :: s) ++ tail |}).
    { split; [reflexivity|]. cbn [index]. split; [lia | exact Hw]. }
    pose proof (@match_here_line tail i' i Ht ic r _ _ Ha Hp) as E.
    assert (Next : forall n, n <= length s ->
              exists j,
                map snd (scan_matches ic r (N.succ i') (Some c) (s ++ tail) n)
                = map snd (scan_matches ic r (N.succ i) (Some c) s n)
                  ++ match tail with
                     | [] => []
                     | c0 :: t => map snd (scan_matches ic r j (Some c0) t 0)
                     end).
    { intros n Hn. apply IH; [reflexivity | exact Hn]. }
    cbn [app scan_matches]. destruct skip as [|n].
    + cbn [app] in E. rewrite <- E.
      destruct (match_here ic r {| index := i; before := prev; rest := c :: s |})
        as [len|] eqn:E0.
      * apply match_here_fits in E0. cbn [rest length] in E0.
        destruct (Next (pred len) ltac:(lia)) as (j & Ej). exists j.
        cbn [map snd]. rewrite Ej. cbn [app]. f_equal.
        change (c :: s ++ tail) with ((c :: s) ++ tail).
        rewrite firstn_app.
        replace (len - length (c :: s)) with 0 by (simpl; lia).
        rewrite firstn_O, app_nil_r. reflexivity.
      * destruct (Next 0 ltac:(lia)) as (j & Ej). exists j. exact Ej.
    + simpl in Hs. destruct (Next n ltac:(lia)) as (j & Ej). exists j. exact Ej.
Qed.

Lemma scan_matches_anywhere (ic : bool) (r : re) (s : str) (j : N) :
  line_bound ic r = true ->
  map snd (scan_matches ic r j (Some LF) s 0) = texts_of ic r s.
Proof.
  intros Hb.
  destruct (@scan_matches_line ic r [] Hb I s 0%N j None (Some LF) 0
              eq_refl (Nat.le_0_l _)) as (_ & E).
  rewrite !app_nil_r in E. exact E.
Qed.

Lemma texts_of_lines (ic : bool) (r : re) (cells : list str) :
  line_bound ic r = true ->
  texts_of ic r (Array_join cells [LF]) = flat_map (texts_of ic r) cells.
Proof.
  intros Hb. induction cells as [|a cells IH].
  - unfold texts_of. cbn [Array_join flat_map scan_matches].
    destruct (match_here ic r _) as [len|] eqn:E; [|reflexivity].
    apply match_here_fits in E. cbn [rest length] in E.
    unfold line_bound in Hb. apply andb_true_iff in Hb. destruct Hb as (_ & Hm).
    apply Nat.leb_le in Hm. lia.
  - destruct cells as [|b cells].
    + cbn [Array_join flat_map]. now rewrite app_nil_r.
    + change (Array_join (a :: b :: cells) [LF])
        with (a ++ LF :: Array_join (b :: cells) [LF]).
      change (flat_map (texts_of ic r) (a :: b :: cells))
        with (texts_of ic r a ++ flat_map (texts_of ic r) (b :: cells)).
      rewrite <- IH. unfold texts_of at 1.
      destruct (@scan_matches_line ic r (LF :: Array_join (b :: cells) [LF]) Hb
                  eq_refl a 0%N 0%N None None 0) as (j & E).
      * unfold word_before. reflexivity.
      * lia.
      * rewrite E. f_equal. now apply scan_matches_anywhere.
Qed.

Lemma catalog_line_bound (p : PiiPattern) :
  In p PII_PATTERNS -> snd (match_bounds p) = false ->
  global (pattern p) = true
  /\ lastIndex (pattern p) = 0%N
  /\ line_bound (ignoreCase (pattern p)) (compiled (pattern p)) = true.
Proof.
  intros Hp. simpl in Hp.
  repeat (destruct Hp as [<-|Hp];
          [intros H; vm_compute in H; try discriminate H;
           repeat split; vm_compute; reflexivity|]).
  destruct Hp.
Qed.

Lemma matches_of_texts (p : PiiPattern) (text : str) :
  global (pattern p) = true -> lastIndex (pattern p) = 0%N ->
  matches_of p text = texts_of (ignoreCase (pattern p)) (compiled (pattern p)) text.
Proof.
  intros Hg Hl. unfold matches_of, String_matchAll, texts_of.
  rewrite Hg, Hl. reflexivity.
Qed.

Lemma matches_of_lines (p : PiiPattern) (cells : list str) :
  In p PII_PATTERNS -> snd (match_bounds p) = false ->
  matches_of p (Array_join cells [LF]) = flat_map (matches_of p) cells.
Proof.
  intros Hp Hb. destruct (@catalog_line_bound p Hp Hb) as (Hg & Hl & Hlb).
  rewrite (@matches_of_texts p _ Hg Hl), (@texts_of_lines _ _ cells Hlb).
  apply flat_map_ext. intros c. symmetry. now apply matches_of_texts.
Qed.

(** X19. For the seven content patterns that accept no line feed
    (email, card, IPv4, ZIP, date of birth, passport, routing number)
    the content pass works cell by cell: the matches found in cells
    joined by line feeds are exactly the matches found in each cell on
    its own, in order. So the [matchCount] of a finding of such a
    pattern is the number of matches in the first 200 values of the
    column taken one by one; joining the values neither creates nor
    hides a match. *)
Theorem content_pass_cell_by_cell :
  (forall p cells,
     In p PII_PATTERNS -> snd (match_bounds p) = false ->
     matches_of p (Array_join cells [LF]) = flat_map (matches_of p) cells)
  /\ (forall col values f,
        In f (content_findings PII_PATTERNS col values) ->
        exists p,
          In p PII_PATTERNS
          /\ patternName f = name p
          /\ (snd (match_bounds p) = false ->
              matchCount f
              = length (flat_map (matches_of p) (firstn 200 values)))).
Proof.
  split; [intros p cells; apply matches_of_lines|].
  intros col values f Hf. apply content_findings_spec in Hf.
  destruct Hf as (p & samples & Hp & _ & _ & ->). exists p.
  split; [exact Hp|]. split; [reflexivity|].
  intros Hb. cbn [matchCount]. unfold sample_of, Array_take.
  now rewrite (@matches_of_lines p (firstn 200 values) Hp Hb).
Qed.
